(** * Mastodon Random Picker: retrieval walker and non-repeating sampler

    A shallow embedding of the session logic of the application
    ([executeFetch], [pickRandomStatus], [clearHistory], [handleFileUpload],
    [handleDownloadBackup], [loadHistory], [saveHistory], [togglePause],
    [stopFetch]) and the properties of it that the specification states.

    The functions are those of the current version of the application. Its
    first version ([handleFetch], and a [pickRandomStatus] without display
    filter) walks and samples the same way, without pause, stop, limits and
    filters.

    Conventions of the embedding:
    - the module-level [state] object, the two flags [pausedRef] and
      [stopRef], and [localStorage] are threaded explicitly as a [World];
    - [state.viewedIds] (a JS [Set] of ids) is a [gset string]; the arrays
      written to [localStorage] are lists;
    - [new Date(x).getTime()] is a number of milliseconds or [NaN]; a date
      field holds that value ([JsTime]);
    - what the browser supplies (the answer to [window.confirm], the value of
      [Math.random], network replies, timer expiries, clicks on the pause and
      stop buttons) is an explicit argument. *)

From Stdlib Require Import Ascii.
From stdpp Require Import gmap strings list pretty.

Open Scope Z_scope.

(** ** Dates *)

(** The value of [new Date(x).getTime()]. *)
Inductive JsTime :=
  | NaN
  | Ms (t : Z).

(** JS [a >= b] on numbers: false as soon as one side is [NaN]. *)
Definition time_ge (a b : JsTime) : bool :=
  match a, b with
  | Ms x, Ms y => bool_decide (y ≤ x)
  | _, _ => false
  end.

(** JS [a < b] on numbers. *)
Definition time_lt (a b : JsTime) : bool :=
  match a, b with
  | Ms x, Ms y => bool_decide (x < y)
  | _, _ => false
  end.

(** JS [a + d] for a number [d]. *)
Definition time_add (a : JsTime) (d : Z) : JsTime :=
  match a with
  | Ms x => Ms (x + d)
  | NaN => NaN
  end.

(** ** Records of the Mastodon API *)

Record Account := {
  acct_id : string;
  username : string;
  acct : string;
  url : string              (* the empty string when the field is absent *)
}.

(** The nested status of a boost ([s.reblog]). *)
Record Reblog := {
  rb_id : string;
  rb_created_at : JsTime;
  rb_in_reply_to_id : option string
}.

Record Status := {
  id : string;
  created_at : JsTime;
  in_reply_to_id : option string;   (* [None] is JS [null] *)
  reblog : option Reblog;
  account : option Account
}.

(** JS truthiness of a string that may be [null]. *)
Definition truthy (o : option string) : bool :=
  match o with
  | Some x => negb (String.eqb x "")
  | None => false
  end.

(** ** Session state *)

Inductive FetchType := initial | older | newer.

Inductive FetchMode := all | limit_count | limit_date.

Record FetchConfig := {
  excludeReplies : bool;
  excludeReblogs : bool;
  mode : FetchMode;
  limitCount : Z;
  limitDate : JsTime
}.

(** [startDate] and [endDate] are [None] for the empty string (no bound). *)
Record DisplayFilter := {
  startDate : option JsTime;
  endDate : option JsTime;
  showReplies : bool;
  showReblogs : bool
}.

Record State := {
  urlInput : string;
  loading : bool;
  fetchType : option FetchType;
  fetchCount : nat;
  error : option string;
  currentAccount : option Account;
  allStatuses : list Status;
  currentStatus : option Status;
  viewedIds : gset string;
  fetchConfig : FetchConfig;
  displayFilter : DisplayFilter;
  isPaused : bool
}.

(** [localStorage], by kind of key: [seen_statuses_<id>] and
    [cached_data_<id>], both indexed by the account id. *)
Record Storage := {
  seen_statuses : gmap string (list string);
  cached_data : gmap string (list Status)
}.

Record World := {
  state : State;
  pausedRef : bool;
  stopRef : bool;
  localStorage : Storage
}.

(** Field updates of [state]. *)
Definition with_view (cur : option Status) (v : gset string) (s : State) : State :=
  {| urlInput := urlInput s; loading := loading s; fetchType := fetchType s;
     fetchCount := fetchCount s; error := error s;
     currentAccount := currentAccount s; allStatuses := allStatuses s;
     currentStatus := cur; viewedIds := v;
     fetchConfig := fetchConfig s; displayFilter := displayFilter s;
     isPaused := isPaused s |}.

Definition with_state (s : State) (w : World) : World :=
  {| state := s; pausedRef := pausedRef w; stopRef := stopRef w;
     localStorage := localStorage w |}.

Definition with_storage (st : Storage) (w : World) : World :=
  {| state := state w; pausedRef := pausedRef w; stopRef := stopRef w;
     localStorage := st |}.

(** ** Viewed-set persistence *)

(** [loadHistory(accountId)]: the stored array as a set, the empty set when
    nothing is stored. *)
Definition loadHistory (accountId : string) (w : World) : World :=
  let v := match seen_statuses (localStorage w) !! accountId with
           | Some savedHistory => list_to_set savedHistory
           | None => ∅
           end in
  with_state (with_view (currentStatus (state w)) v (state w)) w.

(** [saveHistory(accountId, ids)]. *)
Definition saveHistory (accountId : string) (ids : gset string) (w : World) : World :=
  with_storage
    {| seen_statuses := <[accountId := elements ids]> (seen_statuses (localStorage w));
       cached_data := cached_data (localStorage w) |} w.

(** [clearHistory()]. *)
Definition clearHistory (w : World) : World :=
  match currentAccount (state w) with
  | None => w
  | Some a =>
      let w := saveHistory (acct_id a) ∅ w in
      with_state (with_view None ∅ (state w)) w
  end.

(** ** Random sampler *)

(** The record a display filter looks at: the boosted status for a boost. *)
Definition is_reply (s : Status) : bool :=
  match reblog s with
  | Some r => truthy (rb_in_reply_to_id r)
  | None => truthy (in_reply_to_id s)
  end.

Definition is_reblog (s : Status) : bool :=
  match reblog s with Some _ => true | None => false end.

Definition dateToCheck (s : Status) : JsTime :=
  match reblog s with
  | Some r => rb_created_at r
  | None => created_at s
  end.

(** Step 1 of [pickRandomStatus]: the display filter applied to the
    collection. *)
Definition display_pool (f : DisplayFilter) (statuses : list Status) : list Status :=
  let pool := statuses in
  let pool := if showReplies f then pool
              else List.filter (λ s, negb (is_reply s)) pool in
  let pool := if showReblogs f then pool
              else List.filter (λ s, negb (is_reblog s)) pool in
  let pool := match startDate f with
              | Some d => List.filter (λ s, time_ge (dateToCheck s) d) pool
              | None => pool
              end in
  let pool := match endDate f with
              | Some d =>
                  let end_ := time_add d 86400000 in
                  List.filter (λ s, time_lt (dateToCheck s) end_) pool
              | None => pool
              end in
  pool.

(** What a call of [pickRandomStatus] shows the user. *)
Inductive PickSignal :=
  | NoSignal                  (* the early [return] *)
  | EmptyPool                 (* the [alert]: nothing passes the filter *)
  | Exhausted                 (* the [window.confirm]: everything was seen *)
  | Picked (selected : Status).

(** [pickRandomStatus()]. [u] stands for the value drawn by [Math.random]:
    [Math.floor(Math.random() * n)] is an index below [n], here [u mod n].
    [confirmed] is the user's answer to [window.confirm], read only when the
    dialog is shown. *)
Definition pickRandomStatus (u : nat) (confirmed : bool) (w : World)
  : World * PickSignal :=
  match currentAccount (state w), allStatuses (state w) with
  | None, _ | _, [] => (w, NoSignal)
  | Some a, _ :: _ =>
      let pool := display_pool (displayFilter (state w)) (allStatuses (state w)) in
      let availableStatuses :=
        filter (λ s, id s ∉ viewedIds (state w)) pool in
      match pool, availableStatuses with
      | [], _ => (w, EmptyPool)
      | _ :: _, [] => (if confirmed then clearHistory w else w, Exhausted)
      | _ :: _, first :: _ =>
          let randomIndex := (u mod length availableStatuses)%nat in
          let selected := nth randomIndex availableStatuses first in
          let newViewedIds := {[ id selected ]} ∪ viewedIds (state w) in
          let w := with_state (with_view (Some selected) newViewedIds (state w)) w in
          (saveHistory (acct_id a) newViewedIds w, Picked selected)
      end
  end.

(** ** Snapshots: export and import *)

(** An item of an ActivityPub outbox, left uninterpreted: the conversion of
    an archive is the importer [parseActivityPubOutbox]. *)
Inductive Activity := RawActivity (source : string).

(** A JSON object, by the properties [handleFileUpload] reads. *)
Record JsonObject := {
  j_type : option string;
  j_timestamp : option string;
  j_orderedItems : option (list Activity);
  j_account : option Account;
  j_statuses : option (list Status);   (* [Some] when the property is an array *)
  j_viewedIds : list string
}.

(** A parsed document. *)
Inductive Json :=
  | JArray (items : list Status)
  | JObject (o : JsonObject)
  | JPrimitive.                        (* a number, a string or a boolean *)

(** What reading the file gives: [JSON.parse] returns a document, or an
    error is thrown before any shape is looked at (a syntax error; a [null]
    document, whose first property read throws). *)
Inductive FileContent :=
  | Unparsable (message : string)
  | Parsed (j : Json).

(** The files chosen in the dialog; the selection of a folder (an unpacked
    archive) is a separate importer and is not part of this model. *)
Inductive Upload :=
  | NoFiles
  | JsonFile (content : FileContent).

Definition backup_marker : string := "mastodon-picker-backup".

(** [handleDownloadBackup()]: the document handed to [downloadJson], if any.
    [now] is [new Date().toISOString()]. *)
Definition handleDownloadBackup (now : string) (w : World) : option Json :=
  match currentAccount (state w), allStatuses (state w) with
  | Some a, _ :: _ =>
      Some (JObject {| j_type := Some backup_marker;
                       j_timestamp := Some now;
                       j_orderedItems := None;
                       j_account := Some a;
                       j_statuses := Some (allStatuses (state w));
                       j_viewedIds := elements (viewedIds (state w)) |})
  | _, _ => None
  end.

(** [err.message || fallback]. *)
Definition message_or (message fallback : string) : string :=
  if String.eqb message "" then fallback else message.

Definition with_error (e : option string) (s : State) : State :=
  {| urlInput := urlInput s; loading := loading s; fetchType := fetchType s;
     fetchCount := fetchCount s; error := e;
     currentAccount := currentAccount s; allStatuses := allStatuses s;
     currentStatus := currentStatus s; viewedIds := viewedIds s;
     fetchConfig := fetchConfig s; displayFilter := displayFilter s;
     isPaused := isPaused s |}.

Definition with_loading (b : bool) (s : State) : State :=
  {| urlInput := urlInput s; loading := b; fetchType := fetchType s;
     fetchCount := fetchCount s; error := error s;
     currentAccount := currentAccount s; allStatuses := allStatuses s;
     currentStatus := currentStatus s; viewedIds := viewedIds s;
     fetchConfig := fetchConfig s; displayFilter := displayFilter s;
     isPaused := isPaused s |}.

Definition with_collection (a : option Account) (l : list Status) (s : State) : State :=
  {| urlInput := urlInput s; loading := loading s; fetchType := fetchType s;
     fetchCount := fetchCount s; error := error s;
     currentAccount := a; allStatuses := l;
     currentStatus := currentStatus s; viewedIds := viewedIds s;
     fetchConfig := fetchConfig s; displayFilter := displayFilter s;
     isPaused := isPaused s |}.

Definition with_urlInput (u : string) (s : State) : State :=
  {| urlInput := u; loading := loading s; fetchType := fetchType s;
     fetchCount := fetchCount s; error := error s;
     currentAccount := currentAccount s; allStatuses := allStatuses s;
     currentStatus := currentStatus s; viewedIds := viewedIds s;
     fetchConfig := fetchConfig s; displayFilter := displayFilter s;
     isPaused := isPaused s |}.

Section Importer.

(** The archive importer: the statuses and the account of an outbox, or
    the message of the error it throws. *)
Variable parseActivityPubOutbox :
  list Activity → string + (list Status * option Account).

(** The shape detection of [reader.onload]: statuses, account and restored
    viewed ids, or the message of the error thrown. *)
Definition detect_format (jsonContent : Json)
  : string + (list Status * option Account * option (gset string)) :=
  let unrecognized := inl "无法识别的文件格式。" in
  match jsonContent with
  | JObject o =>
      match bool_decide (j_type o = Some "OrderedCollection"), j_orderedItems o with
      | true, Some items =>
          match parseActivityPubOutbox items with
          | inl message => inl message
          | inr (statuses, account) => inr (statuses, account, None)
          end
      | _, _ =>
          match bool_decide (j_type o = Some backup_marker), j_statuses o with
          | true, Some statuses =>
              inr (statuses, j_account o, Some (list_to_set (j_viewedIds o)))
          | _, _ => unrecognized
          end
      end
  | JArray items =>
      match items with
      | [] => inl "无效的 JSON 数据格式。"
      | first :: _ =>
          if String.eqb (id first) "" then inl "无效的 JSON 数据格式。"
          else match account first with
               | None => inl "无效的 JSON 数据格式。"
               | Some a => inr (items, Some a, None)
               end
      end
  | JPrimitive => unrecognized
  end.

(** The body of the [try] block of [reader.onload]. *)
Definition load_snapshot (content : FileContent) (w : World) : string + World :=
  match content with
  | Unparsable message => inl message
  | Parsed jsonContent =>
      match detect_format jsonContent with
      | inl message => inl message
      | inr (_, None, _) => inl "无法从文件中解析用户信息。"
      | inr (statuses, Some a, restoredIds) =>
          let s := with_collection (Some a) statuses (state w) in
          let s := if String.eqb (url a) "" then s else with_urlInput (url a) s in
          let w := with_state s w in
          inr match restoredIds with
              | Some ids =>
                  saveHistory (acct_id a) ids
                    (with_state (with_view (currentStatus s) ids s) w)
              | None => loadHistory (acct_id a) w
              end
      end
  end.

(** [handleFileUpload(e)] for a single JSON file, with the callback of the
    file reader run to its end. *)
Definition handleFileUpload (files : Upload) (w : World) : World :=
  match files with
  | NoFiles => w
  | JsonFile content =>
      let s := with_loading true (state w) in
      let s := with_error None s in
      let s := with_view None (viewedIds s) s in
      let s := with_collection None [] s in
      let w := with_state s w in
      let w := match load_snapshot content w with
               | inr w' => w'
               | inl message =>
                   with_state (with_error (Some (message_or message "解析文件失败")) (state w)) w
               end in
      with_state (with_loading false (state w)) w
  end.

End Importer.

(** ** Pause and stop *)

Definition with_isPaused (b : bool) (s : State) : State :=
  {| urlInput := urlInput s; loading := loading s; fetchType := fetchType s;
     fetchCount := fetchCount s; error := error s;
     currentAccount := currentAccount s; allStatuses := allStatuses s;
     currentStatus := currentStatus s; viewedIds := viewedIds s;
     fetchConfig := fetchConfig s; displayFilter := displayFilter s;
     isPaused := b |}.

Definition with_flags (paused stop : bool) (w : World) : World :=
  {| state := state w; pausedRef := paused; stopRef := stop;
     localStorage := localStorage w |}.

(** [togglePause()]. *)
Definition togglePause (w : World) : World :=
  let nextState := negb (isPaused (state w)) in
  with_flags nextState (stopRef w) (with_state (with_isPaused nextState (state w)) w).

(** [stopFetch()]. *)
Definition stopFetch (w : World) : World :=
  let w := with_flags (pausedRef w) true w in
  if pausedRef w
  then with_flags false (stopRef w) (with_state (with_isPaused false (state w)) w)
  else w.

(** The two buttons a user can press while a walk is suspended. *)
Inductive UserAction := PauseButton | StopButton.

#[global] Instance UserAction_eq_dec : EqDecision UserAction.
Proof. solve_decision. Defined.

Definition handle (a : UserAction) (w : World) : World :=
  match a with
  | PauseButton => togglePause w
  | StopButton => stopFetch w
  end.

Definition handle_all (acts : list UserAction) (w : World) : World :=
  foldl (λ w a, handle a w) w acts.

(** What the two buttons leave alone: they touch the pause and stop flags
    only, and never unset the stop flag. *)
Definition same_session (w w' : World) : Prop :=
  allStatuses (state w') = allStatuses (state w) ∧
  fetchConfig (state w') = fetchConfig (state w) ∧
  fetchCount (state w') = fetchCount (state w) ∧
  viewedIds (state w') = viewedIds (state w) ∧
  currentAccount (state w') = currentAccount (state w) ∧
  localStorage w' = localStorage w ∧
  (stopRef w = true → stopRef w' = true).

(** ** The cursor pagination walker *)

(** A page request, by the strings that the walker pastes into its URL:
    the id of the account, and, when they are truthy, the two cursors. The
    strings are pasted as they are, without encoding, so the text of the URL
    is [request_url], and a server reads its parameters off that text. *)
Record Request := {
  req_account : string;
  req_limit : nat;
  req_exclude_replies : bool;
  req_exclude_reblogs : bool;
  req_max_id : option string;
  req_since_id : option string
}.

(** What [await fetch(statusesUrl)] and [await res.json()] give: the array of
    the page, or an error thrown with the given message. *)
Inductive Response :=
  | Failed (message : string)
  | Ok (batch : list Status).

(** What can be observed of a walk, in order. Durations are in
    milliseconds. *)
Inductive Event :=
  | Requested (r : Request)
  | Responded (latency : N) (r : Response)
  | Slept (ms : N)
  | Clicked (a : UserAction).

(** What the environment does during one iteration of the loop: how the
    server answers, after which time, and which buttons are pressed while
    the walker is suspended in the pause sleep, in the request, and in the
    delay between two pages. A button pressed during a suspension is recorded
    at its start. *)
Record Tick := {
  reply : Request → Response;
  latency : N;
  on_pause : list UserAction;
  on_fetch : list UserAction;
  on_delay : list UserAction
}.

(** The local variables of [executeFetch] during the loop, with the
    world. *)
Record Walk := {
  world : World;
  type : FetchType;
  accountId : string;
  nextMaxId : option string;
  sinceId : option string;
  keepFetching : bool;
  sessionCollectedCount : nat
}.

Definition with_world (w : World) (k : Walk) : Walk :=
  {| world := w; type := type k; accountId := accountId k;
     nextMaxId := nextMaxId k; sinceId := sinceId k;
     keepFetching := keepFetching k;
     sessionCollectedCount := sessionCollectedCount k |}.

Definition with_keepFetching (b : bool) (k : Walk) : Walk :=
  {| world := world k; type := type k; accountId := accountId k;
     nextMaxId := nextMaxId k; sinceId := sinceId k;
     keepFetching := b;
     sessionCollectedCount := sessionCollectedCount k |}.

Definition with_nextMaxId (c : option string) (k : Walk) : Walk :=
  {| world := world k; type := type k; accountId := accountId k;
     nextMaxId := c; sinceId := sinceId k;
     keepFetching := keepFetching k;
     sessionCollectedCount := sessionCollectedCount k |}.

Definition with_count (n : nat) (k : Walk) : Walk :=
  {| world := world k; type := type k; accountId := accountId k;
     nextMaxId := nextMaxId k; sinceId := sinceId k;
     keepFetching := keepFetching k;
     sessionCollectedCount := n |}.

Definition with_fetched (l : list Status) (n : nat) (s : State) : State :=
  {| urlInput := urlInput s; loading := loading s; fetchType := fetchType s;
     fetchCount := n; error := error s;
     currentAccount := currentAccount s; allStatuses := l;
     currentStatus := currentStatus s; viewedIds := viewedIds s;
     fetchConfig := fetchConfig s; displayFilter := displayFilter s;
     isPaused := isPaused s |}.

Definition click (acts : list UserAction) (k : Walk) : Walk :=
  with_world (handle_all acts (world k)) k.

(** A cursor is appended to the URL when it is truthy. *)
Definition cursor (c : option string) : option string :=
  if truthy c then c else None.

(** [statusesUrl], by the strings pasted into it; its text is
    [request_url] of this record. *)
Definition statusesUrl (k : Walk) : Request :=
  let cfg := fetchConfig (state (world k)) in
  {| req_account := accountId k;
     req_limit := 40;
     req_exclude_replies := excludeReplies cfg;
     req_exclude_reblogs := excludeReblogs cfg;
     req_max_id := cursor (nextMaxId k);
     req_since_id := cursor (sinceId k) |}.

(** The text of [statusesUrl], as the loop builds it: the template
    [https://${domain}/api/v1/accounts/${accountId}/statuses?limit=40], then
    [&exclude_replies=true] and [&exclude_reblogs=true] when configured, then
    [&max_id=${nextMaxId}] and [&since_id=${sinceId}] when these are truthy.
    Nothing is encoded. *)
Definition request_url (domain : string) (r : Request) : string :=
  "https://" +:+ domain +:+ "/api/v1/accounts/" +:+ req_account r
    +:+ "/statuses?limit=" +:+ pretty (req_limit r)
    +:+ (if req_exclude_replies r then "&exclude_replies=true" else "")
    +:+ (if req_exclude_reblogs r then "&exclude_reblogs=true" else "")
    +:+ match req_max_id r with Some c => "&max_id=" +:+ c | None => "" end
    +:+ match req_since_id r with Some c => "&since_id=" +:+ c | None => "" end.

Definition is_newer (t : FetchType) : bool :=
  match t with newer => true | _ => false end.

Definition is_initial (t : FetchType) : bool :=
  match t with initial => true | _ => false end.

(** Stop condition 2: the page cut at the date limit, and whether the walk
    goes on. *)
Definition truncate_by_date (k : Walk) (batch : list Status) : list Status * bool :=
  let cfg := fetchConfig (state (world k)) in
  match mode cfg, is_newer (type k), last batch with
  | limit_date, false, Some lastItem =>
      let limitTime := limitDate cfg in
      let lastItemTime := created_at lastItem in
      if time_lt lastItemTime limitTime
      then (List.filter (λ s, time_ge (created_at s) limitTime) batch, false)
      else (batch, keepFetching k)
  | _, _, _ => (batch, keepFetching k)
  end.

(** The merge of a filtered page into [state.allStatuses]. *)
Definition merge (filteredBatch : list Status) (k : Walk) : Walk :=
  match filteredBatch with
  | [] => k
  | _ :: _ =>
      let s := state (world k) in
      let merged := if is_newer (type k)
                    then filteredBatch ++ allStatuses s
                    else allStatuses s ++ filteredBatch in
      let n := (sessionCollectedCount k + length filteredBatch)%nat in
      with_count n (with_world (with_state (with_fetched merged n s) (world k)) k)
  end.

(** Stop condition 3: the count limit of an initial walk. *)
Definition stop_at_count (k : Walk) : Walk :=
  let cfg := fetchConfig (state (world k)) in
  match mode cfg, type k with
  | limit_count, initial =>
      if bool_decide (limitCount cfg ≤ Z.of_nat (sessionCollectedCount k))
      then with_keepFetching false k
      else k
  | _, _ => k
  end.

(** Whether stop condition 2 holds of a page: the walk is date-limited, is
    not a newer walk, and the last item of the page is dated before the
    limit. *)
Definition date_limit_applies (k : Walk) (batch : list Status) : bool :=
  let cfg := fetchConfig (state (world k)) in
  match mode cfg, is_newer (type k), last batch with
  | limit_date, false, Some lastItem =>
      time_lt (created_at lastItem) (limitDate cfg)
  | _, _, _ => false
  end.

(** Whether stop condition 3 holds once a page has been merged whole: the
    walk is an initial walk, is count-limited, and the count of the session
    has reached the limit. *)
Definition count_limit_applies (k : Walk) (batch : list Status) : bool :=
  let cfg := fetchConfig (state (world k)) in
  match mode cfg, type k with
  | limit_count, initial =>
      bool_decide
        (limitCount cfg ≤ Z.of_nat (sessionCollectedCount k + length batch))
  | _, _ => false
  end.

(** How an iteration of the loop ends. *)
Inductive Control :=
  | Continue                 (* back to the test of the [while] *)
  | Break
  | Throw (message : string).

(** The part of the loop body that follows a non-empty page. *)
Definition process_page (t : Tick) (batch : list Status) (k : Walk)
  : Walk * list Event :=
  let '(filteredBatch, keep) := truncate_by_date k batch in
  let k := with_keepFetching keep k in
  let k := merge filteredBatch k in
  let k := stop_at_count k in
  if keepFetching k then
    if is_newer (type k) then (with_keepFetching false k, [])
    else
      let k := with_nextMaxId (id <$> last batch) k in
      (click (on_delay t) k, (Clicked <$> on_delay t) ++ [Slept 400%N])
  else (k, []).

(** One iteration of the loop body, entered with [stopRef] unset. *)
Definition iteration (t : Tick) (k : Walk) : Walk * list Event * Control :=
  if pausedRef (world k) then
    (click (on_pause t) k, (Clicked <$> on_pause t) ++ [Slept 500%N], Continue)
  else
    let request := statusesUrl k in
    let response := reply t request in
    let k := click (on_fetch t) k in
    let evs := Requested request :: (Clicked <$> on_fetch t)
                 ++ [Responded (latency t) response] in
    match response with
    | Failed message => (k, evs, Throw message)
    | Ok [] => (with_keepFetching false k, evs, Break)
    | Ok batch =>
        let '(k, evs') := process_page t batch k in
        (k, evs ++ evs', Continue)
    end.

(** How far a walk got on the ticks it was given. *)
Inductive Outcome :=
  | Finished (k : Walk)                   (* the loop was left *)
  | Thrown (message : string) (k : Walk)  (* an error left the loop *)
  | Running (k : Walk).                   (* the ticks ran out first *)

(** The loop [while (keepFetching) { if (stopRef) break; ... }]: one tick for
    each iteration that suspends. *)
Fixpoint while_loop (ticks : list Tick) (k : Walk) : Outcome * list Event :=
  if negb (keepFetching k) then (Finished k, [])
  else if stopRef (world k) then (Finished k, [])
  else
    match ticks with
    | [] => (Running k, [])
    | t :: ticks =>
        let '(k', evs, c) := iteration t k in
        match c with
        | Continue =>
            let '(o, evs') := while_loop ticks k' in (o, evs ++ evs')
        | Break => (Finished k', evs)
        | Throw message => (Thrown message k', evs)
        end
    end.

(** ** [executeFetch] *)

(** What the environment supplies around the loop. *)
Record Prelude := {
  (* initial: the URL parsed and the account looked up, or the message of
     the error thrown on the way *)
  resolve : string + Account;
  (* older, newer: whether the instance domain can be read from the account
     or from the URL field *)
  domain_ok : bool;
  (* initial: buttons pressed during the lookups *)
  early : list UserAction;
  (* whether the cache fits the storage quota *)
  quota_ok : bool
}.

(** The assignments at the head of [executeFetch]. *)
Definition begin_fetch (ty : FetchType) (w : World) : World :=
  let s := state w in
  let clear := is_initial ty in
  with_flags false false
    (with_state
       {| urlInput := urlInput s; loading := true; fetchType := Some ty;
          fetchCount := 0%nat; error := None;
          currentAccount := if clear then None else currentAccount s;
          allStatuses := if clear then [] else allStatuses s;
          currentStatus := if clear then None else currentStatus s;
          viewedIds := viewedIds s;
          fetchConfig := fetchConfig s; displayFilter := displayFilter s;
          isPaused := false |} w).

(** The [finally] block. *)
Definition end_fetch (w : World) : World :=
  let s := state w in
  with_flags (pausedRef w) false
    (with_state
       {| urlInput := urlInput s; loading := false; fetchType := None;
          fetchCount := fetchCount s; error := error s;
          currentAccount := currentAccount s; allStatuses := allStatuses s;
          currentStatus := currentStatus s; viewedIds := viewedIds s;
          fetchConfig := fetchConfig s; displayFilter := displayFilter s;
          isPaused := false |} w).

(** The [catch] block. *)
Definition catch_error (message : string) (w : World) : World :=
  with_state (with_error (Some (message_or message "发生未知错误")) (state w)) w.

(** The loop variables at the entry of the loop. *)
Definition enter_loop (ty : FetchType) (account : string) (w : World) : Walk :=
  let statuses := allStatuses (state w) in
  {| world := w; type := ty; accountId := account;
     nextMaxId := match ty with older => id <$> last statuses | _ => None end;
     sinceId := match ty with newer => id <$> head statuses | _ => None end;
     keepFetching := true;
     sessionCollectedCount := 0 |}.

(** Step 1 of the [try] block: the account of the walk, or the error
    thrown. *)
Definition find_account (ty : FetchType) (pre : Prelude) (w : World)
  : World * (string + string) :=
  match ty with
  | initial =>
      let w := handle_all (early pre) w in
      match resolve pre with
      | inl message => (w, inl message)
      | inr accountData =>
          let s := with_collection (Some accountData) (allStatuses (state w)) (state w) in
          (loadHistory (acct_id accountData) (with_state s w),
           inr (acct_id accountData))
      end
  | _ =>
      match currentAccount (state w) with
      | None => (w, inl "未找到账户信息")
      | Some a =>
          if domain_ok pre then (w, inr (acct_id a))
          else (w, inl "无法解析实例域名")
      end
  end.

(** The writing of the cache after an initial walk. *)
Definition cache_statuses (pre : Prelude) (account : string) (w : World) : World :=
  if quota_ok pre then
    with_storage
      {| seen_statuses := seen_statuses (localStorage w);
         cached_data := <[account := allStatuses (state w)]> (cached_data (localStorage w)) |} w
  else w.

(** The end of the [try] block, after the loop. *)
Definition after_loop (pre : Prelude) (k : Walk) : World :=
  let w := world k in
  if is_initial (type k) && (sessionCollectedCount k =? 0)%nat && negb (stopRef w)
  then catch_error "未获取到符合条件的嘟文。" w
  else if is_initial (type k) then cache_statuses pre (accountId k) w
  else w.

(** [executeFetch(type)]: the world when the walk is over ([None] while it
    is still running on the ticks given) and what was observed. *)
Definition executeFetch (ty : FetchType) (pre : Prelude) (ticks : list Tick)
    (w : World) : option World * list Event :=
  let w := begin_fetch ty w in
  match find_account ty pre w with
  | (w, inl message) => (Some (end_fetch (catch_error message w)), [])
  | (w, inr account) =>
      match while_loop ticks (enter_loop ty account w) with
      | (Finished k, evs) => (Some (end_fetch (after_loop pre k)), evs)
      | (Thrown message k, evs) =>
          (Some (end_fetch (catch_error message (world k))), evs)
      | (Running _, evs) => (None, evs)
      end
  end.

(** ** Reading a trace *)

Fixpoint requests (evs : list Event) : list Request :=
  match evs with
  | [] => []
  | Requested r :: evs => r :: requests evs
  | _ :: evs => requests evs
  end.

(** The answers received, in order. *)
Fixpoint responses (evs : list Event) : list Response :=
  match evs with
  | [] => []
  | Responded _ r :: evs => r :: responses evs
  | _ :: evs => responses evs
  end.

(** The pages received, in order. *)
Definition page (r : Response) : list Status :=
  match r with
  | Ok batch => batch
  | Failed _ => []
  end.

Definition pages (evs : list Event) : list (list Status) :=
  page <$> responses evs.



(** What follows the first press of the stop button, [None] when it is never
    pressed. *)
Fixpoint after_stop (evs : list Event) : option (list Event) :=
  match evs with
  | [] => None
  | Clicked StopButton :: evs => Some evs
  | _ :: evs => after_stop evs
  end.

Definition terminated (o : Outcome) : bool :=
  match o with
  | Running _ => false
  | _ => true
  end.

Definition final (o : Outcome) : Walk :=
  match o with
  | Finished k | Thrown _ k | Running k => k
  end.


(** ** Sessions of picks *)

(** The viewed set stored for an account: what [loadHistory] reads. *)
Definition stored (accountId : string) (w : World) : gset string :=
  match seen_statuses (localStorage w) !! accountId with
  | Some savedHistory => list_to_set savedHistory
  | None => ∅
  end.

(** [returnToHome()], as far as the session is concerned (it also closes the
    image overlay, see [closed]). *)
Definition returnToHome (w : World) : World :=
  let s := state w in
  with_state
    {| urlInput := urlInput s; loading := false; fetchType := fetchType s;
       fetchCount := 0%nat; error := None;
       currentAccount := None; allStatuses := []; currentStatus := None;
       viewedIds := ∅;
       fetchConfig := fetchConfig s; displayFilter := displayFilter s;
       isPaused := isPaused s |} w.

(** The assignments by which a loader makes an account current:
    [state.currentAccount = account], [state.allStatuses = statuses],
    [loadHistory(account.id)]. They are those of [autoLoadCachedData];
    [handleFileUpload] for a raw export and step 1 of an initial walk make
    them among others, which do not bear on the sampler. *)
Definition enter (a : Account) (statuses : list Status) (w : World) : World :=
  loadHistory (acct_id a)
    (with_state (with_collection (Some a) statuses (state w)) w).

(** An account is current with its history loaded: the viewed set of the
    session is the one stored for the account. *)
Definition current (a : Account) (w : World) : Prop :=
  currentAccount (state w) = Some a ∧
  viewedIds (state w) = stored (acct_id a) w.

(** What happens to the sampler's inputs between two resets: a pick (the
    reset offered on exhaustion is declined); a change of the collection by
    an older or a newer walk, which leave the viewed set alone; a change of
    the display filter; the session left by [returnToHome] or by closing the
    page, and the account entered again by a loader, which reads the
    viewed set from the store. Two operations write the stored set without
    a pick and are not among the actions: the reset ([clearHistory]), and
    the import of a backup with progress, which replaces the stored set by
    the one of the file ([handleFileUpload]). *)
Inductive Action :=
  | Pick (u : nat)
  | Collect (statuses : list Status)
  | Filter (f : DisplayFilter)
  | Reload (statuses : list Status).

Definition with_statuses (l : list Status) (s : State) : State :=
  with_collection (currentAccount s) l s.

Definition with_displayFilter (f : DisplayFilter) (s : State) : State :=
  {| urlInput := urlInput s; loading := loading s; fetchType := fetchType s;
     fetchCount := fetchCount s; error := error s;
     currentAccount := currentAccount s; allStatuses := allStatuses s;
     currentStatus := currentStatus s; viewedIds := viewedIds s;
     fetchConfig := fetchConfig s; displayFilter := f;
     isPaused := isPaused s |}.

Definition act (a : Action) (w : World) : World * PickSignal :=
  match a with
  | Pick u => pickRandomStatus u false w
  | Collect l => (with_state (with_statuses l (state w)) w, NoSignal)
  | Filter f => (with_state (with_displayFilter f (state w)) w, NoSignal)
  | Reload l =>
      match currentAccount (state w) with
      | Some a => (enter a l (returnToHome w), NoSignal)
      | None => (w, NoSignal)
      end
  end.

(** The posts a signal returns. *)
Definition returned (sig : PickSignal) : list Status :=
  match sig with
  | Picked s => [s]
  | _ => []
  end.

(** A session without reset: the final world and the posts returned by its
    successful picks, in order. *)
Fixpoint session (acts : list Action) (w : World) : World * list Status :=
  match acts with
  | [] => (w, [])
  | a :: acts =>
      let '(w, sig) := act a w in
      let '(w', picked) := session acts w in
      (w', returned sig ++ picked)
  end.

(** ** The statements that the code does not satisfy as they are written *)

(** A short page ends an initial or older walk. *)
Definition short_page_ends_walk : Prop :=
  ∀ (t : Tick) (ticks : list Tick) (k : Walk) (batch : list Status),
    type k ≠ newer →
    keepFetching k = true →
    stopRef (world k) = false →
    pausedRef (world k) = false →
    reply t (statusesUrl k) = Ok batch →
    (0 < length batch < 40)%nat →
    terminated (while_loop (t :: ticks) k).1 = true ∧
    requests (while_loop (t :: ticks) k).2 = [statusesUrl k].


Definition unrecognized_message : string := "无法识别的文件格式。".

(** An unrecognized snapshot leaves the session as it was. *)
Definition failed_import_keeps_session : Prop :=
  ∀ (parser : list Activity → string + (list Status * option Account))
    (j : Json) (w : World),
    detect_format parser j = inl unrecognized_message →
    let w' := handleFileUpload parser (JsonFile (Parsed j)) w in
    error (state w') ≠ None ∧
    currentAccount (state w') = currentAccount (state w) ∧
    allStatuses (state w') = allStatuses (state w) ∧
    viewedIds (state w') = viewedIds (state w) ∧
    currentStatus (state w') = currentStatus (state w).

(** The two signals of the sampler, neither touching the viewed set. *)
Definition sampler_signals_keep_viewed : Prop :=
  ∀ (u : nat) (confirmed : bool) (w : World),
    is_Some (currentAccount (state w)) →
    allStatuses (state w) ≠ [] →
    let pool := display_pool (displayFilter (state w)) (allStatuses (state w)) in
    let w' := (pickRandomStatus u confirmed w).1 in
    let sig := (pickRandomStatus u confirmed w).2 in
    (sig = EmptyPool ↔ pool = []) ∧
    (sig = Exhausted ↔ pool ≠ [] ∧ ∀ s, s ∈ pool → id s ∈ viewedIds (state w)) ∧
    (sig = EmptyPool ∨ sig = Exhausted →
       viewedIds (state w') = viewedIds (state w)).

(** ** Sample data *)

Module Sample.

Definition alice : Account :=
  {| acct_id := "109"; username := "alice"; acct := "alice";
     url := "https://example.social/@alice" |}.

Definition post (i : string) (t : Z) : Status :=
  {| id := i; created_at := Ms t; in_reply_to_id := None; reblog := None;
     account := Some alice |}.

Definition p1 := post "3" 3000.
Definition p2 := post "2" 2000.
Definition p3 := post "1" 1000.

Definition config (m : FetchMode) : FetchConfig :=
  {| excludeReplies := true; excludeReblogs := true; mode := m;
     limitCount := 2; limitDate := Ms 1500 |}.

Definition no_filter : DisplayFilter :=
  {| startDate := None; endDate := None; showReplies := true;
     showReblogs := true |}.

Definition session_state (m : FetchMode) (l : list Status) (v : gset string) : State :=
  {| urlInput := "https://example.social/@alice"; loading := false;
     fetchType := None; fetchCount := 0%nat; error := None;
     currentAccount := Some alice; allStatuses := l; currentStatus := None;
     viewedIds := v; fetchConfig := config m; displayFilter := no_filter;
     isPaused := false |}.

Definition empty_storage : Storage :=
  {| seen_statuses := ∅; cached_data := ∅ |}.

Definition world_of (m : FetchMode) (l : list Status) (v : gset string) : World :=
  {| state := session_state m l v; pausedRef := false; stopRef := false;
     localStorage := empty_storage |}.

(** A server that holds [posts], newest first, and serves the page that
    follows the cursor. *)
Fixpoint older_than (c : string) (posts : list Status) : list Status :=
  match posts with
  | [] => []
  | s :: posts => if String.eqb (id s) c then posts else older_than c posts
  end.

Definition serve (posts : list Status) (r : Request) : Response :=
  Ok (take (req_limit r)
        match req_max_id r with
        | Some c => older_than c posts
        | None => posts
        end).

Definition quiet (posts : list Status) (ms : N) : Tick :=
  {| reply := serve posts; latency := ms;
     on_pause := []; on_fetch := []; on_delay := [] |}.


Definition stopped_in_pause (posts : list Status) : Tick :=
  {| reply := serve posts; latency := 100;
     on_pause := [StopButton]; on_fetch := []; on_delay := [] |}.

Definition no_parser (_ : list Activity) : string + (list Status * option Account) :=
  inl "无效的 ActivityPub outbox 格式。".

(** An account with [n] posts, numbered from the oldest, newest first. *)
Definition numbered (n : nat) : list Status :=
  (λ i, post (pretty i) (Z.of_nat i)) <$> rev (seq 1 n).

(** A JSON object of some other application. *)
Definition other_export : JsonObject :=
  {| j_type := Some "notes-export"; j_timestamp := None;
     j_orderedItems := None; j_account := None; j_statuses := None;
     j_viewedIds := [] |}.

Definition found : Prelude :=
  {| resolve := inr alice; domain_ok := true; early := []; quota_ok := true |}.

End Sample.

(** * Further functions of the application *)

(** ** Leaving the session, and the cache *)

(** [handleDownloadRaw()]: the document handed to [downloadJson], if any. *)
Definition handleDownloadRaw (w : World) : option Json :=
  match currentAccount (state w), allStatuses (state w) with
  | Some _, _ :: _ => Some (JArray (allStatuses (state w)))
  | _, _ => None
  end.

(** [autoLoadCachedData()]. [cachedKeys] are the account ids of the keys
    [cached_data_<id>] in the order in which [localStorage.key(i)] gives
    them, an order that the browser decides. *)
Definition autoLoadCachedData (cachedKeys : list string) (w : World) : World :=
  match cachedKeys with
  | [] => w
  | cacheKey :: _ =>
      match cached_data (localStorage w) !! cacheKey with
      | Some ((first :: _) as cachedStatuses) =>
          match account first with
          | Some a =>
              let s := with_collection (Some a) cachedStatuses (state w) in
              loadHistory (acct_id a) (with_state s w)
          | None => w
          end
      | _ => w
      end
  end.

(** ** Profile links *)

(** JS [s.split(sep)] for a separator of one character. *)
Fixpoint split (sep : Ascii.ascii) (s : string) : list string :=
  match s with
  | EmptyString => [EmptyString]
  | String c s' =>
      if Ascii.eqb c sep then EmptyString :: split sep s'
      else match split sep s' with
           | [] => [String c EmptyString]
           | part :: parts => String c part :: parts
           end
  end.

(** Whether [c] occurs in [s]. *)
Fixpoint occurs (c : Ascii.ascii) (s : string) : bool :=
  match s with
  | EmptyString => false
  | String c' s' => Ascii.eqb c' c || occurs c s'
  end.

(** [pathname.split('/').filter(p => p)]. *)
Definition pathParts (pathname : string) : list string :=
  List.filter (λ p, negb (String.eqb p "")) (split "/"%char pathname).

(** The two shapes of a profile path: [/@name] and [/users/name]. *)
Definition username_of_path (pathname : string) : option string :=
  match pathParts pathname with
  | [] => None
  | first :: rest =>
      match first with
      | String c name =>
          if Ascii.eqb c "@" then Some name   (* [startsWith('@')], [substring(1)] *)
          else if String.eqb first "users" then head rest
          else None
      | EmptyString => None
      end
  end.

(** [path.replace(/\/+$/, '')]: the path without the slashes at its
    end. *)
Fixpoint strip_slashes (path : string) : string :=
  match path with
  | EmptyString => EmptyString
  | String c path =>
      match strip_slashes path with
      | EmptyString => if Ascii.eqb c "/" then EmptyString else String c EmptyString
      | rest => String c rest
      end
  end.

(** [path.match(/^\/@([^/]+)$/)]: the group matched, if any. *)
Definition match_profile (path : string) : option string :=
  match path with
  | String c (String c' name) =>
      if Ascii.eqb c "/" && Ascii.eqb c' "@" && negb (occurs "/" name)
         && negb (String.eqb name "")
      then Some name else None
  | _ => None
  end.

Section Url.

(** [new URL(x)]: the host name and the path, [None] when it throws. *)
Variable parse_URL : string → option (string * string).

(** [parseMastodonUrl(inputUrl)]: domain and user name. *)
Definition parseMastodonUrl (inputUrl : string) : option (string * string) :=
  match parse_URL inputUrl with
  | None => None
  | Some (domain, pathname) =>
      match username_of_path pathname with
      | Some name => Some (domain, name)
      | None => None
      end
  end.

(** [parseMisskeyUrl(inputUrl)] has the same text. *)
Definition parseMisskeyUrl (inputUrl : string) : option (string * string) :=
  parseMastodonUrl inputUrl.

(** [parseProfileUrl(raw)] of the probe script: [None] when it throws. *)
Definition parseProfileUrl (raw : string) : option (string * string) :=
  match parse_URL raw with
  | None => None
  | Some (domain, pathname) =>
      match match_profile (strip_slashes pathname) with
      | Some name => Some (domain, name)
      | None => None
      end
  end.

End Url.

(** ** The walker of the Misskey client *)

(** A note: its id, and the rest of the object as the server sent it. *)
Record Note := {
  note_id : string;
  note_body : string
}.

(** The body of a [users/notes] request. *)
Record NotesRequest := {
  nr_userId : string;
  nr_limit : nat;
  nr_includeReplies : bool;
  nr_includeRenotes : bool;
  nr_i : option string;
  nr_untilId : option string
}.

Inductive NotesResponse :=
  | NotesFailed (message : string)   (* not ok, or not an array *)
  | NotesOk (notes : list Note).

(** The options of [getAllNotes] but its callbacks. *)
Record NotesOptions := {
  token : option string;
  limit : nat;
  includeReplies : bool;
  includeRenotes : bool
}.

(** The defaults of the destructuring. *)
Definition default_options : NotesOptions :=
  {| token := None; limit := 100; includeReplies := true;
     includeRenotes := true |}.

(** The callbacks and the server. The call is suspended at each [await]
    only; what [shouldStop()] and [shouldPause()] answer, and what the
    server answers, is given by the number of suspensions passed. *)
Record NotesEnv := {
  shouldStop : nat → bool;
  shouldPause : nat → bool;
  notes_reply : nat → NotesRequest → NotesResponse
}.

(** What can be observed of a call. *)
Inductive NotesEvent :=
  | NotesRequested (r : NotesRequest)
  | NotesAnswered (r : NotesResponse)
  | Progress (totalFetched : nat)    (* [onProgress(totalFetched, null)] *)
  | Polled.                          (* a sleep of 300 ms *)

Inductive NotesResult :=
  | Returned (allNotes : list Note)
  | Rejected (message : string)
  | Pending.                         (* the fuel ran out first *)

(** [while (shouldPause()) { await sleep(300); if (shouldStop()) break; }]:
    the number of suspensions passed when the loop is left, and the sleeps
    taken. *)
Fixpoint pause_poll (env : NotesEnv) (fuel now : nat) : option nat * list NotesEvent :=
  if shouldPause env now then
    match fuel with
    | O => (None, [])
    | S fuel =>
        if shouldStop env (S now) then (Some (S now), [Polled])
        else let '(r, evs) := pause_poll env fuel (S now) in (r, Polled :: evs)
    end
  else (Some now, []).

Definition notes_request (opts : NotesOptions) (userId : string)
    (untilId : option string) : NotesRequest :=
  {| nr_userId := userId; nr_limit := limit opts;
     nr_includeReplies := includeReplies opts;
     nr_includeRenotes := includeRenotes opts;
     nr_i := cursor (token opts);
     nr_untilId := cursor untilId |}.

(** The loop [while (hasMore)] of [getAllNotes], entered with [hasMore]
    set. A request is two suspensions: the answer, and its body. *)
Fixpoint notes_loop (env : NotesEnv) (opts : NotesOptions) (userId : string)
    (fuel now : nat) (untilId : option string) (allNotes : list Note)
    (totalFetched : nat) : NotesResult * list NotesEvent :=
  if shouldStop env now then (Returned allNotes, [])
  else
    match pause_poll env fuel now with
    | (None, evs) => (Pending, evs)
    | (Some now, evs) =>
        if shouldStop env now then (Returned allNotes, evs)
        else
          match fuel with
          | O => (Pending, evs)
          | S fuel =>
              let request := notes_request opts userId untilId in
              let response := notes_reply env now request in
              let evs := evs ++ [NotesRequested request; NotesAnswered response] in
              match response with
              | NotesFailed message => (Rejected message, evs)
              | NotesOk [] => (Returned allNotes, evs)
              | NotesOk notes =>
                  let allNotes := allNotes ++ notes in
                  let totalFetched := (totalFetched + length notes)%nat in
                  let evs := evs ++ [Progress totalFetched] in
                  if (length notes <? limit opts)%nat
                  then (Returned allNotes, evs)
                  else
                    let untilId := note_id <$> last notes in
                    let '(r, evs') :=
                      notes_loop env opts userId fuel (S (S now)) untilId
                        allNotes totalFetched in
                    (r, evs ++ evs')
              end
          end
    end.

(** [getAllNotes(instanceDomain, userId, options)]. *)
Definition getAllNotes (env : NotesEnv) (opts : NotesOptions) (userId : string)
    (fuel : nat) : NotesResult * list NotesEvent :=
  notes_loop env opts userId fuel 0 None [] 0.

Fixpoint notes_requests (evs : list NotesEvent) : list NotesRequest :=
  match evs with
  | [] => []
  | NotesRequested r :: evs => r :: notes_requests evs
  | _ :: evs => notes_requests evs
  end.

(** The pages answered, in order. *)
Fixpoint notes_pages (evs : list NotesEvent) : list (list Note) :=
  match evs with
  | [] => []
  | NotesAnswered (NotesOk notes) :: evs => notes :: notes_pages evs
  | _ :: evs => notes_pages evs
  end.

(** The cursor that the request number [i] of a call carries: none for the
    first, then the id of the last note of the page before. *)
Definition notes_cursor (untilId : option string) (pages : list (list Note))
    (i : nat) : option string :=
  match i with
  | O => untilId
  | S j => pages !! j ≫= λ notes, note_id <$> last notes
  end.

(** ** The emoji map of the Misskey client *)

(** An entry of the emoji list, by the properties read: a missing or
    [null] property is [None]; [aliases] is [Some] when it is an array. *)
Record Emoji := {
  emoji_name : option string;
  emoji_url : option string;
  emoji_aliases : option (list string)
}.

(** [map[key] = value] on the object literal [map]: the own properties of
    the object are a finite map. The key [__proto__] is the accessor of
    [Object.prototype], which ignores a string: no property is created. *)
Definition js_set (key value : string) (map : gmap string string)
  : gmap string string :=
  if String.eqb key "__proto__" then map else <[key := value]> map.

(** The body of the [forEach] of [mergeEmojis], for an entry that may be
    [null]. *)
Definition mergeEmoji (map : gmap string string) (emoji : option Emoji)
  : gmap string string :=
  match emoji with
  | None => map
  | Some e =>
      if negb (truthy (emoji_name e)) || negb (truthy (emoji_url e)) then map
      else
        let name := default "" (emoji_name e) in
        let url := default "" (emoji_url e) in
        let map := js_set name url map in
        let map :=
          if occurs "@" name then
            let short := default "" (head (split "@" name)) in
            if String.eqb short "" then map else js_set short url map
          else map in
        match emoji_aliases e with
        | Some aliases =>
            foldl (λ map alias,
                     if String.eqb alias "" then map else js_set alias url map)
              map aliases
        | None => map
        end
  end.

(** [mergeEmojis(arr)] for an array. *)
Definition mergeEmojis (arr : list (option Emoji)) (map : gmap string string)
  : gmap string string :=
  foldl mergeEmoji map arr.

(** The body of an answer of [/api/emojis]. *)
Inductive EmojiJson :=
  | EmojiList (arr : list (option Emoji))
  | EmojiObject (emojis : option (list (option Emoji)))   (* [Some] for an array *)
  | EmojiOther.

Definition toArray (json : EmojiJson) : list (option Emoji) :=
  match json with
  | EmojiList arr => arr
  | EmojiObject (Some arr) => arr
  | _ => []
  end.

(** What a request for the emojis gives. For the POST request every
    failure, thrown or not, leads to the GET request; for the GET request
    the failure is thrown, with its message. *)
Inductive EmojiReply :=
  | EmojiFailed (message : string)
  | EmojiOk (json : EmojiJson).

Inductive EmojiMethod := POST | GET.

(** [getInstanceEmojis(instanceDomain, options)]: the map or the error
    thrown, and the requests made. *)
Definition getInstanceEmojis (post get : EmojiReply)
  : (string + gmap string string) * list EmojiMethod :=
  match post with
  | EmojiOk json => (inr (mergeEmojis (toArray json) ∅), [POST])
  | EmojiFailed _ =>
      match get with
      | EmojiFailed message => (inl message, [POST; GET])
      | EmojiOk json => (inr (mergeEmojis (toArray json) ∅), [POST; GET])
      end
  end.

(** The keys under which an entry is stored: its name, the part of the name
    before the first [@] when there is one, and its aliases, those that are
    empty or [__proto__] left out; none when the name or the url is
    missing. *)
Definition emoji_keys (e : Emoji) : list string :=
  match emoji_name e, emoji_url e with
  | Some name, Some url =>
      if String.eqb name "" || String.eqb url "" then []
      else
        List.filter (λ k, negb (String.eqb k "") && negb (String.eqb k "__proto__"))
          (name :: (if occurs "@" name then [default "" (head (split "@" name))] else [])
                ++ default [] (emoji_aliases e))
  | _, _ => []
  end.

(** ** The first version of the walk *)

(** What the environment supplies to [handleFetch] around its loop. *)
Record FirstPrelude := {
  (* whether [parseMastodonUrl] accepts the URL field *)
  url_ok : bool;
  (* the account looked up, or the message of the error thrown *)
  looked_up : string + Account;
  (* whether the cache fits the storage quota *)
  cache_fits : bool
}.

(** [statusesUrl] of [handleFetch], by the strings pasted into it: the two
    exclusions are part of the template. Its text is [first_request_url] of
    this record. *)
Definition first_statusesUrl (account : string) (nextMaxId : option string) : Request :=
  {| req_account := account; req_limit := 40;
     req_exclude_replies := true; req_exclude_reblogs := true;
     req_max_id := cursor nextMaxId; req_since_id := None |}.

(** The text of [statusesUrl] in [handleFetch]: the template
    [https://${parsed.domain}/api/v1/accounts/${accountData.id}/statuses?exclude_replies=true&exclude_reblogs=true],
    then [&limit=40], then [&max_id=${nextMaxId}] when the cursor is truthy.
    Nothing is encoded. *)
Definition first_request_url (domain : string) (r : Request) : string :=
  "https://" +:+ domain +:+ "/api/v1/accounts/" +:+ req_account r
    +:+ "/statuses?exclude_replies=true&exclude_reblogs=true"
    +:+ "&limit=" +:+ pretty (req_limit r)
    +:+ match req_max_id r with Some c => "&max_id=" +:+ c | None => "" end.

(** The loop of [handleFetch]: the world, the statuses collected, and the
    error thrown if any; [None] while it is running on the ticks given. *)
Fixpoint first_loop (ticks : list Tick) (account : string)
    (nextMaxId : option string) (collectedStatuses : list Status) (w : World)
  : option (World * list Status * option string) * list Event :=
  match ticks with
  | [] => (None, [])
  | t :: ticks =>
      let request := first_statusesUrl account nextMaxId in
      let response := reply t request in
      let evs := [Requested request; Responded (latency t) response] in
      match response with
      | Failed message => (Some (w, collectedStatuses, Some message), evs)
      | Ok [] => (Some (w, collectedStatuses, None), evs)
      | Ok batch =>
          let collectedStatuses := collectedStatuses ++ batch in
          let w := with_state
                     (with_fetched collectedStatuses (length collectedStatuses)
                        (state w)) w in
          let '(r, evs') :=
            first_loop ticks account (id <$> last batch) collectedStatuses w in
          (r, evs ++ Slept 300%N :: evs')
      end
  end.

(** [handleFetch(e)] of the first version. *)
Definition handleFetch (pre : FirstPrelude) (ticks : list Tick) (w : World)
  : option World * list Event :=
  let s := state w in
  let w := with_state
             {| urlInput := urlInput s; loading := true;
                fetchType := fetchType s; fetchCount := 0%nat; error := None;
                currentAccount := None; allStatuses := []; currentStatus := None;
                viewedIds := viewedIds s;
                fetchConfig := fetchConfig s; displayFilter := displayFilter s;
                isPaused := isPaused s |} w in
  let fail message w :=
    with_state (with_loading false
                  (with_error (Some (message_or message "发生未知错误")) (state w))) w in
  if url_ok pre then
    match looked_up pre with
    | inl message => (Some (fail message w), [])
    | inr accountData =>
        let s := with_collection (Some accountData) (allStatuses (state w)) (state w) in
        let w := loadHistory (acct_id accountData) (with_state s w) in
        match first_loop ticks (acct_id accountData) None [] w with
        | (None, evs) => (None, evs)
        | (Some (w, _, Some message), evs) => (Some (fail message w), evs)
        | (Some (w, [], None), evs) =>
            (Some (fail "该用户没有公开的原创嘟文。" w), evs)
        | (Some (w, collectedStatuses, None), evs) =>
            let w := if cache_fits pre
                     then with_storage
                            {| seen_statuses := seen_statuses (localStorage w);
                               cached_data := <[acct_id accountData := collectedStatuses]>
                                                (cached_data (localStorage w)) |} w
                     else w in
            (Some (with_state (with_loading false (state w)) w), evs)
        end
    end
  else
    (Some (with_state
             (with_loading false
                (with_error
                   (Some "无效的 Mastodon 用户链接。请使用类似 https://alive.bar/@meomo 的格式。")
                   (state w))) w), []).

(** [pickRandomStatus()] of the first version: there is no display
    filter. *)
Definition first_pickRandomStatus (u : nat) (confirmed : bool) (w : World)
  : World * PickSignal :=
  match currentAccount (state w), allStatuses (state w) with
  | None, _ | _, [] => (w, NoSignal)
  | Some a, _ :: _ =>
      let availableStatuses :=
        filter (λ s, id s ∉ viewedIds (state w)) (allStatuses (state w)) in
      match availableStatuses with
      | [] => (if confirmed then clearHistory w else w, Exhausted)
      | first :: _ =>
          let randomIndex := (u mod length availableStatuses)%nat in
          let selected := nth randomIndex availableStatuses first in
          let newViewedIds := {[ id selected ]} ∪ viewedIds (state w) in
          let w := with_state (with_view (Some selected) newViewedIds (state w)) w in
          (saveHistory (acct_id a) newViewedIds w, Picked selected)
      end
  end.

(** A tick during which no button is pressed while the walker is
    suspended in a request or in the delay between two pages. *)
Definition untouched (t : Tick) : Prop := on_fetch t = [] ∧ on_delay t = [].

(** The fetch configuration under which the walker asks what the first
    version asked: everything, replies and boosts left out. *)
Definition first_config (cfg : FetchConfig) : Prop :=
  mode cfg = all ∧ excludeReplies cfg = true ∧ excludeReblogs cfg = true.

(** What the two versions of the walk can be compared on. *)
Definition same_result (w1 w2 : World) : Prop :=
  allStatuses (state w1) = allStatuses (state w2) ∧
  fetchCount (state w1) = fetchCount (state w2) ∧
  currentAccount (state w1) = currentAccount (state w2) ∧
  currentStatus (state w1) = currentStatus (state w2) ∧
  viewedIds (state w1) = viewedIds (state w2) ∧
  (error (state w1) = None ↔ error (state w2) = None) ∧
  localStorage w1 = localStorage w2.

(** ** The image overlay *)

(** A media attachment, as the overlay reads it. *)
Record Media := {
  media_id : string;
  media_type : string;
  media_url : string;
  media_description : option string
}.

Record Image := {
  image_url : string;
  image_description : option string
}.

(** [fullscreenImageState]: [currentIndex] is [None] for [null]. *)
Record Fullscreen := {
  currentIndex : option Z;
  images : list Image
}.

Definition closed : Fullscreen := {| currentIndex := None; images := [] |}.

Definition is_image (m : Media) : bool := String.eqb (media_type m) "image".

(** [imageAttachments.findIndex(img => img.id === media.id)]. *)
Fixpoint findIndex (i : string) (l : list Media) : Z :=
  match l with
  | [] => -1
  | m :: l =>
      if String.eqb (media_id m) i then 0
      else let r := findIndex i l in if r <? 0 then -1 else r + 1
  end.

(** The [data-image-index] that [renderStatusCard] gives to a medium. *)
Definition imageIndex (displayMedia : list Media) (media : Media) : Z :=
  if is_image media
  then findIndex (media_id media) (List.filter is_image displayMedia)
  else -1.

(** [x || null]. *)
Definition or_null (x : option string) : option string :=
  if truthy x then x else None.

(** [{ url: img.url, description: img.description || null }]. *)
Definition to_image (img : Media) : Image :=
  {| image_url := media_url img;
     image_description := or_null (media_description img) |}.

(** The click on an image, with the index read from its attribute
    ([None] when [parseInt] gives [NaN]) and the media of the status on
    display ([None] when nothing is displayed). *)
Definition open_image (index : option Z) (shown : option (list Media))
    (g : Fullscreen) : Fullscreen :=
  match index, shown with
  | Some i, Some mediaAttachments =>
      match List.filter is_image mediaAttachments with
      | [] => g
      | imageAttachments =>
          {| currentIndex := Some i;
             images := to_image <$> imageAttachments |}
      end
  | _, _ => g
  end.

Inductive Key := ArrowLeft | ArrowRight | Escape | OtherKey.

(** [keyboardHandler(e)]. *)
Definition keyboardHandler (key : Key) (g : Fullscreen) : Fullscreen :=
  match currentIndex g with
  | None => g
  | Some i =>
      match key with
      | ArrowLeft =>
          if 0 <? i then {| currentIndex := Some (i - 1); images := images g |}
          else g
      | ArrowRight =>
          if i <? Z.of_nat (length (images g)) - 1
          then {| currentIndex := Some (i + 1); images := images g |}
          else g
      | Escape => closed
      | OtherKey => g
      end
  end.

(** The handlers of the buttons [prev-image] and [next-image]. In their
    comparisons and in [++] a [null] index counts as 0. *)
Definition prev_image (g : Fullscreen) : Fullscreen :=
  match currentIndex g with
  | Some i =>
      if 0 <? i then {| currentIndex := Some (i - 1); images := images g |}
      else g
  | None => g
  end.

Definition next_image (g : Fullscreen) : Fullscreen :=
  let i := default 0 (currentIndex g) in
  if i <? Z.of_nat (length (images g)) - 1
  then {| currentIndex := Some (i + 1); images := images g |}
  else g.

(** What happens to the overlay: a key, a click on an image of the card
    of the post on display, whose media are [displayMedia], and the clicks
    on the buttons of the overlay. [returnToHome] closes it as [ClickClose]
    does. *)
Inductive OverlayEvent :=
  | PressKey (key : Key)
  | ClickImage (displayMedia : list Media) (media : Media)
  | ClickPrev
  | ClickNext
  | ClickClose.

Definition overlay_step (e : OverlayEvent) (g : Fullscreen) : Fullscreen :=
  match e with
  | PressKey key => keyboardHandler key g
  | ClickImage displayMedia media =>
      open_image (Some (imageIndex displayMedia media)) (Some displayMedia) g
  | ClickPrev => prev_image g
  | ClickNext => next_image g
  | ClickClose => closed
  end.

(** The image on display, if the overlay is open: [images[currentIndex]]. *)
Definition displayed_image (g : Fullscreen) : option (option Image) :=
  match currentIndex g with
  | None => None
  | Some i => Some (if i <? 0 then None else images g !! Z.to_nat i)
  end.

(** A run of the overlay. *)
Definition overlay_run (evs : list OverlayEvent) (g : Fullscreen) : Fullscreen :=
  foldl (λ g e, overlay_step e g) g evs.

(** An image can only be clicked where [renderStatusCard] has drawn it: it
    is one of the media on display, and of type image. *)
Definition drawn (e : OverlayEvent) : Prop :=
  match e with
  | ClickImage displayMedia media => media ∈ displayMedia ∧ is_image media = true
  | _ => True
  end.

(** The overlay is closed, or its index points into its images. *)
Definition in_range (g : Fullscreen) : Prop :=
  match currentIndex g with
  | None => images g = []
  | Some i => 0 ≤ i < Z.of_nat (length (images g))
  end.

(** ** Reading a walk further *)

(** What a walk leaves alone. *)
Definition same_view (w w' : World) : Prop :=
  viewedIds (state w') = viewedIds (state w) ∧
  currentAccount (state w') = currentAccount (state w) ∧
  currentStatus (state w') = currentStatus (state w) ∧
  displayFilter (state w') = displayFilter (state w) ∧
  fetchConfig (state w') = fetchConfig (state w) ∧
  urlInput (state w') = urlInput (state w) ∧
  error (state w') = error (state w) ∧
  localStorage w' = localStorage w.

(** How a walk changes the collection: it adds [added], in front for a newer
    walk and at the back otherwise, and counts what it adds. *)
Definition grown_by (added : list Status) (k k' : Walk) : Prop :=
  allStatuses (state (world k'))
  = (if is_newer (type k) then added ++ allStatuses (state (world k))
     else allStatuses (state (world k)) ++ added) ∧
  sessionCollectedCount k' = (sessionCollectedCount k + length added)%nat ∧
  (fetchCount (state (world k)) = sessionCollectedCount k →
   fetchCount (state (world k')) = sessionCollectedCount k').

(** The query of a walk but its cursor. *)
Definition same_query (k : Walk) (r : Request) : Prop :=
  req_account r = accountId k ∧ req_limit r = 40%nat ∧
  req_exclude_replies r = excludeReplies (fetchConfig (state (world k))) ∧
  req_exclude_reblogs r = excludeReblogs (fetchConfig (state (world k))) ∧
  req_since_id r = cursor (sinceId k).

(** The cursor after a trace: the id of the last item of the last non-empty
    page received, [prev] when there is none. *)
Fixpoint cursor_after (prev : option string) (evs : list Event) : option string :=
  match evs with
  | [] => prev
  | Responded _ (Ok ((_ :: _) as batch)) :: evs => cursor_after (id <$> last batch) evs
  | _ :: evs => cursor_after prev evs
  end.

(** Whether each request of a trace has, as the string pasted behind
    [&max_id=], the id of the last item received before it: [prev] is the
    cursor at the start. *)
Fixpoint chained (prev : option string) (evs : list Event) : bool :=
  match evs with
  | [] => true
  | Requested r :: evs =>
      bool_decide (req_max_id r = cursor prev) && chained prev evs
  | Responded _ (Ok ((_ :: _) as batch)) :: evs => chained (id <$> last batch) evs
  | _ :: evs => chained prev evs
  end.

(** The requests of a trace, each with the cursor at the time it is sent:
    the id of the last item of the last non-empty page received before it,
    [prev] when there is none. *)
Fixpoint requests_at (prev : option string) (evs : list Event)
  : list (option string * Request) :=
  match evs with
  | [] => []
  | Requested r :: evs => (prev, r) :: requests_at prev evs
  | Responded _ (Ok ((_ :: _) as batch)) :: evs => requests_at (id <$> last batch) evs
  | _ :: evs => requests_at prev evs
  end.

(** A session in which the walker and the buttons agree on the pause. *)
Definition flags_agree (w : World) : Prop :=
  pausedRef w = isPaused (state w).

(** ** The account lookup of an initial walk *)



(** What can be observed of step 1, in order: the URL of a request sent, a
    suspension, a button pressed. *)
Inductive LookupEvent :=
  | Fetched (url : string)
  | Awaited (ms : N)
  | Pressed (a : UserAction).






(** The buttons pressed in a trace of step 1. *)
Fixpoint pressed (evs : list LookupEvent) : list UserAction :=
  match evs with
  | [] => []
  | Pressed a :: evs => a :: pressed evs
  | _ :: evs => pressed evs
  end.




(** More sample data. *)
Module More.

Definition reply_to (i : string) (t : Z) : Status :=
  {| id := i; created_at := Ms t; in_reply_to_id := Some "77"; reblog := None;
     account := Some Sample.alice |}.

Definition boost_of (i : string) (t : Z) (replied : option string) : Status :=
  {| id := i; created_at := Ms 9000; in_reply_to_id := None;
     reblog := Some {| rb_id := "b" +:+ i; rb_created_at := Ms t;
                       rb_in_reply_to_id := replied |};
     account := Some Sample.alice |}.

Definition note (i : string) : Note := {| note_id := i; note_body := "{}" |}.

(** A Misskey server that holds [notes], newest first, nobody pausing or
    stopping. *)
Fixpoint notes_after (c : string) (notes : list Note) : list Note :=
  match notes with
  | [] => []
  | n :: notes => if String.eqb (note_id n) c then notes else notes_after c notes
  end.

Definition notes_server (notes : list Note) : NotesEnv :=
  {| shouldStop := λ _, false; shouldPause := λ _, false;
     notes_reply := λ _ r,
       NotesOk (take (nr_limit r)
                  match nr_untilId r with
                  | Some c => notes_after c notes
                  | None => notes
                  end) |}.

Definition two_by_two : NotesOptions :=
  {| token := None; limit := 2; includeReplies := true; includeRenotes := true |}.

(** A server that answers every request with a full page. *)
Definition endless : NotesEnv :=
  {| shouldStop := λ _, false; shouldPause := λ _, false;
     notes_reply := λ _ _, NotesOk [note "9"; note "8"] |}.


Definition uncached : Prelude :=
  {| resolve := inr Sample.alice; domain_ok := true; early := [];
     quota_ok := false |}.

Definition first_found : FirstPrelude :=
  {| url_ok := true; looked_up := inr Sample.alice; cache_fits := false |}.

Definition blob : Emoji :=
  {| emoji_name := Some "blob@remote.example";
     emoji_url := Some "https://example.social/blob.png";
     emoji_aliases := Some ["b"; ""] |}.

Definition cat : Emoji :=
  {| emoji_name := Some "cat"; emoji_url := Some "https://example.social/cat.png";
     emoji_aliases := None |}.

Definition picture (i : string) : Media :=
  {| media_id := i; media_type := "image"; media_url := "https://example.social/" +:+ i;
     media_description := None |}.

Definition video (i : string) : Media :=
  {| media_id := i; media_type := "video"; media_url := "https://example.social/" +:+ i;
     media_description := None |}.

(** [new URL] on the two links used below. *)
Definition sample_URL (x : string) : option (string * string) :=
  if String.eqb x "https://example.social/@alice" then Some ("example.social", "/@alice")
  else if String.eqb x "https://example.social/users/alice/statuses/3"
  then Some ("example.social", "/users/alice/statuses/3")
  else None.


End More.

(** * Properties *)

(** ** The sampler *)

Section Sampler.

Implicit Types (w : World) (s : Status) (u : nat).

(** A successful pick returns a post of the filtered pool that was not
    viewed, and adds its id to the viewed set. *)
Lemma pick_picked u c w w' s :
  pickRandomStatus u c w = (w', Picked s) →
  s ∈ display_pool (displayFilter (state w)) (allStatuses (state w)) ∧
  (id s ∉ viewedIds (state w)) ∧
  viewedIds (state w') = {[ id s ]} ∪ viewedIds (state w).
Proof.
  unfold pickRandomStatus.
  destruct (currentAccount (state w)) as [a|]; [|by intros [= _ ?]].
  destruct (allStatuses (state w)) as [|s0 l] eqn:El; [by intros [= _ ?]|].
  rewrite <- El.
  set (pool := display_pool _ _).
  destruct pool as [|p0 pool'] eqn:Ep; [by intros [= _ ?]|].
  rewrite <- Ep.
  destruct (filter _ pool) as [|f0 av] eqn:Ea.
  { destruct c; by intros [= _ ?]. }
  rewrite <- Ea. intros [= <- <-].
  set (av0 := filter _ pool) in *.
  assert (Hin : nth (u mod length av0) av0 f0 ∈ av0).
  { apply list_elem_of_In, nth_In, Nat.mod_upper_bound. rewrite Ea. simpl. lia. }
  apply list_elem_of_filter in Hin as [Hnv Hp].
  split; [exact Hp|]. split; [exact Hnv|]. reflexivity.
Qed.

(** A pick that returns no post, the reset declined, leaves the world as
    it is. *)
Lemma pick_not_picked u w w' sig :
  pickRandomStatus u false w = (w', sig) →
  returned sig = [] → w' = w.
Proof.
  unfold pickRandomStatus.
  destruct (currentAccount (state w)) as [a|]; [|by intros [= <- _]].
  destruct (allStatuses (state w)) as [|s0 l]; [by intros [= <- _]|].
  destruct (display_pool _ _) as [|p0 pool']; [by intros [= <- _]|].
  destruct (filter _ _) as [|f0 av]; [by intros [= <- _]|].
  intros [= _ <-]. discriminate.
Qed.

(** A successful pick is on display, and is saved under the id of the
    account. *)
Lemma pick_saves u c w w' s :
  pickRandomStatus u c w = (w', Picked s) →
  ∃ a, currentAccount (state w) = Some a ∧
       currentAccount (state w') = Some a ∧
       currentStatus (state w') = Some s ∧
       allStatuses (state w') = allStatuses (state w) ∧
       seen_statuses (localStorage w') !! acct_id a
       = Some (elements (viewedIds (state w'))).
Proof.
  unfold pickRandomStatus.
  destruct (currentAccount (state w)) as [a|] eqn:Ea; [|by intros [= _ ?]].
  destruct (allStatuses (state w)) as [|s0 l] eqn:El; [by intros [= _ ?]|].
  rewrite <- El.
  destruct (display_pool _ _) as [|p0 pool']; [by intros [= _ ?]|].
  destruct (filter _ _) as [|f0 av]; [destruct c; by intros [= _ ?]|].
  intros [= <- <-]. exists a. simpl. rewrite lookup_insert_eq. by rewrite Ea.
Qed.

(** A filter that shows everything: the pool is the collection. This is
    the sampler of the first version of the application, which had no
    display filter. *)
Lemma display_pool_no_filter (f : DisplayFilter) (l : list Status) :
  showReplies f = true → showReblogs f = true →
  startDate f = None → endDate f = None →
  display_pool f l = l.
Proof. unfold display_pool. by intros -> -> -> ->. Qed.

End Sampler.

Section Sessions.

Implicit Types (w : World) (acts : list Action) (picked : list Status).

Lemma loadHistory_stored accountId w :
  viewedIds (state (loadHistory accountId w)) = stored accountId w ∧
  currentAccount (state (loadHistory accountId w)) = currentAccount (state w) ∧
  localStorage (loadHistory accountId w) = localStorage w.
Proof. by unfold loadHistory, stored. Qed.

(** Every loader leaves the account current with its history loaded, and
    the store as it was. *)
Lemma enter_current (a : Account) (l : list Status) w :
  current a (enter a l w) ∧
  stored (acct_id a) (enter a l w) = stored (acct_id a) w.
Proof. by unfold current, enter, loadHistory, stored. Qed.

(** So does a reset, with nothing stored for the account. *)
Lemma clearHistory_current (a : Account) w :
  currentAccount (state w) = Some a →
  current a (clearHistory w) ∧ stored (acct_id a) (clearHistory w) = ∅.
Proof.
  intros Ha. unfold current, clearHistory, stored, saveHistory. rewrite Ha. simpl.
  by rewrite Ha, lookup_insert_eq, elements_empty.
Qed.

(** [autoLoadCachedData] enters the account of the first cached post. *)
Lemma autoLoadCachedData_enters (key : string) (keys : list string) w
    (first : Status) (rest : list Status) (a : Account) :
  cached_data (localStorage w) !! key = Some (first :: rest) →
  account first = Some a →
  autoLoadCachedData (key :: keys) w = enter a (first :: rest) w.
Proof. intros Hc Ha. unfold autoLoadCachedData. by rewrite Hc, Ha. Qed.

(** So does every import that succeeds: a raw export and an archive load the
    stored history, a backup with progress writes the viewed set of the file
    to the store. *)
Lemma load_snapshot_current
    (parser : list Activity → string + (list Status * option Account))
    (content : FileContent) (w w' : World) :
  load_snapshot parser content w = inr w' → ∃ a, current a w'.
Proof.
  unfold load_snapshot. destruct content as [message|jsonContent]; [done|].
  destruct (detect_format parser jsonContent)
    as [message|[[statuses [a|]] [ids|]]]; try done;
    intros [= <-]; exists a; unfold current, stored, saveHistory, loadHistory;
    destruct (String.eqb (url a) ""); simpl;
    rewrite ?lookup_insert_eq, ?list_to_set_elements_L; done.
Qed.

(** So does step 1 of an initial walk. *)
Lemma find_account_current (pre : Prelude) (w w' : World) (account : string) :
  find_account initial pre w = (w', inr account) →
  ∃ a, resolve pre = inr a ∧ account = acct_id a ∧ current a w'.
Proof.
  unfold find_account. destruct (resolve pre) as [message|a]; [done|].
  intros [= <- <-]. exists a. by unfold current, stored, loadHistory.
Qed.

(** One action in a session in which the account [a] is current: the
    account stays current with its history loaded, and the stored history
    gains the id of the post returned, which it did not hold. *)
Lemma act_current (a : Account) (x : Action) w :
  current a w →
  current a (act x w).1 ∧
  stored (acct_id a) (act x w).1
  = list_to_set (id <$> returned (act x w).2) ∪ stored (acct_id a) w ∧
  ∀ i, i ∈ id <$> returned (act x w).2 → i ∉ stored (acct_id a) w.
Proof.
  intros [Ha Hv]. destruct x as [u|l|f|l]; simpl.
  - destruct (pickRandomStatus u false w) as [w1 sig] eqn:E. simpl.
    destruct sig as [| | |s];
      try (apply pick_not_picked in E as ->; [|done]; simpl;
           split; [done|]; split; [by rewrite (left_id_L ∅ (∪))|];
           intros i Hi; by apply not_elem_of_nil in Hi).
    destruct (pick_saves _ _ _ _ _ E) as (a' & Ha' & Ha1 & _ & _ & Hseen).
    rewrite Ha in Ha'. injection Ha' as <-.
    apply pick_picked in E as (_ & Hnv & Hv1).
    assert (Hs1 : stored (acct_id a) w1 = viewedIds (state w1)).
    { unfold stored. by rewrite Hseen, list_to_set_elements_L. }
    split; [by split|]. simpl. split.
    + rewrite Hs1, Hv1, Hv. by rewrite (right_id_L ∅ (∪)).
    + intros i Hi. apply list_elem_of_singleton in Hi as ->. by rewrite <- Hv.
  - split; [by split|]. split; [by rewrite (left_id_L ∅ (∪))|].
    intros i Hi. by apply not_elem_of_nil in Hi.
  - split; [by split|]. split; [by rewrite (left_id_L ∅ (∪))|].
    intros i Hi. by apply not_elem_of_nil in Hi.
  - rewrite Ha. simpl. destruct (enter_current a l (returnToHome w)) as [Hc Hs].
    split; [exact Hc|]. split; [by rewrite Hs, (left_id_L ∅ (∪))|].
    intros i Hi. by apply not_elem_of_nil in Hi.
Qed.

(** The ids returned in a session without reset are pairwise distinct, were
    not in the stored history, and are what the stored history gains; the
    account stays current with its history loaded. *)
Lemma session_current (a : Account) acts : ∀ w,
  current a w →
  NoDup (id <$> (session acts w).2) ∧
  (∀ i, i ∈ id <$> (session acts w).2 → i ∉ stored (acct_id a) w) ∧
  stored (acct_id a) (session acts w).1
  = list_to_set (id <$> (session acts w).2) ∪ stored (acct_id a) w ∧
  current a (session acts w).1.
Proof.
  induction acts as [|x acts IH]; intros w Hc; simpl.
  { split; [constructor|]. split; [intros i Hi; by apply not_elem_of_nil in Hi|].
    split; [by rewrite (left_id_L ∅ (∪))|done]. }
  destruct (act_current a x w Hc) as (Hc1 & Hs1 & Hfresh).
  destruct (act x w) as [w1 sig]. simpl in Hc1, Hs1, Hfresh.
  destruct (IH w1 Hc1) as (Hnd & Hnew & Hfin & Hc').
  destruct (session acts w1) as [w' picked]. simpl in *.
  rewrite fmap_app, list_to_set_app_L.
  split; [|split; [|split; [|exact Hc']]].
  - apply NoDup_app. split; [|split; [|exact Hnd]].
    + destruct sig; simpl; try constructor; [apply not_elem_of_nil|constructor].
    + intros i Hi Hi'. apply Hnew in Hi'. apply Hi'. rewrite Hs1.
      apply elem_of_union_l. by apply elem_of_list_to_set.
  - intros i Hi. apply elem_of_app in Hi as [Hi|Hi]; [by apply Hfresh|].
    apply Hnew in Hi. intros Hin. apply Hi. rewrite Hs1. by apply elem_of_union_r.
  - rewrite Hfin, Hs1. by rewrite (assoc_L (∪)), (comm_L (∪) (list_to_set (id <$> picked))).
Qed.

End Sessions.

(** C1. The viewed set of an account is the one kept in the store under the
    id of the account: every loader reads it from there ([enter]) and a
    reset empties it there ([clearHistory]). In a session that starts with
    the account current and its history loaded, and in which picks, older and
    newer walks, changes of the display filter and reloads follow one another
    with no reset: the posts returned by the successful picks have pairwise
    distinct ids, none of which was in the stored set before; the stored set
    is the one of before with these ids added, so that it holds [k] more
    ids after [k] successful picks, and exactly [k] when the count starts at
    a reset or with an account for which nothing is stored; the viewed set of
    the session is the stored one; and no later pick, in this session or
    after the account is entered again, returns a post with one of these
    ids. *)
Theorem no_repeat_until_reset (acts : list Action) (w : World) (a : Account) :
  current a w →
  let w' := (session acts w).1 in
  let picked := (session acts w).2 in
  let before := stored (acct_id a) w in
  NoDup (id <$> picked) ∧
  (∀ s, s ∈ picked → id s ∉ before) ∧
  stored (acct_id a) w' = list_to_set (id <$> picked) ∪ before ∧
  viewedIds (state w') = stored (acct_id a) w' ∧
  size (stored (acct_id a) w') = (size before + length picked)%nat ∧
  (before = ∅ →
   stored (acct_id a) w' = list_to_set (id <$> picked) ∧
   size (stored (acct_id a) w') = length picked) ∧
  ∀ (statuses : list Status) (u : nat) (confirmed : bool) (w'' : World)
    (s : Status),
    pickRandomStatus u confirmed w' = (w'', Picked s) ∨
    pickRandomStatus u confirmed (enter a statuses (returnToHome w'))
    = (w'', Picked s) →
    id s ∉ id <$> picked.
Proof.
  intros Hc w' picked before.
  destruct (session_current a acts w Hc) as (Hnd & Hnew & Hfin & Ha' & Hv').
  fold w' picked before in Hnd, Hnew, Hfin, Ha', Hv'.
  assert (Hsize : size (stored (acct_id a) w') = (size before + length picked)%nat).
  { rewrite Hfin, size_union.
    - rewrite size_list_to_set by exact Hnd. rewrite length_fmap. lia.
    - intros i Hi Hb. apply elem_of_list_to_set in Hi. by apply (Hnew i). }
  split_and!; try done.
  - intros s Hs. apply Hnew. by apply list_elem_of_fmap_2.
  - intros Hempty. rewrite Hsize, Hfin, Hempty, size_empty.
    by rewrite (right_id_L ∅ (∪)).
  - intros statuses u c w'' s [Hpick|Hpick] Hin;
      apply pick_picked in Hpick as (_ & Hnv & _); apply Hnv.
    + rewrite Hv', Hfin. apply elem_of_union_l. by apply elem_of_list_to_set.
    + destruct (enter_current a statuses (returnToHome w')) as [[_ ->] ->].
      change (stored (acct_id a) (returnToHome w')) with (stored (acct_id a) w').
      rewrite Hfin. apply elem_of_union_l. by apply elem_of_list_to_set.
Qed.

Lemma no_repeat_until_reset_witness :
  let w := clearHistory
             (Sample.world_of all [Sample.p1; Sample.p2; Sample.p3] {[ "2" ]}) in
  let acts := [Pick 4; Filter Sample.no_filter; Pick 7;
               Reload [Sample.p3; Sample.p2; Sample.p1]; Pick 0; Pick 2] in
  length (session acts w).2 = 3%nat ∧
  size (stored "109" (session acts w).1) = length (session acts w).2.
Proof.
  split; [vm_compute; reflexivity|].
  refine (proj2 (proj1 (proj2 (proj2 (proj2 (proj2 (proj2
            (no_repeat_until_reset
               [Pick 4; Filter Sample.no_filter; Pick 7;
                Reload [Sample.p3; Sample.p2; Sample.p1]; Pick 0; Pick 2]
               (clearHistory
                  (Sample.world_of all [Sample.p1; Sample.p2; Sample.p3] {[ "2" ]}))
               Sample.alice _)))))) _)).
  - split; reflexivity.
  - reflexivity.
Defined.

(** C10. Without a current account, or with an empty collection, a pick is a
    no-op: nothing is signalled, and the viewed set, the displayed post and
    the persistent store (the whole world) stay as they are. *)
Theorem pick_without_data_is_noop (u : nat) (confirmed : bool) (w : World) :
  currentAccount (state w) = None ∨ allStatuses (state w) = [] →
  pickRandomStatus u confirmed w = (w, NoSignal).
Proof.
  unfold pickRandomStatus. intros [-> | ->]; [reflexivity|].
  by destruct (currentAccount (state w)).
Qed.

Lemma pick_without_data_is_noop_witness :
  pickRandomStatus 3 true (Sample.world_of all [] {[ "3" ]})
  = (Sample.world_of all [] {[ "3" ]}, NoSignal).
Proof.
  apply (pick_without_data_is_noop 3 true (Sample.world_of all [] {[ "3" ]})).
  right. reflexivity.
Defined.

(** The signals of a pick on a loaded collection, case by case. *)
Lemma pick_loaded (u : nat) (confirmed : bool) (w : World) :
  is_Some (currentAccount (state w)) →
  allStatuses (state w) ≠ [] →
  let pool := display_pool (displayFilter (state w)) (allStatuses (state w)) in
  let available := filter (λ s, id s ∉ viewedIds (state w)) pool in
  (pool = [] ∧ pickRandomStatus u confirmed w = (w, EmptyPool)) ∨
  (pool ≠ [] ∧ available = [] ∧
   pickRandomStatus u confirmed w
   = (if confirmed then clearHistory w else w, Exhausted)) ∨
  (pool ≠ [] ∧ available ≠ [] ∧
   ∃ s, (pickRandomStatus u confirmed w).2 = Picked s).
Proof.
  intros [a Ha] Hne. cbv zeta. unfold pickRandomStatus.
  rewrite Ha. destruct (allStatuses (state w)) as [|s0 l] eqn:El; [done|].
  rewrite <- El.
  destruct (display_pool _ _) as [|p0 pool']; [by left|]. right.
  destruct (filter _ _) as [|f0 av]; [by left|]. right.
  split; [done|]. split; [done|]. by eexists.
Qed.

Lemma filter_nil_iff {A} (P : A → Prop) `{!∀ x, Decision (P x)} (l : list A) :
  filter P l = [] ↔ ∀ x, x ∈ l → ¬ P x.
Proof.
  split.
  - intros E x Hx HP.
    assert (Hin : x ∈ filter P l) by (by apply list_elem_of_filter).
    rewrite E in Hin. by apply not_elem_of_nil in Hin.
  - intros Hall. destruct (filter P l) as [|y r] eqn:E; [done|].
    assert (Hy : y ∈ filter P l) by (rewrite E; left).
    apply list_elem_of_filter in Hy as [HP Hy]. by destruct (Hall y Hy).
Qed.

(** C8, as the code has it. On a loaded collection a pick signals
    [EmptyPool] exactly when nothing passes the display filter, and
    [Exhausted] exactly when the filtered pool is non-empty and all its ids
    are viewed. [EmptyPool] leaves the world as it is. [Exhausted] offers a
    reset in the same call: the world is unchanged when the user declines,
    and is the one [clearHistory] leaves (viewed set emptied) when the user
    accepts. *)
Theorem sampler_signals (u : nat) (confirmed : bool) (w : World) :
  is_Some (currentAccount (state w)) →
  allStatuses (state w) ≠ [] →
  let pool := display_pool (displayFilter (state w)) (allStatuses (state w)) in
  let w' := (pickRandomStatus u confirmed w).1 in
  let sig := (pickRandomStatus u confirmed w).2 in
  (sig = EmptyPool ↔ pool = []) ∧
  (sig = Exhausted ↔ pool ≠ [] ∧ ∀ s, s ∈ pool → id s ∈ viewedIds (state w)) ∧
  (sig = EmptyPool → w' = w) ∧
  (sig = Exhausted → w' = if confirmed then clearHistory w else w) ∧
  (sig = Exhausted → confirmed = false →
     viewedIds (state w') = viewedIds (state w)) ∧
  (sig = Exhausted → confirmed = true → viewedIds (state w') = ∅).
Proof.
  intros Ha Hne pool w' sig.
  assert (Hav : filter (λ s, id s ∉ viewedIds (state w)) pool = [] ↔
                ∀ s, s ∈ pool → id s ∈ viewedIds (state w)).
  { rewrite filter_nil_iff. apply forall_proper; intros s.
    split; intros H Hs; specialize (H Hs); [|tauto].
    by destruct (decide (id s ∈ viewedIds (state w))). }
  destruct (pick_loaded u confirmed w Ha Hne)
    as [(Hp & E) | [(Hp & Hv & E) | (Hp & Hv & s & E)]];
    fold pool in Hp; try fold pool in Hv; subst w' sig.
  - rewrite E. simpl.
    split; [done|]. split; [split; [done | by intros [? _]]|].
    split; [done|]. split; [done|]. split; done.
  - rewrite E. simpl. pose proof (proj1 Hav Hv) as Hall.
    split; [split; [done | by intros ?]|].
    split; [split; [done | done]|].
    split; [done|]. split; [done|].
    split; [by intros _ ->|]. intros _ ->.
    destruct Ha as [a Ha]. unfold clearHistory. by rewrite Ha.
  - rewrite E.
    split; [split; [done | by intros ?]|].
    split; [split; [done | intros [_ Hall]; by apply (proj2 Hav) in Hall]|].
    split; [done|]. split; [done|]. split; done.
Qed.

Lemma sampler_signals_witness :
  let w := Sample.world_of all [Sample.p1] {[ "3" ]} in
  (pickRandomStatus 0 false w).2 = Exhausted ∧
  viewedIds (state (pickRandomStatus 0 false w).1) = viewedIds (state w).
Proof.
  split; [reflexivity|].
  apply (sampler_signals 0 false (Sample.world_of all [Sample.p1] {[ "3" ]}));
    [by eexists | discriminate | reflexivity | reflexivity].
Defined.

(** C8, counterexample: everything in the pool is viewed and the user
    accepts the reset that comes with [Exhausted]; the viewed set is emptied
    by the call. *)
Lemma sampler_signals_keep_viewed_fails : ¬ sampler_signals_keep_viewed.
Proof.
  intros H.
  destruct (H 0%nat true (Sample.world_of all [Sample.p1] {[ "3" ]}))
    as (_ & _ & Hkeep); [by eexists | discriminate |].
  specialize (Hkeep (or_intror eq_refl)).
  change (∅ = ({[ "3" ]} : gset string)) in Hkeep.
  assert (Hin : "3" ∈ (∅ : gset string)) by (rewrite Hkeep; by apply elem_of_singleton).
  by apply not_elem_of_empty in Hin.
Qed.

(** ** Snapshots *)

Section Snapshots.

Variable parser : list Activity → string + (list Status * option Account).

(** A backup document is recognized as such, with its three parts. *)
Lemma detect_backup now a statuses (v : gset string) :
  detect_format parser
    (JObject {| j_type := Some backup_marker; j_timestamp := Some now;
                j_orderedItems := None; j_account := Some a;
                j_statuses := Some statuses; j_viewedIds := elements v |})
  = inr (statuses, Some a, Some v).
Proof.
  unfold detect_format. cbn [j_type j_orderedItems j_statuses j_account j_viewedIds].
  rewrite (bool_decide_eq_false_2 (Some backup_marker = Some "OrderedCollection"))
    by discriminate.
  rewrite (bool_decide_eq_true_2 (Some backup_marker = Some backup_marker))
    by reflexivity.
  by rewrite list_to_set_elements_L.
Qed.

(** An import that fails on the shape of the document: the error is
    reported after the session was cleared. *)
Lemma import_error message j w :
  detect_format parser j = inl message →
  handleFileUpload parser (JsonFile (Parsed j)) w
  = with_state
      {| urlInput := urlInput (state w); loading := false;
         fetchType := fetchType (state w); fetchCount := fetchCount (state w);
         error := Some (message_or message "解析文件失败");
         currentAccount := None; allStatuses := []; currentStatus := None;
         viewedIds := viewedIds (state w);
         fetchConfig := fetchConfig (state w);
         displayFilter := displayFilter (state w);
         isPaused := isPaused (state w) |} w.
Proof.
  intros E. unfold handleFileUpload, load_snapshot. by rewrite E.
Qed.

End Snapshots.

(** C6. With a current account and a non-empty collection,
    [handleDownloadBackup] writes a backup document, and importing that
    document, into any session, restores the account, the collection and the
    viewed set that were exported, without error. *)
Theorem backup_roundtrip
    (parser : list Activity → string + (list Status * option Account))
    (now : string) (w w0 : World) :
  is_Some (currentAccount (state w)) →
  allStatuses (state w) ≠ [] →
  ∃ j, handleDownloadBackup now w = Some j ∧
       let w' := handleFileUpload parser (JsonFile (Parsed j)) w0 in
       currentAccount (state w') = currentAccount (state w) ∧
       allStatuses (state w') = allStatuses (state w) ∧
       viewedIds (state w') = viewedIds (state w) ∧
       error (state w') = None.
Proof.
  intros [a Ha] Hne. unfold handleDownloadBackup. rewrite Ha.
  destruct (allStatuses (state w)) as [|s0 l] eqn:El; [done|].
  eexists. split; [reflexivity|].
  unfold handleFileUpload, load_snapshot. rewrite detect_backup.
  by destruct (String.eqb (url a) "").
Qed.

Lemma backup_roundtrip_witness :
  let w := Sample.world_of all [Sample.p1; Sample.p2] {[ "2" ]} in
  ∃ j, handleDownloadBackup "2024-05-01T10:00:00.000Z" w = Some j ∧
       viewedIds (state (handleFileUpload Sample.no_parser (JsonFile (Parsed j))
                           (Sample.world_of limit_count [] ∅)))
       = viewedIds (state w).
Proof.
  destruct (backup_roundtrip Sample.no_parser "2024-05-01T10:00:00.000Z"
              (Sample.world_of all [Sample.p1; Sample.p2] {[ "2" ]})
              (Sample.world_of limit_count [] ∅))
    as (j & Hj & _ & _ & Hv & _); [by eexists | discriminate |].
  exists j. split; [exact Hj | exact Hv].
Defined.

(** C7, as the code has it. The import of a document of an unrecognized
    shape ends with the error message set. The viewed set and the
    persistent store are left as they were; the current account, the
    collection and the displayed post are the ones the import set when it
    started: none, empty, none. *)
Theorem failed_import_clears_session
    (parser : list Activity → string + (list Status * option Account))
    (j : Json) (w : World) :
  detect_format parser j = inl unrecognized_message →
  let w' := handleFileUpload parser (JsonFile (Parsed j)) w in
  error (state w') = Some unrecognized_message ∧
  viewedIds (state w') = viewedIds (state w) ∧
  localStorage w' = localStorage w ∧
  currentAccount (state w') = None ∧
  allStatuses (state w') = [] ∧
  currentStatus (state w') = None.
Proof.
  intros E. cbv zeta. rewrite (import_error parser _ _ _ E). by repeat split.
Qed.

Lemma failed_import_clears_session_witness :
  currentAccount
    (state (handleFileUpload Sample.no_parser (JsonFile (Parsed JPrimitive))
              (Sample.world_of all [Sample.p1] {[ "3" ]}))) = None.
Proof.
  apply (failed_import_clears_session Sample.no_parser JPrimitive
           (Sample.world_of all [Sample.p1] {[ "3" ]})).
  reflexivity.
Defined.

(** C7, counterexample: a session with an account and one post; the file
    holds an object whose [type] is not one the import knows. After the
    import the account is gone. *)
Lemma failed_import_keeps_session_fails : ¬ failed_import_keeps_session.
Proof.
  intros H.
  destruct (H Sample.no_parser (JObject Sample.other_export)
              (Sample.world_of all [Sample.p1] ∅))
    as (_ & Hacc & _); [reflexivity|].
  rewrite (import_error Sample.no_parser unrecognized_message) in Hacc
    by reflexivity.
  discriminate Hacc.
Qed.

(** ** The walker *)

Section Buttons.

Implicit Types (w : World) (acts : list UserAction).

Lemma handle_same a w : same_session w (handle a w).
Proof.
  destruct a; unfold handle, togglePause, stopFetch, same_session; simpl;
    destruct (pausedRef w); simpl; tauto.
Qed.

Lemma handle_all_same acts : ∀ w, same_session w (handle_all acts w).
Proof.
  induction acts as [|a acts IH]; intros w; [by unfold same_session|].
  change (handle_all (a :: acts) w) with (handle_all acts (handle a w)).
  destruct (IH (handle a w)) as (? & ? & ? & ? & ? & ? & ?).
  destruct (handle_same a w) as (? & ? & ? & ? & ? & ? & ?).
  unfold same_session. repeat split; try congruence. auto.
Qed.

Lemma stop_sets_flag w : stopRef (stopFetch w) = true.
Proof. unfold stopFetch. simpl. by destruct (pausedRef w). Qed.

Lemma handle_all_stop acts : ∀ w,
  StopButton ∈ acts → stopRef (handle_all acts w) = true.
Proof.
  induction acts as [|a acts IH]; intros w Hin; [by apply not_elem_of_nil in Hin|].
  change (handle_all (a :: acts) w) with (handle_all acts (handle a w)).
  apply elem_of_cons in Hin as [<- | Hin]; [|by apply IH].
  apply handle_all_same. apply stop_sets_flag.
Qed.

Lemma handle_all_no_stop acts : ∀ w,
  StopButton ∉ acts → stopRef (handle_all acts w) = stopRef w.
Proof.
  induction acts as [|a acts IH]; intros w Hin; [done|].
  change (handle_all (a :: acts) w) with (handle_all acts (handle a w)).
  rewrite IH by set_solver.
  destruct a; [reflexivity | set_solver].
Qed.

End Buttons.

Section Traces.

Implicit Types (evs : list Event) (acts : list UserAction).

Lemma requests_app evs evs' : requests (evs ++ evs') = requests evs ++ requests evs'.
Proof.
  induction evs as [|[] evs IH]; simpl; [done|by f_equal|done..].
Qed.

Lemma responses_app evs evs' :
  responses (evs ++ evs') = responses evs ++ responses evs'.
Proof.
  induction evs as [|[] evs IH]; simpl; [done|done|by f_equal|done..].
Qed.



Lemma requests_clicks acts : requests (Clicked <$> acts) = [].
Proof. by induction acts. Qed.

Lemma responses_clicks acts : responses (Clicked <$> acts) = [].
Proof. by induction acts. Qed.



(** The stop button among clicks: what follows its first press is made of
    clicks. *)
Lemma after_stop_clicks_out acts evs :
  StopButton ∉ acts →
  after_stop ((Clicked <$> acts) ++ evs) = after_stop evs.
Proof.
  induction acts as [|a acts IH]; intros Hout; [done|].
  destruct a; simpl; [apply IH|]; set_solver.
Qed.

Lemma after_stop_clicks_in acts evs :
  StopButton ∈ acts →
  ∃ acts', after_stop ((Clicked <$> acts) ++ evs)
           = Some ((Clicked <$> acts') ++ evs).
Proof.
  induction acts as [|a acts IH]; intros Hin; [by apply not_elem_of_nil in Hin|].
  destruct a; simpl.
  - apply IH. set_solver.
  - by exists acts.
Qed.

End Traces.

Section Loop.

Implicit Types (k : Walk) (t : Tick) (ticks : list Tick) (batch : list Status).


Lemma while_loop_done ticks k :
  keepFetching k = false → while_loop ticks k = (Finished k, []).
Proof.
  intros H. destruct ticks; simpl; by rewrite H.
Qed.

(** The merge keeps the loop variables and the flags, and puts the page at
    the front for a newer walk, at the back otherwise. *)
Lemma merge_spec fb k :
  type (merge fb k) = type k ∧
  keepFetching (merge fb k) = keepFetching k ∧
  sessionCollectedCount (merge fb k) = (sessionCollectedCount k + length fb)%nat ∧
  fetchConfig (state (world (merge fb k))) = fetchConfig (state (world k)) ∧
  stopRef (world (merge fb k)) = stopRef (world k) ∧
  allStatuses (state (world (merge fb k)))
  = if is_newer (type k) then fb ++ allStatuses (state (world k))
    else allStatuses (state (world k)) ++ fb.
Proof.
  destruct fb as [|s fb]; simpl.
  - rewrite Nat.add_0_r, app_nil_r. by destruct (is_newer (type k)).
  - done.
Qed.

Lemma stop_at_count_spec k :
  type (stop_at_count k) = type k ∧
  world (stop_at_count k) = world k ∧
  sessionCollectedCount (stop_at_count k) = sessionCollectedCount k.
Proof.
  unfold stop_at_count.
  destruct (mode _); try done. destruct (type k) eqn:E; try done.
  by case_bool_decide.
Qed.

Lemma stop_at_count_other k :
  mode (fetchConfig (state (world k))) ≠ limit_count ∨ type k ≠ initial →
  stop_at_count k = k.
Proof.
  unfold stop_at_count. intros [H|H];
    destruct (mode _), (type k); done.
Qed.

Lemma truncate_other k batch :
  mode (fetchConfig (state (world k))) ≠ limit_date ∨ type k = newer →
  truncate_by_date k batch = (batch, keepFetching k).
Proof.
  unfold truncate_by_date. intros [H| ->]; [|by destruct (mode _)].
  by destruct (mode _).
Qed.

(** After a page, either the loop variable [keepFetching] is unset and
    nothing is awaited, or the walker sleeps 400 ms with the cursor moved
    to the last item of the page. *)
Lemma process_page_cases t batch k :
  let k' := (process_page t batch k).1 in
  let evs := (process_page t batch k).2 in
  type k' = type k ∧
  fetchConfig (state (world k')) = fetchConfig (state (world k)) ∧
  ((keepFetching k' = false ∧ evs = [] ∧
    stopRef (world k') = stopRef (world k)) ∨
   (keepFetching k' = true ∧ type k ≠ newer ∧
    nextMaxId k' = id <$> last batch ∧
    evs = (Clicked <$> on_delay t) ++ [Slept 400%N] ∧
    ∃ w1, world k' = handle_all (on_delay t) w1 ∧
          stopRef w1 = stopRef (world k))).
Proof.
  unfold process_page.
  destruct (truncate_by_date k batch) as [fb keep].
  set (k1 := with_keepFetching keep k).
  destruct (merge_spec fb k1) as (Ety & Ekeep & Ecount & Ecfg & Estop & Eall).
  destruct (stop_at_count_spec (merge fb k1)) as (Ety' & Ew & Ecount').
  set (k2 := stop_at_count (merge fb k1)) in *.
  destruct (keepFetching k2) eqn:Ek2; simpl.
  - destruct (is_newer (type k2)) eqn:En; simpl.
    + rewrite Ety', Ety, Ew, Ecfg, Estop. split; [done|]. split; [done|]. by left.
    + destruct (handle_all_same (on_delay t) (world k2)) as (_ & Ecfg' & _).
      rewrite Ecfg', Ety', Ety, Ew, Ecfg. split; [done|]. split; [done|]. right.
      split; [done|]. split.
      { rewrite Ety', Ety in En. simpl in En. intros E. by rewrite E in En. }
      split; [done|]. split; [done|].
      exists (world (merge fb k1)). split; [reflexivity|]. by rewrite Estop.
  - rewrite Ety', Ety, Ew, Ecfg, Estop. split; [done|]. split; [done|]. by left.
Qed.

(** The shape of one iteration: a pause sleep, or a request and its
    answer, after which the loop is left or the walker sleeps 400 ms. *)
Lemma iteration_cases t k :
  let k' := (iteration t k).1.1 in
  let evs := (iteration t k).1.2 in
  let c := (iteration t k).2 in
  type k' = type k ∧
  fetchConfig (state (world k')) = fetchConfig (state (world k)) ∧
  ((pausedRef (world k) = true ∧ c = Continue ∧
    evs = (Clicked <$> on_pause t) ++ [Slept 500%N] ∧
    world k' = handle_all (on_pause t) (world k) ∧
    keepFetching k' = keepFetching k) ∨
   (pausedRef (world k) = false ∧
    ∃ tail,
      evs = Requested (statusesUrl k) :: (Clicked <$> on_fetch t)
              ++ Responded (latency t) (reply t (statusesUrl k)) :: tail ∧
      ((tail = [] ∧ (c ≠ Continue ∨ keepFetching k' = false)) ∨
       (tail = (Clicked <$> on_delay t) ++ [Slept 400%N] ∧ c = Continue ∧
        keepFetching k' = true ∧ type k ≠ newer ∧
        (∃ batch, reply t (statusesUrl k) = Ok batch ∧ batch ≠ [] ∧
                  nextMaxId k' = id <$> last batch) ∧
        ∃ w1, world k' = handle_all (on_delay t) w1 ∧
              stopRef w1 = stopRef (handle_all (on_fetch t) (world k)))))).
Proof.
  unfold iteration.
  destruct (pausedRef (world k)) eqn:Ep; simpl.
  { destruct (handle_all_same (on_pause t) (world k)) as (_ & Ecfg & _).
    split; [done|]. split; [done|]. by left. }
  destruct (handle_all_same (on_fetch t) (world k)) as (_ & Ecfg & _).
  destruct (reply t (statusesUrl k)) as [message|[|b0 batch']] eqn:Er; simpl.
  - split; [done|]. split; [done|]. right. split; [done|].
    exists []. split; [done|]. left. split; [done|]. by left.
  - split; [done|]. split; [done|]. right. split; [done|].
    exists []. split; [done|]. left. split; [done|]. by left.
  - set (batch := b0 :: batch') in *.
    pose proof (process_page_cases t batch (click (on_fetch t) k)) as Hp.
    destruct (process_page t batch (click (on_fetch t) k)) as [k' evs'].
    simpl in Hp. destruct Hp as (Ety & Ecfg' & Hp). simpl.
    split; [done|]. split; [congruence|]. right. split; [done|].
    exists evs'. rewrite <- app_assoc. split; [done|].
    destruct Hp as [(Hk & -> & _) | (Hk & Hn & Hc & -> & w1 & Hw & Hs)].
    + left. split; [done|]. by right.
    + right. repeat split; try done.
      * exists batch. done.
      * by exists w1.
Qed.

End Loop.

Section Stop.

Implicit Types (k : Walk) (t : Tick) (ticks : list Tick) (evs rest : list Event).







(** Step 1 of an initial walk. *)

Lemma pressed_app (evs evs' : list LookupEvent) :
  pressed (evs ++ evs') = pressed evs ++ pressed evs'.
Proof.
  induction evs as [|e evs IH]; [done|]. destruct e; simpl; by rewrite ?IH.
Qed.


Lemma pressed_presses acts : pressed (Pressed <$> acts) = acts.
Proof. induction acts as [|a acts IH]; [done|]. simpl. f_equal. exact IH. Qed.





End Stop.

Section Pages.

Implicit Types (k : Walk) (t : Tick) (ticks : list Tick) (batch : list Status).

(** An iteration that fetches a page after which [keepFetching] is unset
    is the last one. *)
Lemma last_page t ticks k batch k' :
  keepFetching k = true →
  stopRef (world k) = false →
  pausedRef (world k) = false →
  reply t (statusesUrl k) = Ok batch →
  batch ≠ [] →
  process_page t batch (click (on_fetch t) k) = (k', []) →
  keepFetching k' = false →
  while_loop (t :: ticks) k
  = (Finished k',
     Requested (statusesUrl k) :: (Clicked <$> on_fetch t)
       ++ [Responded (latency t) (Ok batch)]).
Proof.
  intros Hkeep Hstop Hpause Hreply Hne Hpage Hend.
  simpl. rewrite Hkeep, Hstop. simpl.
  unfold iteration. rewrite Hpause, Hreply.
  destruct batch as [|b0 batch']; [done|].
  rewrite Hpage, while_loop_done by done. by rewrite !app_nil_r.
Qed.

(** C3. In date-limited mode, in a walk that is not a newer walk, a page
    whose last item is dated before the limit is cut to its items dated at
    or after the limit, these are merged at the back of the collection,
    and the walk is over: whatever ticks remain, the trace holds this one
    request and its answer. *)
Theorem date_cutoff_ends_walk t ticks k batch (lastItem : Status) :
  let cfg := fetchConfig (state (world k)) in
  type k ≠ newer →
  mode cfg = limit_date →
  keepFetching k = true →
  stopRef (world k) = false →
  pausedRef (world k) = false →
  reply t (statusesUrl k) = Ok batch →
  last batch = Some lastItem →
  time_lt (created_at lastItem) (limitDate cfg) = true →
  ∃ k',
    while_loop (t :: ticks) k
    = (Finished k',
       Requested (statusesUrl k) :: (Clicked <$> on_fetch t)
         ++ [Responded (latency t) (Ok batch)]) ∧
    allStatuses (state (world k'))
    = allStatuses (state (world k))
        ++ List.filter (λ s, time_ge (created_at s) (limitDate cfg)) batch.
Proof.
  intros cfg Hty Hmode Hkeep Hstop Hpause Hreply Hlast Hold.
  assert (Hne : batch ≠ []) by (by destruct batch).
  assert (Hn : is_newer (type k) = false) by (by destruct (type k)).
  destruct (handle_all_same (on_fetch t) (world k)) as (Eall & Ecfg & _).
  set (k1 := click (on_fetch t) k).
  set (kept := List.filter (λ s, time_ge (created_at s) (limitDate cfg)) batch).
  assert (Hpage : process_page t batch k1
                  = (merge kept (with_keepFetching false k1), [])).
  { unfold process_page, truncate_by_date.
    change (fetchConfig (state (world k1)))
      with (fetchConfig (state (handle_all (on_fetch t) (world k)))).
    rewrite Ecfg. fold cfg. rewrite Hmode. change (type k1) with (type k).
    rewrite Hn, Hlast, Hold. fold kept.
    rewrite stop_at_count_other.
    2:{ left. destruct (merge_spec kept (with_keepFetching false k1))
          as (_ & _ & _ & -> & _). simpl. rewrite Ecfg. fold cfg.
        by rewrite Hmode. }
    destruct (merge_spec kept (with_keepFetching false k1)) as (_ & -> & _).
    done. }
  exists (merge kept (with_keepFetching false k1)). split.
  - apply last_page; try done.
    by destruct (merge_spec kept (with_keepFetching false k1)) as (_ & -> & _).
  - destruct (merge_spec kept (with_keepFetching false k1))
      as (_ & _ & _ & _ & _ & ->).
    change (type (with_keepFetching false k1)) with (type k). rewrite Hn.
    simpl. by rewrite Eall.
Qed.

(** C9. In count-limited mode, in an initial walk, the walk is over after
    the first page with which the count of the walk reaches the limit, and
    that page is merged whole, the items beyond the limit included; below
    the limit the loop goes on. *)
Theorem count_limit_ends_walk t ticks k batch :
  let cfg := fetchConfig (state (world k)) in
  let n := (sessionCollectedCount k + length batch)%nat in
  let evs := Requested (statusesUrl k) :: (Clicked <$> on_fetch t)
               ++ [Responded (latency t) (Ok batch)] in
  type k = initial →
  mode cfg = limit_count →
  keepFetching k = true →
  stopRef (world k) = false →
  pausedRef (world k) = false →
  reply t (statusesUrl k) = Ok batch →
  batch ≠ [] →
  (limitCount cfg ≤ Z.of_nat n →
   ∃ k', while_loop (t :: ticks) k = (Finished k', evs) ∧
         allStatuses (state (world k')) = allStatuses (state (world k)) ++ batch ∧
         sessionCollectedCount k' = n) ∧
  (Z.of_nat n < limitCount cfg →
   ∃ k', iteration t k
         = (k', evs ++ (Clicked <$> on_delay t) ++ [Slept 400%N], Continue) ∧
         keepFetching k' = true ∧
         allStatuses (state (world k')) = allStatuses (state (world k)) ++ batch ∧
         sessionCollectedCount k' = n).
Proof.
  intros cfg n evs Hty Hmode Hkeep Hstop Hpause Hreply Hne.
  destruct (handle_all_same (on_fetch t) (world k)) as (Eall & Ecfg & _).
  set (k1 := click (on_fetch t) k).
  set (k2 := merge batch (with_keepFetching (keepFetching k1) k1)).
  destruct (merge_spec batch (with_keepFetching (keepFetching k1) k1))
    as (Ety2 & Ekeep2 & Ecount2 & Ecfg2 & _ & Eall2).
  fold k2 in Ety2, Ekeep2, Ecount2, Ecfg2, Eall2.
  change (type (with_keepFetching (keepFetching k1) k1)) with (type k) in *.
  change (keepFetching (with_keepFetching (keepFetching k1) k1))
    with (keepFetching k) in *.
  change (sessionCollectedCount (with_keepFetching (keepFetching k1) k1))
    with (sessionCollectedCount k) in *.
  change (world (with_keepFetching (keepFetching k1) k1))
    with (handle_all (on_fetch t) (world k)) in *.
  rewrite Hty in Ety2, Eall2. simpl in Eall2. rewrite Eall in Eall2.
  rewrite Ecfg in Ecfg2. fold cfg in Ecfg2. fold n in Ecount2.
  assert (Hpage : process_page t batch k1
                  = if keepFetching (stop_at_count k2)
                    then (click (on_delay t)
                            (with_nextMaxId (id <$> last batch) (stop_at_count k2)),
                          (Clicked <$> on_delay t) ++ [Slept 400%N])
                    else (stop_at_count k2, [])).
  { unfold process_page. rewrite truncate_other.
    2:{ left. change (fetchConfig (state (world k1)))
          with (fetchConfig (state (handle_all (on_fetch t) (world k)))).
        rewrite Ecfg. fold cfg. by rewrite Hmode. }
    fold k2. destruct (stop_at_count_spec k2) as (-> & _).
    by rewrite Ety2. }
  assert (Hstopcount : stop_at_count k2
                       = if bool_decide (limitCount cfg ≤ Z.of_nat n)
                         then with_keepFetching false k2 else k2).
  { unfold stop_at_count. by rewrite Ecfg2, Hmode, Ety2, Ecount2. }
  split; intros Hn.
  - rewrite bool_decide_eq_true_2 in Hstopcount by done.
    rewrite Hstopcount in Hpage. simpl in Hpage.
    exists (with_keepFetching false k2). split; [|by split].
    by apply last_page.
  - rewrite bool_decide_eq_false_2 in Hstopcount by lia.
    rewrite Hstopcount, Ekeep2, Hkeep in Hpage.
    exists (click (on_delay t) (with_nextMaxId (id <$> last batch) k2)).
    destruct (handle_all_same (on_delay t) (world k2)) as (Eall3 & _).
    split; [|split; [by rewrite <- Hkeep, <- Ekeep2|split; [|done]]].
    + unfold iteration. rewrite Hpause, Hreply.
      destruct batch as [|b0 batch']; [done|].
      fold k1. rewrite Hpage. reflexivity.
    + simpl. by rewrite Eall3.
Qed.

(** The date limit, as [truncate_by_date] applies it. *)
Lemma truncate_by_date_spec k batch :
  (truncate_by_date k batch).2
  = (if date_limit_applies k batch then false else keepFetching k) ∧
  (date_limit_applies k batch = false → (truncate_by_date k batch).1 = batch) ∧
  (date_limit_applies k batch = true →
   mode (fetchConfig (state (world k))) = limit_date ∧
   (truncate_by_date k batch).1
   = List.filter
       (λ s, time_ge (created_at s) (limitDate (fetchConfig (state (world k)))))
       batch).
Proof.
  unfold truncate_by_date, date_limit_applies.
  destruct (mode _), (is_newer (type k)), (last batch); try done.
  by destruct (time_lt _ _).
Qed.

(** A non-empty page of an initial or older walk. What the date limit
    keeps of it is merged at the back. When the date limit or the count limit
    applies, [keepFetching] is unset and nothing more is awaited; otherwise
    the page is merged whole, the cursor moves to its last item and the loop
    goes on after the delay. *)
Lemma iteration_page t k batch :
  type k ≠ newer →
  keepFetching k = true →
  pausedRef (world k) = false →
  reply t (statusesUrl k) = Ok batch →
  batch ≠ [] →
  let evs := Requested (statusesUrl k) :: (Clicked <$> on_fetch t)
               ++ [Responded (latency t) (Ok batch)] in
  ∃ k',
    type k' = type k ∧
    fetchConfig (state (world k')) = fetchConfig (state (world k)) ∧
    allStatuses (state (world k'))
    = allStatuses (state (world k)) ++ (truncate_by_date k batch).1 ∧
    sessionCollectedCount k'
    = (sessionCollectedCount k + length (truncate_by_date k batch).1)%nat ∧
    if date_limit_applies k batch || count_limit_applies k batch
    then iteration t k = (k', evs, Continue) ∧ keepFetching k' = false
    else iteration t k
         = (k', evs ++ (Clicked <$> on_delay t) ++ [Slept 400%N], Continue) ∧
         keepFetching k' = true ∧
         nextMaxId k' = id <$> last batch.
Proof.
  intros Hty Hkeep Hpause Hreply Hne evs.
  assert (Hn : is_newer (type k) = false) by (by destruct (type k)).
  destruct (handle_all_same (on_fetch t) (world k)) as (Eall & Ecfg & _).
  set (k1 := click (on_fetch t) k).
  assert (Et : truncate_by_date k1 batch = truncate_by_date k batch).
  { unfold truncate_by_date.
    change (fetchConfig (state (world k1)))
      with (fetchConfig (state (handle_all (on_fetch t) (world k)))).
    by rewrite Ecfg. }
  destruct (truncate_by_date_spec k batch) as (Hkeep' & Hwhole & Hcut).
  destruct (truncate_by_date k batch) as [fb keep] eqn:Etr. simpl in *.
  set (k2 := merge fb (with_keepFetching keep k1)).
  destruct (merge_spec fb (with_keepFetching keep k1))
    as (Ety2 & Ekeep2 & Ecount2 & Ecfg2 & _ & Eall2).
  fold k2 in Ety2, Ekeep2, Ecount2, Ecfg2, Eall2.
  change (type (with_keepFetching keep k1)) with (type k) in *.
  change (keepFetching (with_keepFetching keep k1)) with keep in *.
  change (sessionCollectedCount (with_keepFetching keep k1))
    with (sessionCollectedCount k) in *.
  change (world (with_keepFetching keep k1))
    with (handle_all (on_fetch t) (world k)) in *.
  rewrite Hn, Eall in Eall2. rewrite Ecfg in Ecfg2.
  destruct (stop_at_count_spec k2) as (Ety3 & Ew3 & Ecount3).
  assert (Eiter : iteration t k
                  = if keepFetching (stop_at_count k2)
                    then (click (on_delay t)
                            (with_nextMaxId (id <$> last batch) (stop_at_count k2)),
                          evs ++ (Clicked <$> on_delay t) ++ [Slept 400%N], Continue)
                    else (stop_at_count k2, evs, Continue)).
  { unfold iteration. rewrite Hpause, Hreply.
    destruct batch as [|b0 batch']; [done|].
    fold k1. unfold process_page. rewrite Et. fold k2.
    rewrite Ety3, Ety2, Hn.
    destruct (keepFetching (stop_at_count k2)); [done|]. by rewrite app_nil_r. }
  assert (Ekeep3 : keepFetching (stop_at_count k2)
                   = negb (date_limit_applies k batch || count_limit_applies k batch)).
  { unfold stop_at_count, count_limit_applies. rewrite Ecfg2, Ety2, Ecount2.
    destruct (date_limit_applies k batch) eqn:Ed.
    - destruct (Hcut eq_refl) as [-> _]. simpl. by rewrite Ekeep2, Hkeep'.
    - rewrite (Hwhole eq_refl). simpl.
      destruct (mode _); [by rewrite Ekeep2, Hkeep', Hkeep| |by rewrite Ekeep2, Hkeep', Hkeep].
      destruct (type k); try by rewrite Ekeep2, Hkeep', Hkeep.
      case_bool_decide; simpl; [done|]. by rewrite Ekeep2, Hkeep', Hkeep. }
  rewrite Ekeep3 in Eiter.
  destruct (handle_all_same (on_delay t) (world (stop_at_count k2)))
    as (Eall4 & Ecfg4 & _).
  destruct (date_limit_applies k batch || count_limit_applies k batch) eqn:Eb;
    simpl in Eiter.
  - exists (stop_at_count k2). rewrite Ew3, Ety3, Ecount3.
    split_and!; try done.
  - exists (click (on_delay t) (with_nextMaxId (id <$> last batch) (stop_at_count k2))).
    simpl in Eall4, Ecfg4 |- *. rewrite Ew3 in Eall4, Ecfg4.
    split_and!; try done; congruence.
Qed.


Lemma date_limit_same k k' batch :
  type k' = type k →
  fetchConfig (state (world k')) = fetchConfig (state (world k)) →
  date_limit_applies k' batch = date_limit_applies k batch ∧
  (truncate_by_date k' batch).1 = (truncate_by_date k batch).1.
Proof.
  intros Ety Ecfg. unfold date_limit_applies, truncate_by_date.
  rewrite Ety, Ecfg.
  destruct (mode _), (is_newer (type k)), (last batch); try done.
  by destruct (time_lt _ _).
Qed.

Lemma count_limit_reached k batch :
  count_limit_applies k batch = true →
  let cfg := fetchConfig (state (world k)) in
  mode cfg = limit_count ∧ type k = initial ∧
  limitCount cfg ≤ Z.of_nat (sessionCollectedCount k + length batch).
Proof.
  unfold count_limit_applies.
  destruct (mode _); try done. destruct (type k); try done.
  intros H. by apply bool_decide_eq_true in H.
Qed.

(** A walk that is over without having been stopped: its last answer is
    an empty page, a page cut by the date limit, or the page with which the
    count limit of an initial walk was reached; and what the date limit kept
    of each page is in the collection, in order. *)
Lemma walk_end ticks : ∀ k k' evs,
  type k ≠ newer →
  keepFetching k = true →
  while_loop ticks k = (Finished k', evs) →
  stopRef (world k') = false →
  let cfg := fetchConfig (state (world k)) in
  ∃ batch,
    last (responses evs) = Some (Ok batch) ∧
    (batch = [] ∨
     date_limit_applies k batch = true ∨
     (mode cfg = limit_count ∧ type k = initial ∧
      limitCount cfg ≤ Z.of_nat (sessionCollectedCount k'))) ∧
    allStatuses (state (world k'))
    = allStatuses (state (world k))
        ++ concat ((λ b, (truncate_by_date k b).1) <$> pages evs).
Proof.
  induction ticks as [|t ticks IH]; intros k k' evs Hty Hkeep; simpl;
    rewrite Hkeep; simpl.
  { destruct (stopRef (world k)) eqn:Es; [|done]. intros [= <- <-]. congruence. }
  destruct (stopRef (world k)) eqn:Es; [intros [= <- <-]; congruence|].
  destruct (pausedRef (world k)) eqn:Ep.
  - (* a pause sleep *)
    unfold iteration. rewrite Ep.
    destruct (handle_all_same (on_pause t) (world k)) as (Eall & Ecfg & _).
    specialize (IH (click (on_pause t) k) k').
    destruct (while_loop ticks (click (on_pause t) k)) as [o evs'].
    intros [= -> <-] Hs.
    destruct (IH evs') as (batch & Hl & Hwhy & Ha); try done.
    exists batch. unfold pages in *.
    rewrite !responses_app, responses_clicks. simpl.
    simpl in Hwhy, Ha. rewrite Ecfg in Hwhy. rewrite Eall in Ha.
    assert (Hsame := λ b, date_limit_same k (click (on_pause t) k) b eq_refl Ecfg).
    split; [done|]. split.
    + destruct Hwhy as [?|[?|?]]; [by left| |by right; right].
      right; left. by rewrite <- (proj1 (Hsame batch)).
    + rewrite Ha. do 2 f_equal. apply list_fmap_ext. intros ? b _. apply Hsame.
  - destruct (reply t (statusesUrl k)) as [message|batch] eqn:Er.
    { unfold iteration. by rewrite Ep, Er. }
    destruct (decide (batch = [])) as [->|Hne].
    { unfold iteration. rewrite Ep, Er. intros [= <- <-] _.
      exists []. unfold pages. simpl. rewrite responses_app, responses_clicks. simpl.
      destruct (handle_all_same (on_fetch t) (world k)) as (Eall & _).
      split; [done|]. split; [by left|].
      assert (Hnil : (truncate_by_date k []).1 = []).
      { unfold truncate_by_date. simpl.
        by destruct (mode _), (is_newer (type k)). }
      by rewrite Hnil, !app_nil_r. }
    destruct (iteration_page t k batch) as (k1 & Ety & Ecfg & Eall & Ecount & Hit);
      try done.
    destruct (date_limit_applies k batch || count_limit_applies k batch) eqn:Eb.
    + (* the page ends the walk *)
      destruct Hit as [-> Hk1]. rewrite while_loop_done by done.
      intros [= <- <-] _. exists batch. unfold pages.
      rewrite app_nil_r. simpl. rewrite responses_app, responses_clicks. simpl.
      split; [done|]. split; [|by rewrite Eall, app_nil_r].
      destruct (date_limit_applies k batch) eqn:Ed; [by right; left|].
      right; right. simpl in Eb.
      destruct (count_limit_reached k batch Eb) as (? & ? & Hn).
      destruct (truncate_by_date_spec k batch) as (_ & Hwhole & _).
      rewrite Ecount, (Hwhole Ed). done.
    + destruct Hit as (-> & Hk1 & _).
      specialize (IH k1 k').
      destruct (while_loop ticks k1) as [o evs'].
      intros [= -> <-] Hs.
      destruct (IH evs') as (last_batch & Hl & Hwhy & Ha); try done; [congruence|].
      exists last_batch. unfold pages in *. simpl.
      rewrite !responses_app, !responses_clicks. simpl.
      simpl in Hwhy. rewrite Ecfg, Ety in Hwhy.
      split; [by destruct (responses evs')|]. split.
      * destruct Hwhy as [?|[?|?]]; [by left| |by right; right].
        right; left. by destruct (date_limit_same k k1 last_batch Ety Ecfg) as [<- _].
      * assert (Hf : (λ b, (truncate_by_date k1 b).1) <$> (page <$> responses evs')
                     = (λ b, (truncate_by_date k b).1) <$> (page <$> responses evs')).
        { apply list_fmap_ext. intros ? b _.
          by destruct (date_limit_same k k1 b Ety Ecfg) as [_ ->]. }
        rewrite Ha, Hf, Eall, <- app_assoc. done.
Qed.

Lemma iteration_newer t k :
  type k = newer →
  keepFetching k = true →
  pausedRef (world k) = false →
  let k' := (iteration t k).1.1 in
  let c := (iteration t k).2 in
  (iteration t k).1.2
  = Requested (statusesUrl k) :: (Clicked <$> on_fetch t)
      ++ [Responded (latency t) (reply t (statusesUrl k))] ∧
  (c ≠ Continue ∨ keepFetching k' = false) ∧
  allStatuses (state (world k'))
  = page (reply t (statusesUrl k)) ++ allStatuses (state (world k)).
Proof.
  intros Hty Hkeep Hpause.
  destruct (handle_all_same (on_fetch t) (world k)) as (Eall & Ecfg & _).
  unfold iteration. rewrite Hpause.
  destruct (reply t (statusesUrl k)) as [message|[|b0 batch']] eqn:Er; simpl.
  - split; [done|]. split; [by left|done].
  - split; [done|]. split; [by left|done].
  - set (batch := b0 :: batch').
    set (k1 := click (on_fetch t) k).
    unfold process_page. rewrite truncate_other by (right; exact Hty).
    set (k2 := merge batch (with_keepFetching (keepFetching k1) k1)).
    destruct (merge_spec batch (with_keepFetching (keepFetching k1) k1))
      as (Ety2 & Ekeep2 & _ & _ & _ & Eall2).
    fold k2 in Ety2, Ekeep2, Eall2.
    change (type (with_keepFetching (keepFetching k1) k1)) with (type k) in *.
    change (keepFetching (with_keepFetching (keepFetching k1) k1))
      with (keepFetching k) in *.
    change (world (with_keepFetching (keepFetching k1) k1))
      with (handle_all (on_fetch t) (world k)) in *.
    rewrite Hty, Eall in Eall2. rewrite Hty in Ety2. simpl in Eall2.
    rewrite stop_at_count_other by (right; by rewrite Ety2).
    rewrite Ekeep2, Hkeep, Ety2. simpl. rewrite app_nil_r.
    split; [done|]. split; [by right|done].
Qed.

(** C4. A newer walk issues at most one page request, whatever the size
    of the page and whatever the mode, and the page it receives is put in
    front of the collection. *)
Theorem newer_fetches_one_page ticks : ∀ k,
  type k = newer →
  (length (requests (while_loop ticks k).2) ≤ 1)%nat ∧
  allStatuses (state (world (final (while_loop ticks k).1)))
  = concat (pages (while_loop ticks k).2) ++ allStatuses (state (world k)).
Proof.
  induction ticks as [|t ticks IH]; intros k Hty; simpl.
  { destruct (negb (keepFetching k)), (stopRef (world k)); simpl; split; (lia || done). }
  destruct (keepFetching k) eqn:Hkeep; simpl; [|split; (lia || done)].
  destruct (stopRef (world k)) eqn:Es; simpl; [split; (lia || done)|].
  destruct (pausedRef (world k)) eqn:Ep.
  - unfold iteration. rewrite Ep.
    destruct (handle_all_same (on_pause t) (world k)) as (Eall & _).
    destruct (IH (click (on_pause t) k) Hty) as [Hr Ha].
    destruct (while_loop ticks (click (on_pause t) k)) as [o evs']. simpl in *.
    unfold pages in *.
    rewrite !requests_app, !responses_app, requests_clicks, responses_clicks.
    simpl. split; [done|]. by rewrite Ha, Eall.
  - destruct (iteration_newer t k Hty Hkeep Ep) as (Hevs & Hend & Hall).
    destruct (iteration t k) as [[k' evs] c]. simpl in Hevs, Hend, Hall.
    assert (Hr : requests evs = [statusesUrl k] ∧
                 pages evs = [page (reply t (statusesUrl k))]).
    { rewrite Hevs. unfold pages. simpl.
      by rewrite requests_app, responses_app, requests_clicks, responses_clicks. }
    destruct Hr as [Hr Hp].
    destruct c as [| |message]; simpl.
    + destruct Hend as [?|Hend]; [done|].
      rewrite while_loop_done by done. simpl. rewrite app_nil_r, Hr, Hp. simpl.
      split; [lia|]. by rewrite app_nil_r.
    + rewrite Hr, Hp. simpl. split; [lia|]. by rewrite app_nil_r.
    + rewrite Hr, Hp. simpl. split; [lia|]. by rewrite app_nil_r.
Qed.

End Pages.

(** ** The claims on the walker, on the sample server *)

(** C2, as the code has it. In an initial or older walk the size of a page
    plays no part. A non-empty page, short or full, to which neither the
    date limit nor the count limit applies is merged whole at the back, the
    cursor moves to the id of its last item and the loop goes on after the
    delay of 400 ms. A walk that is over without having been stopped ended on
    an empty page, on a page that the date limit cut, or on the page with
    which the count limit of an initial walk was reached, and what the date
    limit kept of every page received is in the collection, in order. So
    when no page was cut and the count limit was not reached, as it is in
    mode [all] and in an older walk in count-limited mode, the walk ended on
    an empty page with all the pages it received merged in order. *)
Theorem walk_ends_on_empty_page (k : Walk) :
  let cfg := fetchConfig (state (world k)) in
  type k ≠ newer →
  keepFetching k = true →
  (∀ (t : Tick) (batch : list Status),
     pausedRef (world k) = false →
     reply t (statusesUrl k) = Ok batch →
     batch ≠ [] →
     date_limit_applies k batch = false →
     count_limit_applies k batch = false →
     ∃ k', iteration t k
           = (k', Requested (statusesUrl k) :: (Clicked <$> on_fetch t)
                    ++ Responded (latency t) (Ok batch)
                    :: (Clicked <$> on_delay t) ++ [Slept 400%N], Continue) ∧
           keepFetching k' = true ∧
           nextMaxId k' = id <$> last batch ∧
           allStatuses (state (world k')) = allStatuses (state (world k)) ++ batch ∧
           sessionCollectedCount k'
           = (sessionCollectedCount k + length batch)%nat) ∧
  (∀ (ticks : list Tick) (k' : Walk) (evs : list Event),
     while_loop ticks k = (Finished k', evs) →
     stopRef (world k') = false →
     ∃ batch,
       last (responses evs) = Some (Ok batch) ∧
       (batch = [] ∨
        date_limit_applies k batch = true ∨
        (mode cfg = limit_count ∧ type k = initial ∧
         limitCount cfg ≤ Z.of_nat (sessionCollectedCount k'))) ∧
       allStatuses (state (world k'))
       = allStatuses (state (world k))
           ++ concat ((λ b, (truncate_by_date k b).1) <$> pages evs)) ∧
  (∀ (ticks : list Tick) (k' : Walk) (evs : list Event),
     while_loop ticks k = (Finished k', evs) →
     stopRef (world k') = false →
     mode cfg = all ∨
     (mode cfg = limit_count ∧ type k = older) ∨
     ((∀ batch, batch ∈ pages evs → date_limit_applies k batch = false) ∧
      ¬ (mode cfg = limit_count ∧ type k = initial ∧
         limitCount cfg ≤ Z.of_nat (sessionCollectedCount k'))) →
     last (responses evs) = Some (Ok []) ∧
     allStatuses (state (world k'))
     = allStatuses (state (world k)) ++ concat (pages evs)).
Proof.
  intros cfg Hty Hkeep. split_and!.
  - intros t batch Hpause Hreply Hne Hdate Hcount.
    destruct (iteration_page t k batch) as (k' & _ & _ & Eall & Ecount & Hit);
      try done.
    rewrite Hdate, Hcount in Hit. simpl in Hit. destruct Hit as (E & ? & ?).
    destruct (truncate_by_date_spec k batch) as (_ & Hwhole & _).
    rewrite (Hwhole Hdate) in Eall, Ecount.
    exists k'. split_and!; try done.
    rewrite E. simpl. by rewrite <- app_assoc.
  - intros ticks k' evs. by apply walk_end.
  - intros ticks k' evs Hloop Hs Hwhy.
    destruct (walk_end ticks k k' evs Hty Hkeep Hloop Hs)
      as (batch & Hl & Hend & Hall). fold cfg in Hend.
    assert (Hin : batch ∈ pages evs).
    { unfold pages. change batch with (page (Ok batch)).
      apply list_elem_of_fmap_2. by apply last_Some_elem_of. }
    assert (Hno : (∀ batch, batch ∈ pages evs → date_limit_applies k batch = false) ∧
                  ¬ (mode cfg = limit_count ∧ type k = initial ∧
                     limitCount cfg ≤ Z.of_nat (sessionCollectedCount k'))).
    { destruct Hwhy as [Hm|[[Hm Ho]|?]]; [| |done].
      - split; [|intros [? _]; congruence].
        intros b _. unfold date_limit_applies. fold cfg. by rewrite Hm.
      - split; [|intros (_ & ? & _); congruence].
        intros b _. unfold date_limit_applies. fold cfg. by rewrite Hm. }
    destruct Hno as [Hdate Hcount].
    assert (batch = []) as ->.
    { destruct Hend as [?|[Hd|?]]; [done| |done].
      rewrite (Hdate batch Hin) in Hd. done. }
    split; [done|]. rewrite Hall. do 2 f_equal.
    rewrite <- (list_fmap_id (pages evs)) at 2.
    apply list_fmap_ext. intros i b Hb. apply list_elem_of_lookup_2 in Hb.
    destruct (truncate_by_date_spec k b) as (_ & Hwhole & _).
    by apply Hwhole, Hdate.
Qed.

Lemma walk_ends_on_empty_page_witness :
  let posts := [Sample.p1; Sample.p2; Sample.p3] in
  let k := enter_loop older "109" (Sample.world_of limit_count [Sample.p1] ∅) in
  let ticks := [Sample.quiet posts 120; Sample.quiet posts 80] in
  requests (while_loop ticks k).2
  = [statusesUrl k;
     statusesUrl (with_nextMaxId (Some "1") k)] ∧
  last (responses (while_loop ticks k).2) = Some (Ok []) ∧
  allStatuses (state (world (final (while_loop ticks k).1))) = posts.
Proof.
  split; [vm_compute; reflexivity|].
  refine (proj2 (proj2 (walk_ends_on_empty_page
                  (enter_loop older "109" (Sample.world_of limit_count [Sample.p1] ∅))
                  _ _))
           [Sample.quiet [Sample.p1; Sample.p2; Sample.p3] 120;
            Sample.quiet [Sample.p1; Sample.p2; Sample.p3] 80]
           (final (while_loop _ _).1) (while_loop _ _).2 _ _ _).
  - discriminate.
  - reflexivity.
  - vm_compute. reflexivity.
  - reflexivity.
  - right; left. split; reflexivity.
Defined.

(** C2, counterexample: the server holds three posts. The first page of an
    initial walk has three items, fewer than 40, and the walk then asks for
    the page after the last of them. *)
Lemma short_page_ends_walk_fails : ¬ short_page_ends_walk.
Proof.
  intros H.
  destruct (H (Sample.quiet [Sample.p1; Sample.p2; Sample.p3] 120)
              [Sample.quiet [Sample.p1; Sample.p2; Sample.p3] 80]
              (enter_loop initial "109" (Sample.world_of all [] ∅))
              [Sample.p1; Sample.p2; Sample.p3]) as [_ Hreq];
    [discriminate | reflexivity | reflexivity | reflexivity | reflexivity
    | simpl; lia |].
  vm_compute in Hreq. discriminate Hreq.
Qed.




Lemma date_cutoff_ends_walk_witness :
  let posts := [Sample.p1; Sample.p2; Sample.p3] in
  let k := enter_loop initial "109" (Sample.world_of limit_date [] ∅) in
  ∃ k', while_loop [Sample.quiet posts 120; Sample.quiet posts 80] k
        = (Finished k',
           [Requested (statusesUrl k); Responded 120 (Ok posts)]) ∧
        allStatuses (state (world k')) = [Sample.p1; Sample.p2].
Proof.
  apply (date_cutoff_ends_walk
           (Sample.quiet [Sample.p1; Sample.p2; Sample.p3] 120)
           [Sample.quiet [Sample.p1; Sample.p2; Sample.p3] 80]
           (enter_loop initial "109" (Sample.world_of limit_date [] ∅))
           [Sample.p1; Sample.p2; Sample.p3] Sample.p3);
    [discriminate | reflexivity..].
Defined.

Lemma newer_fetches_one_page_witness :
  let k := enter_loop newer "109" (Sample.world_of all [Sample.p3] ∅) in
  let ticks := [Sample.quiet [Sample.p1; Sample.p2] 120;
                Sample.quiet [Sample.p1; Sample.p2] 80] in
  allStatuses (state (world (final (while_loop ticks k).1)))
  = [Sample.p1; Sample.p2; Sample.p3] ∧
  (length (requests (while_loop ticks k).2) ≤ 1)%nat.
Proof.
  split; [reflexivity|].
  apply (newer_fetches_one_page
           [Sample.quiet [Sample.p1; Sample.p2] 120;
            Sample.quiet [Sample.p1; Sample.p2] 80]
           (enter_loop newer "109" (Sample.world_of all [Sample.p3] ∅))).
  reflexivity.
Defined.

Lemma count_limit_ends_walk_witness :
  let posts := [Sample.p1; Sample.p2; Sample.p3] in
  let k := enter_loop initial "109" (Sample.world_of limit_count [] ∅) in
  ∃ k', while_loop [Sample.quiet posts 120; Sample.quiet posts 80] k
        = (Finished k',
           [Requested (statusesUrl k); Responded 120 (Ok posts)]) ∧
        allStatuses (state (world k')) = [] ++ posts ∧
        sessionCollectedCount k' = 3%nat.
Proof.
  apply (count_limit_ends_walk
           (Sample.quiet [Sample.p1; Sample.p2; Sample.p3] 120)
           [Sample.quiet [Sample.p1; Sample.p2; Sample.p3] 80]
           (enter_loop initial "109" (Sample.world_of limit_count [] ∅))
           [Sample.p1; Sample.p2; Sample.p3]);
    [reflexivity | reflexivity | reflexivity | reflexivity | reflexivity
    | reflexivity | discriminate | vm_compute; discriminate].
Defined.

(** ** The scenario of 45 posts *)

(** An account with 45 posts, pages of 40: an initial walk receives 40
    posts, then 5, then asks once more, with the cursor on the oldest post,
    and receives none; it ends there with the 45 posts. *)
Example walk_over_45_posts :
  let ticks := replicate 5 (Sample.quiet (Sample.numbered 45) 100) in
  let run := executeFetch initial Sample.found ticks (Sample.world_of all [] ∅) in
  length <$> pages run.2 = [40; 5; 0]%nat ∧
  req_max_id <$> requests run.2 = [None; Some "6"; Some "1"] ∧
  (allStatuses ∘ state <$> run.1) = Some (Sample.numbered 45).
Proof. vm_compute. repeat split. Qed.

(** * Further properties *)

(** ** Strings *)

Lemma append_cons (c : Ascii.ascii) (s rest : string) :
  String c s +:+ rest = String c (s +:+ rest).
Proof. reflexivity. Qed.

Lemma append_empty (s : string) : s +:+ "" = s.
Proof. induction s as [|c s IH]; [done|]. by rewrite append_cons, IH. Qed.

(** ** The history store and the sampler *)

(** X1. The viewed set written by [saveHistory] for an account is the set
    that [loadHistory] reads back for that account, and the history of every
    other account reads as before. *)
Theorem history_roundtrip (a b : string) (v : gset string) (w : World) :
  viewedIds (state (loadHistory b (saveHistory a v w)))
  = if decide (a = b) then v else viewedIds (state (loadHistory b w)).
Proof.
  unfold loadHistory, saveHistory. simpl. destruct (decide (a = b)) as [->|Hne].
  - by rewrite lookup_insert_eq, list_to_set_elements_L.
  - by rewrite lookup_insert_ne.
Qed.

(** X2. A successful pick is on display and is saved: after the
    session is left with [returnToHome], loading the history of the account
    gives the viewed set of before the pick with the id of the picked post
    added. *)
Theorem pick_survives_reload (u : nat) (confirmed : bool) (w w' : World) (s : Status) :
  pickRandomStatus u confirmed w = (w', Picked s) →
  ∃ a, currentAccount (state w') = Some a ∧
       currentStatus (state w') = Some s ∧
       viewedIds (state (loadHistory (acct_id a) (returnToHome w')))
       = {[ id s ]} ∪ viewedIds (state w).
Proof.
  intros Hpick.
  destruct (pick_saves _ _ _ _ _ Hpick) as (a & _ & Ha & Hcur & _ & Hseen).
  apply pick_picked in Hpick as (_ & _ & Hv).
  exists a. split; [done|]. split; [done|].
  unfold loadHistory, returnToHome. simpl. rewrite Hseen.
  by rewrite list_to_set_elements_L.
Qed.

Lemma pick_survives_reload_witness :
  let w := Sample.world_of all [Sample.p1; Sample.p2] ∅ in
  let w' := (pickRandomStatus 0 false w).1 in
  ∃ a, currentAccount (state w') = Some a ∧
       currentStatus (state w') = Some Sample.p1 ∧
       viewedIds (state (loadHistory (acct_id a) (returnToHome w')))
       = {[ "3" ]} ∪ ∅.
Proof.
  apply (pick_survives_reload 0 false
           (Sample.world_of all [Sample.p1; Sample.p2] ∅)
           (pickRandomStatus 0 false
              (Sample.world_of all [Sample.p1; Sample.p2] ∅)).1
           Sample.p1).
  reflexivity.
Defined.

Lemma clearHistory_session w :
  allStatuses (state (clearHistory w)) = allStatuses (state w) ∧
  displayFilter (state (clearHistory w)) = displayFilter (state w) ∧
  currentAccount (state (clearHistory w)) = currentAccount (state w).
Proof.
  unfold clearHistory. destruct (currentAccount (state w)) eqn:E; simpl; by rewrite ?E.
Qed.

Lemma filter_all {A} (P : A → Prop) `{!∀ x, Decision (P x)} (l : list A) :
  (∀ x, x ∈ l → P x) → filter P l = l.
Proof.
  induction l as [|x l IH]; intros Hall; [done|].
  rewrite filter_cons_True by (apply Hall; left).
  f_equal. apply IH. intros y Hy. apply Hall. by right.
Qed.

(** X3. After [clearHistory], with an account and a post that passes
    the display filter, the stored history of the account reads as empty and
    the next pick returns a post of the filtered pool. *)
Theorem reset_then_pick (u : nat) (confirmed : bool) (w : World) (a : Account) :
  currentAccount (state w) = Some a →
  display_pool (displayFilter (state w)) (allStatuses (state w)) ≠ [] →
  viewedIds (state (loadHistory (acct_id a) (clearHistory w))) = ∅ ∧
  ∃ s, (pickRandomStatus u confirmed (clearHistory w)).2 = Picked s ∧
       s ∈ display_pool (displayFilter (state w)) (allStatuses (state w)).
Proof.
  intros Ha Hpool. split.
  { unfold clearHistory, loadHistory. rewrite Ha. simpl.
    by rewrite lookup_insert_eq, elements_empty. }
  destruct (clearHistory_session w) as (Eall & Ef & Eacc).
  assert (Hv : viewedIds (state (clearHistory w)) = ∅).
  { unfold clearHistory. by rewrite Ha. }
  unfold pickRandomStatus. rewrite Eacc, Ha, Eall, Ef, Hv.
  destruct (allStatuses (state w)) as [|s0 l] eqn:El.
  { destruct (displayFilter (state w)) as [[?|] [?|] [] []]; by destruct Hpool. }
  destruct (display_pool _ _) as [|p0 pool'] eqn:Ep; [done|].
  rewrite filter_all by (intros x _; apply not_elem_of_empty).
  eexists. split; [reflexivity|].
  apply list_elem_of_In, nth_In, Nat.mod_upper_bound. simpl. lia.
Qed.

Lemma reset_then_pick_witness :
  let w := Sample.world_of all [Sample.p1] {[ "3" ]} in
  viewedIds (state (loadHistory "109" (clearHistory w))) = ∅ ∧
  ∃ s, (pickRandomStatus 5 false (clearHistory w)).2 = Picked s ∧
       s ∈ display_pool Sample.no_filter [Sample.p1].
Proof.
  apply (reset_then_pick 5 false (Sample.world_of all [Sample.p1] {[ "3" ]})
           Sample.alice); [reflexivity | discriminate].
Defined.

Lemma display_pool_nil (f : DisplayFilter) : display_pool f [] = [].
Proof. unfold display_pool. by destruct (showReplies f), (showReblogs f), (startDate f), (endDate f). Qed.

Lemma pick_nth (u : nat) (confirmed : bool) (w : World) (a : Account)
    (first : Status) (av : list Status) :
  currentAccount (state w) = Some a →
  filter (λ s, id s ∉ viewedIds (state w))
    (display_pool (displayFilter (state w)) (allStatuses (state w)))
  = first :: av →
  (pickRandomStatus u confirmed w).2
  = Picked (nth (u mod S (length av)) (first :: av) first).
Proof.
  intros Ha Hav. unfold pickRandomStatus. rewrite Ha.
  destruct (allStatuses (state w)) as [|s0 l] eqn:El.
  { by rewrite display_pool_nil in Hav. }
  destruct (display_pool _ _) as [|p0 pool'] eqn:Ep; [done|].
  by rewrite Hav.
Qed.

(** X4. Every post that passes the display filter and has not
    been viewed can be drawn: of the [n] such posts, one value of the random
    index below [n] returns it, and so does every value congruent to it
    modulo [n]. *)
Theorem every_unseen_post_can_be_drawn (confirmed : bool) (w : World) (s : Status) :
  is_Some (currentAccount (state w)) →
  s ∈ display_pool (displayFilter (state w)) (allStatuses (state w)) →
  id s ∉ viewedIds (state w) →
  let n := length (filter (λ s, id s ∉ viewedIds (state w))
                     (display_pool (displayFilter (state w)) (allStatuses (state w)))) in
  ∃ u, (u < n)%nat ∧
       ∀ m, (pickRandomStatus (u + m * n) confirmed w).2 = Picked s.
Proof.
  intros [a Ha] Hpool Hnew n.
  assert (Hin : s ∈ filter (λ s, id s ∉ viewedIds (state w))
                   (display_pool (displayFilter (state w)) (allStatuses (state w))))
    by (by apply list_elem_of_filter).
  apply list_elem_of_lookup in Hin as [i Hi].
  pose proof (lookup_lt_Some _ _ _ Hi) as Hlt. fold n in Hlt.
  destruct (filter _ _) as [|first av] eqn:Eav; [done|].
  exists i. split; [done|]. intros m.
  rewrite (pick_nth _ _ _ a first av Ha Eav). f_equal.
  change (S (length av)) with n.
  rewrite Nat.Div0.mod_add, Nat.mod_small by done.
  rewrite nth_lookup. by rewrite Hi.
Qed.

Lemma every_unseen_post_can_be_drawn_witness :
  let w := Sample.world_of all [Sample.p1; Sample.p2] ∅ in
  ∃ u, (u < 2)%nat ∧
       ∀ m, (pickRandomStatus (u + m * 2) true w).2 = Picked Sample.p2.
Proof.
  refine (every_unseen_post_can_be_drawn true
            (Sample.world_of all [Sample.p1; Sample.p2] ∅) Sample.p2 _ _ _).
  - by eexists.
  - apply list_elem_of_further, list_elem_of_here.
  - apply not_elem_of_empty.
Defined.

(** ** The display filter *)

Lemma List_filter_elem {A} (f : A → bool) (l : list A) (x : A) :
  x ∈ List.filter f l ↔ x ∈ l ∧ f x = true.
Proof. rewrite !list_elem_of_In. apply filter_In. Qed.

Lemma List_filter_sublist {A} (f : A → bool) (l : list A) :
  List.filter f l `sublist_of` l.
Proof.
  induction l as [|x l IH]; simpl; [constructor|].
  destruct (f x); by constructor.
Qed.

(** X5. The display filter keeps the posts in their order, and keeps
    a post exactly when it passes each test that is switched on: not a reply,
    not a boost, dated at or after the start date, dated before the day after
    the end date; replies and dates are those of the boosted post for a
    boost. *)
Theorem display_filter_spec (f : DisplayFilter) (l : list Status) :
  display_pool f l `sublist_of` l ∧
  ∀ s, s ∈ display_pool f l ↔
       s ∈ l ∧
       (showReplies f = false → is_reply s = false) ∧
       (showReblogs f = false → is_reblog s = false) ∧
       (∀ d, startDate f = Some d → time_ge (dateToCheck s) d = true) ∧
       (∀ d, endDate f = Some d →
             time_lt (dateToCheck s) (time_add d 86400000) = true).
Proof.
  unfold display_pool. split.
  - destruct (showReplies f), (showReblogs f), (startDate f), (endDate f);
      repeat (etrans; [apply List_filter_sublist|]); done.
  - intros s.
    destruct (showReplies f), (showReblogs f), (startDate f) as [d1|],
      (endDate f) as [d2|]; rewrite ?List_filter_elem, ?negb_true_iff;
      split; intros H; repeat split; try apply H; try done;
      try (intros ? [= <-]; apply H); try (by intros; apply H);
      try (destruct H as (? & ? & ? & ? & ?); eauto).
Qed.


(** Removing from a list with distinct ids the items with the id of one of
    them removes that one item. *)
Lemma remove_by_id (l : list Status) (s : Status) :
  NoDup (id <$> l) → s ∈ l →
  s :: filter (λ x, id x ≠ id s) l ≡ₚ l.
Proof.
  induction l as [|x l IH]; intros Hnd Hin; [by apply not_elem_of_nil in Hin|].
  rewrite fmap_cons in Hnd. apply NoDup_cons in Hnd as [Hx Hnd].
  apply elem_of_cons in Hin as [->|Hin].
  - rewrite filter_cons_False by (intros H; by apply H).
    rewrite filter_all; [done|].
    intros y Hy E. apply Hx. rewrite <- E. by apply list_elem_of_fmap_2.
  - rewrite filter_cons_True.
    + rewrite Permutation_swap. f_equiv. by apply IH.
    + intros E. apply Hx. rewrite E. by apply list_elem_of_fmap_2.
Qed.

Lemma pick_step (u : nat) (w : World) (a : Account) (first : Status) (av : list Status) :
  currentAccount (state w) = Some a →
  filter (λ s, id s ∉ viewedIds (state w))
    (display_pool (displayFilter (state w)) (allStatuses (state w)))
  = first :: av →
  ∃ w' s, pickRandomStatus u false w = (w', Picked s) ∧
          s ∈ first :: av ∧
          currentAccount (state w') = Some a ∧
          allStatuses (state w') = allStatuses (state w) ∧
          displayFilter (state w') = displayFilter (state w) ∧
          viewedIds (state w') = {[ id s ]} ∪ viewedIds (state w).
Proof.
  intros Ha Hav. unfold pickRandomStatus. rewrite Ha.
  destruct (allStatuses (state w)) as [|s0 l] eqn:El.
  { by rewrite display_pool_nil in Hav. }
  destruct (display_pool _ _) as [|p0 pool'] eqn:Ep; [done|].
  rewrite Hav. eexists _, _. split; [reflexivity|].
  split; [|simpl; by rewrite Ha, El].
  apply list_elem_of_In, (nth_In (first :: av)), Nat.mod_upper_bound. simpl. lia.
Qed.

Lemma sweep_aux (draws : list nat) : ∀ (w : World) (a : Account),
  currentAccount (state w) = Some a →
  let available w :=
    filter (λ s, id s ∉ viewedIds (state w))
      (display_pool (displayFilter (state w)) (allStatuses (state w))) in
  NoDup (id <$> available w) →
  length draws = length (available w) →
  (session (Pick <$> draws) w).2 ≡ₚ available w ∧
  available (session (Pick <$> draws) w).1 = [] ∧
  currentAccount (state (session (Pick <$> draws) w).1) = Some a ∧
  allStatuses (state (session (Pick <$> draws) w).1) = allStatuses (state w) ∧
  displayFilter (state (session (Pick <$> draws) w).1) = displayFilter (state w).
Proof.
  induction draws as [|u draws IH]; intros w a Ha available Hnd Hlen.
  { simpl in *. symmetry in Hlen. apply nil_length_inv in Hlen.
    by rewrite Hlen. }
  destruct (available w) as [|first av] eqn:Eav; [done|].
  destruct (pick_step u w a first av Ha Eav)
    as (w1 & s & Hpick & Hs & Ha1 & Hall1 & Hf1 & Hv1).
  assert (Eav1 : available w1 = filter (λ x, id x ≠ id s) (first :: av)).
  { unfold available. rewrite Hall1, Hf1, Hv1, <- Eav. unfold available.
    rewrite list_filter_filter. apply list_filter_iff. intros x.
    rewrite not_elem_of_union, not_elem_of_singleton. tauto. }
  pose proof (remove_by_id _ _ Hnd Hs) as Hperm.
  destruct (IH w1 a Ha1) as (Hp & Hend & Ha' & Hall' & Hf').
  { fold (available w1). rewrite Eav1.
    apply (sublist_NoDup _ (id <$> first :: av)); [exact Hnd | apply fmap_sublist, sublist_filter]. }
  { fold (available w1). rewrite Eav1.
    apply Permutation_length in Hperm. simpl in *. lia. }
  fold (available w1) in Hp, Hend.
  rewrite fmap_cons. remember (Pick <$> draws) as acts eqn:Eacts.
  simpl. rewrite Hpick.
  destruct (session acts w1) as [w' picked]. simpl in *.
  split; [|split; [done|split; [done|split; congruence]]].
  rewrite Hp, Eav1. exact Hperm.
Qed.

(** X6. With the posts of the pool carrying distinct ids, as many picks
    as there are unviewed posts in the filtered pool return each of these
    posts once, whatever the random draws, and the pick after them signals
    that everything was seen. *)
Theorem picks_sweep_pool (draws : list nat) (u : nat) (w : World) :
  is_Some (currentAccount (state w)) →
  let pool := display_pool (displayFilter (state w)) (allStatuses (state w)) in
  let available := filter (λ s, id s ∉ viewedIds (state w)) pool in
  NoDup (id <$> available) →
  length draws = length available →
  (session (Pick <$> draws) w).2 ≡ₚ available ∧
  (pool ≠ [] →
   (pickRandomStatus u false (session (Pick <$> draws) w).1).2 = Exhausted).
Proof.
  intros [a Ha] pool available Hnd Hlen.
  destruct (sweep_aux draws w a Ha Hnd Hlen) as (Hperm & Hend & Ha' & Hall & Hf).
  split; [exact Hperm|]. intros Hpool.
  set (w' := (session (Pick <$> draws) w).1) in *.
  destruct (pick_loaded u false w') as [(Hp & _) | [(_ & _ & E) | (_ & Hav & _)]].
  - by eexists.
  - rewrite Hall. intros E. apply Hpool. subst pool. by rewrite E, display_pool_nil.
  - by rewrite Hall, Hf in Hp.
  - by rewrite E.
  - done.
Qed.

Lemma picks_sweep_pool_witness :
  let w := Sample.world_of all [Sample.p1; Sample.p2] ∅ in
  (session (Pick <$> [3; 8]%nat) w).2 ≡ₚ [Sample.p1; Sample.p2] ∧
  ([Sample.p1; Sample.p2] ≠ [] →
   (pickRandomStatus 1 false (session (Pick <$> [3; 8]%nat) w).1).2 = Exhausted).
Proof.
  refine (picks_sweep_pool [3; 8]%nat 1
            (Sample.world_of all [Sample.p1; Sample.p2] ∅) _ _ _).
  - by eexists.
  - apply (bool_decide_unpack _). reflexivity.
  - reflexivity.
Defined.

(** ** Imports and the raw export *)

Section MoreSnapshots.

Variable parser : list Activity → string + (list Status * option Account).

(** The world an import starts from, once it has cleared the session. *)
Lemma upload_result content w :
  handleFileUpload parser (JsonFile content) w
  = let w0 := with_state
                (with_collection None []
                   (with_view None (viewedIds (state w))
                      (with_error None (with_loading true (state w))))) w in
    match load_snapshot parser content w0 with
    | inr w' => with_state (with_loading false (state w')) w'
    | inl message =>
        with_state
          (with_loading false
             (with_error (Some (message_or message "解析文件失败")) (state w0))) w0
    end.
Proof.
  unfold handleFileUpload. simpl. by destruct (load_snapshot _ _ _).
Qed.

(** What a successful [load_snapshot] leaves. *)
Lemma load_snapshot_ok content w w' :
  load_snapshot parser content w = inr w' →
  ∃ j statuses a restored,
    content = Parsed j ∧
    detect_format parser j = inr (statuses, Some a, restored) ∧
    currentAccount (state w') = Some a ∧
    allStatuses (state w') = statuses ∧
    error (state w') = error (state w) ∧
    cached_data (localStorage w') = cached_data (localStorage w) ∧
    match restored with
    | Some ids =>
        viewedIds (state w') = ids ∧
        seen_statuses (localStorage w')
        = <[acct_id a := elements ids]> (seen_statuses (localStorage w))
    | None =>
        localStorage w' = localStorage w ∧
        viewedIds (state w')
        = match seen_statuses (localStorage w) !! acct_id a with
          | Some l => list_to_set l
          | None => ∅
          end
    end.
Proof.
  unfold load_snapshot. destruct content as [m|j]; [done|].
  destruct (detect_format parser j) as [m|[[statuses [a|]] restored]] eqn:E; [done| |done].
  intros [= <-]. exists j, statuses, a, restored.
  split; [done|]. split; [done|].
  destruct restored as [ids|]; destruct (String.eqb (url a) ""); simpl; done.
Qed.

End MoreSnapshots.

(** X7. An import of a JSON file ends with the loading flag unset and
    the cache untouched, and either it has failed, with an error set, no
    account, no post, the viewed set and the store as before, or it has set
    an account and no error. *)
Theorem import_fails_or_loads
    (parser : list Activity → string + (list Status * option Account))
    (content : FileContent) (w : World) :
  let w' := handleFileUpload parser (JsonFile content) w in
  loading (state w') = false ∧
  cached_data (localStorage w') = cached_data (localStorage w) ∧
  ((error (state w') ≠ None ∧
    currentAccount (state w') = None ∧
    allStatuses (state w') = [] ∧
    currentStatus (state w') = None ∧
    viewedIds (state w') = viewedIds (state w) ∧
    localStorage w' = localStorage w) ∨
   (error (state w') = None ∧ is_Some (currentAccount (state w')))).
Proof.
  cbv zeta. rewrite upload_result. cbv zeta.
  destruct (load_snapshot _ _ _) as [m|w'] eqn:E.
  - simpl. split; [done|]. split; [done|]. left. by repeat split.
  - apply load_snapshot_ok in E
      as (j & statuses & a & restored & _ & _ & Ha & _ & He & Hc & _).
    simpl. split; [done|]. split; [by rewrite Hc|]. right.
    split; [by rewrite He|]. by rewrite Ha.
Qed.

(** X8. The raw export of a session, imported into any session, restores
    the collection; the account is the one of the first post, the viewed
    set is the one stored for that account, and the store is untouched. *)
Theorem raw_roundtrip
    (parser : list Activity → string + (list Status * option Account))
    (w w0 : World) (first : Status) (rest : list Status) (a : Account) :
  is_Some (currentAccount (state w)) →
  allStatuses (state w) = first :: rest →
  id first ≠ "" →
  account first = Some a →
  ∃ j, handleDownloadRaw w = Some j ∧
       let w' := handleFileUpload parser (JsonFile (Parsed j)) w0 in
       allStatuses (state w') = allStatuses (state w) ∧
       currentAccount (state w') = Some a ∧
       viewedIds (state w') = viewedIds (state (loadHistory (acct_id a) w0)) ∧
       localStorage w' = localStorage w0 ∧
       error (state w') = None.
Proof.
  intros [acc Hacc] Hall Hid Ha. unfold handleDownloadRaw. rewrite Hacc, Hall.
  eexists. split; [reflexivity|].
  cbv zeta. rewrite upload_result. cbv zeta.
  unfold load_snapshot, detect_format.
  apply String.eqb_neq in Hid. rewrite Hid, Ha.
  by destruct (String.eqb (url a) "").
Qed.

Lemma raw_roundtrip_witness :
  let w := Sample.world_of all [Sample.p1; Sample.p2] {[ "2" ]} in
  let w0 := Sample.world_of limit_count [] ∅ in
  ∃ j, handleDownloadRaw w = Some j ∧
       let w' := handleFileUpload Sample.no_parser (JsonFile (Parsed j)) w0 in
       allStatuses (state w') = [Sample.p1; Sample.p2] ∧
       currentAccount (state w') = Some Sample.alice ∧
       viewedIds (state w') = viewedIds (state (loadHistory "109" w0)) ∧
       localStorage w' = localStorage w0 ∧
       error (state w') = None.
Proof.
  apply (raw_roundtrip Sample.no_parser
           (Sample.world_of all [Sample.p1; Sample.p2] {[ "2" ]})
           (Sample.world_of limit_count [] ∅) Sample.p1 [Sample.p2] Sample.alice);
    [by eexists | reflexivity | discriminate | reflexivity].
Defined.

(** X9. An import writes to the stored history of no account
    but the one it loads. *)
Theorem import_touches_one_history
    (parser : list Activity → string + (list Status * option Account))
    (content : FileContent) (w : World) (b : string) :
  let w' := handleFileUpload parser (JsonFile content) w in
  (∀ a, currentAccount (state w') = Some a → acct_id a ≠ b) →
  seen_statuses (localStorage w') !! b = seen_statuses (localStorage w) !! b.
Proof.
  cbv zeta. rewrite upload_result. cbv zeta.
  destruct (load_snapshot _ _ _) as [m|w'] eqn:E; [done|].
  apply load_snapshot_ok in E
    as (j & statuses & a & restored & _ & _ & Ha & _ & _ & _ & Hr).
  simpl. rewrite Ha. intros Hb. specialize (Hb a eq_refl).
  destruct restored as [ids|].
  - destruct Hr as [_ ->]. by rewrite lookup_insert_ne.
  - by destruct Hr as [-> _].
Qed.

Lemma import_touches_one_history_witness :
  let w := Sample.world_of all [] ∅ in
  seen_statuses
    (localStorage
       (handleFileUpload Sample.no_parser
          (JsonFile (Parsed (JArray [Sample.p1]))) w)) !! "110"
  = seen_statuses (localStorage w) !! "110".
Proof.
  apply (import_touches_one_history Sample.no_parser
           (Parsed (JArray [Sample.p1])) (Sample.world_of all [] ∅) "110").
  intros a H. injection H as <-. discriminate.
Defined.

(** ** What a walk changes *)

Section Frame.

Implicit Types (k : Walk) (t : Tick) (ticks : list Tick) (w : World).

Lemma same_view_refl w : same_view w w.
Proof. by unfold same_view. Qed.

Lemma same_view_trans w1 w2 w3 :
  same_view w1 w2 → same_view w2 w3 → same_view w1 w3.
Proof.
  unfold same_view. intros (?&?&?&?&?&?&?&?) (?&?&?&?&?&?&?&?).
  repeat split; congruence.
Qed.

Lemma handle_view a w :
  same_view w (handle a w) ∧
  fetchCount (state (handle a w)) = fetchCount (state w) ∧
  allStatuses (state (handle a w)) = allStatuses (state w) ∧
  (flags_agree w → flags_agree (handle a w)).
Proof.
  destruct a; unfold handle, togglePause, stopFetch, same_view, flags_agree; simpl;
    destruct (pausedRef w) eqn:E; simpl; repeat split; try done.
Qed.

Lemma handle_all_view acts : ∀ w,
  same_view w (handle_all acts w) ∧
  fetchCount (state (handle_all acts w)) = fetchCount (state w) ∧
  allStatuses (state (handle_all acts w)) = allStatuses (state w) ∧
  (flags_agree w → flags_agree (handle_all acts w)).
Proof.
  induction acts as [|a acts IH]; intros w.
  { split; [apply same_view_refl|done]. }
  change (handle_all (a :: acts) w) with (handle_all acts (handle a w)).
  destruct (IH (handle a w)) as (Hv & Hc & Ha & Hf).
  destruct (handle_view a w) as (Hv' & Hc' & Ha' & Hf').
  split; [by eapply same_view_trans|]. repeat split; try congruence. auto.
Qed.

Lemma grown_refl k : grown_by [] k k.
Proof.
  unfold grown_by. rewrite app_nil_r, Nat.add_0_r.
  by destruct (is_newer (type k)).
Qed.

Lemma grown_trans a1 a2 k1 k2 k3 :
  type k2 = type k1 →
  grown_by a1 k1 k2 → grown_by a2 k2 k3 →
  grown_by (if is_newer (type k1) then a2 ++ a1 else a1 ++ a2) k1 k3.
Proof.
  unfold grown_by. intros Ety (H1 & H2 & H3) (H4 & H5 & H6).
  rewrite Ety in H4. split; [|split; [|by auto]].
  - rewrite H4, H1. destruct (is_newer (type k1)); by rewrite app_assoc.
  - rewrite H5, H2. destruct (is_newer (type k1)); rewrite length_app; lia.
Qed.

Lemma click_grown acts k : grown_by [] k (click acts k).
Proof.
  destruct (handle_all_view acts (world k)) as (_ & Hc & Ha & _).
  unfold grown_by, click. simpl. rewrite Ha, Hc, app_nil_r, Nat.add_0_r.
  by destruct (is_newer (type k)).
Qed.

Lemma merge_grown fb k : grown_by fb k (merge fb k).
Proof.
  destruct fb as [|s fb]; [apply grown_refl|].
  unfold grown_by. simpl. by destruct (is_newer (type k)).
Qed.

Lemma merge_view fb k :
  same_view (world k) (world (merge fb k)) ∧
  pausedRef (world (merge fb k)) = pausedRef (world k) ∧
  isPaused (state (world (merge fb k))) = isPaused (state (world k)).
Proof. destruct fb; [split; [apply same_view_refl|done]|]. by unfold same_view. Qed.

(** One iteration adds to the collection a part of the page it received,
    and leaves the rest of the session alone. *)
Lemma iteration_frame t k :
  let k' := (iteration t k).1.1 in
  same_view (world k) (world k') ∧
  type k' = type k ∧ accountId k' = accountId k ∧ sinceId k' = sinceId k ∧
  (flags_agree (world k) → flags_agree (world k')) ∧
  ∃ added, grown_by added k k'.
Proof.
  unfold iteration.
  destruct (pausedRef (world k)) eqn:Ep; simpl.
  { destruct (handle_all_view (on_pause t) (world k)) as (Hv & _ & _ & Hf).
    split_and!; try done. eexists. apply click_grown. }
  destruct (handle_all_view (on_fetch t) (world k)) as (Hv & Hc & Ha & Hf).
  pose proof (click_grown (on_fetch t) k) as Hg.
  set (k1 := click (on_fetch t) k) in *.
  destruct (reply t (statusesUrl k)) as [message|[|b0 batch']]; simpl.
  - split_and!; try done. by eexists.
  - split_and!; try done. by eexists.
  - set (batch := b0 :: batch').
    unfold process_page.
    destruct (truncate_by_date k1 batch) as [fb keep].
    set (k2 := with_keepFetching keep k1).
    assert (Hg2 : grown_by fb k1 (merge fb k2)) by apply (merge_grown fb k2).
    destruct (merge_view fb k2) as (Hv2 & Hp2 & Hi2).
    destruct (merge_spec fb k2) as (Ety2 & _).
    destruct (stop_at_count_spec (merge fb k2)) as (Ety3 & Ew3 & Ec3).
    set (k3 := stop_at_count (merge fb k2)) in *.
    assert (Hg3 : grown_by fb k k3).
    { destruct Hg as (G1 & G2 & G3), Hg2 as (G4 & G5 & G6).
      change (type k1) with (type k) in G4.
      unfold grown_by. rewrite Ew3, Ec3. split_and!.
      - rewrite G4, G1, app_nil_r. by destruct (is_newer (type k)).
      - rewrite G5, G2. simpl. lia.
      - intros E. apply G6, G3, E. }
    assert (Hv3 : same_view (world k) (world k3)).
    { rewrite Ew3. eapply same_view_trans; [exact Hv|exact Hv2]. }
    assert (Hf3 : flags_agree (world k) → flags_agree (world k3)).
    { intros H. specialize (Hf H). unfold flags_agree in *. rewrite Ew3, Hp2, Hi2.
      exact Hf. }
    assert (Effs : type k3 = type k ∧ accountId k3 = accountId k ∧ sinceId k3 = sinceId k).
    { rewrite Ety3, Ety2. split; [done|].
      unfold k3, stop_at_count.
      destruct (mode _), (type (merge fb k2));
        try case_bool_decide; destruct fb; done. }
    destruct Effs as (E1 & E2 & E3).
    destruct (keepFetching k3); [destruct (is_newer (type k3))|]; simpl.
    + split_and!; try done. by eexists.
    + destruct (handle_all_view (on_delay t) (world k3)) as (Hv4 & Hc4 & Ha4 & Hf4).
      split_and!; try done; [by eapply same_view_trans|auto|].
      exists fb. destruct Hg3 as (G1 & G2 & G3). unfold grown_by. simpl.
      rewrite Ha4, Hc4. by repeat split.
    + split_and!; try done. by eexists.
Qed.

End Frame.

Section Walks.

Implicit Types (k : Walk) (t : Tick) (ticks : list Tick) (w : World).

Lemma loop_frame ticks : ∀ k,
  let k' := final (while_loop ticks k).1 in
  same_view (world k) (world k') ∧
  type k' = type k ∧ accountId k' = accountId k ∧
  (flags_agree (world k) → flags_agree (world k')) ∧
  ∃ added, grown_by added k k'.
Proof.
  induction ticks as [|t ticks IH]; intros k; simpl.
  { destruct (negb (keepFetching k)), (stopRef (world k)); simpl;
      (split_and!; [apply same_view_refl|done..|eexists; apply grown_refl]). }
  destruct (negb (keepFetching k)); simpl;
    [split_and!; [apply same_view_refl|done..|eexists; apply grown_refl]|].
  destruct (stopRef (world k)); simpl;
    [split_and!; [apply same_view_refl|done..|eexists; apply grown_refl]|].
  pose proof (iteration_frame t k) as Hit.
  destruct (iteration t k) as [[k1 evs] c]. simpl in Hit.
  destruct Hit as (Hv & Ety & Eacc & _ & Hf & added & Hg).
  destruct c as [| |message]; simpl; [|by split_and!; try done; eexists..].
  specialize (IH k1). destruct (while_loop ticks k1) as [o evs']. simpl in *.
  destruct IH as (Hv' & Ety' & Eacc' & Hf' & added' & Hg').
  split_and!; [by eapply same_view_trans|congruence|congruence|auto|].
  eexists. by eapply grown_trans.
Qed.

End Walks.

(** The world in which the loop of [executeFetch] is entered, or its first
    step fails. *)
Lemma entry_world (ty : FetchType) (pre : Prelude) (w : World) :
  let w1 := (find_account ty pre (begin_fetch ty w)).1 in
  let r := (find_account ty pre (begin_fetch ty w)).2 in
  allStatuses (state w1) = (if is_initial ty then [] else allStatuses (state w)) ∧
  fetchCount (state w1) = 0%nat ∧
  error (state w1) = None ∧
  flags_agree w1 ∧
  localStorage w1 = localStorage w ∧
  (ty ≠ initial →
   viewedIds (state w1) = viewedIds (state w) ∧
   currentAccount (state w1) = currentAccount (state w) ∧
   currentStatus (state w1) = currentStatus (state w) ∧
   displayFilter (state w1) = displayFilter (state w) ∧
   fetchConfig (state w1) = fetchConfig (state w) ∧
   urlInput (state w1) = urlInput (state w)) ∧
  (ty = initial → stopRef w1 = bool_decide (StopButton ∈ early pre)) ∧
  (∀ account, r = inr account →
     ∃ acc, currentAccount (state w1) = Some acc ∧ account = acct_id acc ∧
            (ty = initial → resolve pre = inr acc)).
Proof.
  destruct ty; cbv zeta; unfold find_account.
  - (* initial *)
    destruct (handle_all_view (early pre) (begin_fetch initial w))
      as ((Hv1 & Hv2 & Hv3 & Hv4 & Hv5 & Hv6 & Hv7 & Hv8) & Hc & Ha & Hf).
    set (w0 := handle_all (early pre) (begin_fetch initial w)) in *.
    assert (Hstop : stopRef w0 = bool_decide (StopButton ∈ early pre)).
    { subst w0. case_bool_decide.
      - by apply handle_all_stop.
      - by rewrite handle_all_no_stop. }
    destruct (resolve pre) as [message|acc] eqn:Er; simpl.
    + split_and!; try done. by apply Hf.
    + split_and!; try done.
      * specialize (Hf eq_refl). exact Hf.
      * intros account [= <-]. by exists acc.
  - (* older *)
    destruct (currentAccount (state (begin_fetch older w))) as [a|] eqn:Ea;
      [destruct (domain_ok pre)|]; simpl; split_and!; try done.
    intros account [= <-]. by exists a.
  - (* newer *)
    destruct (currentAccount (state (begin_fetch newer w))) as [a|] eqn:Ea;
      [destruct (domain_ok pre)|]; simpl; split_and!; try done.
    intros account [= <-]. by exists a.
Qed.

Lemma executeFetch_ends (ty : FetchType) (pre : Prelude) (ticks : list Tick)
    (w w' : World) (evs : list Event) :
  executeFetch ty pre ticks w = (Some w', evs) →
  let w1 := (find_account ty pre (begin_fetch ty w)).1 in
  let r := (find_account ty pre (begin_fetch ty w)).2 in
  (∃ m, r = inl m ∧ w' = end_fetch (catch_error m w1) ∧ evs = []) ∨
  (∃ account k,
     r = inr account ∧
     while_loop ticks (enter_loop ty account w1) = (Finished k, evs) ∧
     w' = end_fetch (after_loop pre k)) ∨
  (∃ account m k,
     r = inr account ∧
     while_loop ticks (enter_loop ty account w1) = (Thrown m k, evs) ∧
     w' = end_fetch (catch_error m (world k))).
Proof.
  unfold executeFetch. cbv zeta.
  destruct (find_account ty pre (begin_fetch ty w)) as [w1 [m|account]]; simpl.
  { intros [= <- <-]. left. by exists m. }
  destruct (while_loop ticks (enter_loop ty account w1)) as [[k|m k|k] evs0] eqn:E;
    [intros [= <- <-]..|intros [=]].
  - right. left. by exists account, k.
  - right. right. by exists account, m, k.
Qed.

Lemma after_loop_keeps (pre : Prelude) (k : Walk) :
  allStatuses (state (after_loop pre k)) = allStatuses (state (world k)) ∧
  fetchCount (state (after_loop pre k)) = fetchCount (state (world k)) ∧
  viewedIds (state (after_loop pre k)) = viewedIds (state (world k)) ∧
  currentAccount (state (after_loop pre k)) = currentAccount (state (world k)) ∧
  currentStatus (state (after_loop pre k)) = currentStatus (state (world k)) ∧
  displayFilter (state (after_loop pre k)) = displayFilter (state (world k)) ∧
  fetchConfig (state (after_loop pre k)) = fetchConfig (state (world k)) ∧
  urlInput (state (after_loop pre k)) = urlInput (state (world k)) ∧
  seen_statuses (localStorage (after_loop pre k))
  = seen_statuses (localStorage (world k)) ∧
  (type k ≠ initial → after_loop pre k = world k).
Proof.
  unfold after_loop, cache_statuses.
  destruct (type k); simpl; [|by split_and!..].
  destruct (_ && _); simpl; [by split_and!|].
  destruct (quota_ok pre); by split_and!.
Qed.



(** X11. An older or newer walk that ends leaves the viewed set,
    the account, the post on display, the filters and the store as they were,
    and unsets the loading flag; without a current account it makes no request
    and reports that no account was found. *)
Theorem continuing_keeps_view (ty : FetchType) (pre : Prelude) (ticks : list Tick)
    (w w' : World) (evs : list Event) :
  ty ≠ initial →
  executeFetch ty pre ticks w = (Some w', evs) →
  viewedIds (state w') = viewedIds (state w) ∧
  currentAccount (state w') = currentAccount (state w) ∧
  currentStatus (state w') = currentStatus (state w) ∧
  displayFilter (state w') = displayFilter (state w) ∧
  fetchConfig (state w') = fetchConfig (state w) ∧
  localStorage w' = localStorage w ∧
  loading (state w') = false ∧
  (currentAccount (state w) = None →
   evs = [] ∧ error (state w') = Some "未找到账户信息" ∧
   allStatuses (state w') = allStatuses (state w)).
Proof.
  intros Hty Hrun. apply executeFetch_ends in Hrun. cbv zeta in Hrun.
  destruct (entry_world ty pre w) as (Hall & _ & _ & _ & Hst & Hview & _ & Hacc).
  destruct (Hview Hty) as (V1 & V2 & V3 & V4 & V5 & V6).
  assert (Hnone : currentAccount (state w) = None →
            (find_account ty pre (begin_fetch ty w)).2 = inl "未找到账户信息").
  { intros Hn. destruct ty; [done|..]; unfold find_account; simpl; by rewrite Hn. }
  set (w1 := (find_account ty pre (begin_fetch ty w)).1) in *.
  set (r := (find_account ty pre (begin_fetch ty w)).2) in *.
  destruct Hrun as [(m & Hr & -> & ->) | [(account & k & Hr & E & ->) | (account & m & k & Hr & E & ->)]].
  - simpl. split_and!; try done. intros Hn. rewrite (Hnone Hn) in Hr.
    injection Hr as <-. split_and!; try done.
    rewrite Hall. by destruct ty.
  - destruct (loop_frame ticks (enter_loop ty account w1))
      as ((L1 & L2 & L3 & L4 & L5 & L6 & L7 & L8) & Ety & _).
    rewrite E in L1, L2, L3, L4, L5, L6, L7, L8, Ety. simpl in *.
    destruct (after_loop_keeps pre k) as (_ & _ & _ & _ & _ & _ & _ & _ & _ & K).
    rewrite K by (by rewrite Ety). simpl.
    split_and!; try congruence.
    intros Hn. rewrite (Hnone Hn) in Hr. done.
  - destruct (loop_frame ticks (enter_loop ty account w1))
      as ((L1 & L2 & L3 & L4 & L5 & L6 & L7 & L8) & Ety & _).
    rewrite E in L1, L2, L3, L4, L5, L6, L7, L8, Ety. simpl in *.
    split_and!; try congruence.
    intros Hn. rewrite (Hnone Hn) in Hr. done.
Qed.

Lemma continuing_keeps_view_witness :
  let posts := [Sample.p1; Sample.p2; Sample.p3] in
  let w := Sample.world_of all [Sample.post "9" 9000] {[ "9" ]} in
  let ticks := [Sample.quiet posts 120; Sample.quiet posts 80] in
  viewedIds (state (default w (executeFetch older More.uncached ticks w).1))
  = viewedIds (state w).
Proof.
  refine (proj1 (continuing_keeps_view older More.uncached
                   [Sample.quiet [Sample.p1; Sample.p2; Sample.p3] 120;
                    Sample.quiet [Sample.p1; Sample.p2; Sample.p3] 80]
                   (Sample.world_of all [Sample.post "9" 9000] {[ "9" ]}) _
                   (executeFetch older More.uncached
                      [Sample.quiet [Sample.p1; Sample.p2; Sample.p3] 120;
                       Sample.quiet [Sample.p1; Sample.p2; Sample.p3] 80]
                      (Sample.world_of all [Sample.post "9" 9000] {[ "9" ]})).2
                   _ _)).
  - discriminate.
  - reflexivity.
Defined.

Section StopFlag.

Implicit Types (k : Walk) (t : Tick) (ticks : list Tick) (w : World).

Lemma after_stop_none_clicks acts evs :
  after_stop ((Clicked <$> acts) ++ evs) = None →
  (StopButton ∉ acts) ∧ after_stop evs = None.
Proof.
  intros H. destruct (decide (StopButton ∈ acts)) as [Hin|Hout].
  - destruct (after_stop_clicks_in acts evs Hin) as [acts' E]. congruence.
  - split; [done|]. by rewrite after_stop_clicks_out in H.
Qed.

(** Without the stop button, the stop flag is where it was. *)
Lemma iteration_no_stop t k :
  after_stop (iteration t k).1.2 = None →
  stopRef (world (iteration t k).1.1) = stopRef (world k).
Proof.
  unfold iteration.
  destruct (pausedRef (world k)) eqn:Ep; simpl.
  { intros H. apply after_stop_none_clicks in H as [Hout _].
    by apply handle_all_no_stop. }
  destruct (reply t (statusesUrl k)) as [message|[|b0 batch']]; simpl.
  - intros H. apply after_stop_none_clicks in H as [Hout _].
    by apply handle_all_no_stop.
  - intros H. apply after_stop_none_clicks in H as [Hout _].
    by apply handle_all_no_stop.
  - pose proof (process_page_cases t (b0 :: batch') (click (on_fetch t) k)) as Hp.
    destruct (process_page t (b0 :: batch') (click (on_fetch t) k)) as [k' evs'].
    simpl in Hp. destruct Hp as (_ & _ & Hp). simpl.
    rewrite <- app_assoc. intros H.
    apply after_stop_none_clicks in H as [Hout H]. simpl in H.
    destruct Hp as [(_ & _ & ->) | (_ & _ & _ & -> & w1 & -> & Hs)].
    + by apply handle_all_no_stop.
    + apply after_stop_none_clicks in H as [Hout' _].
      rewrite handle_all_no_stop by done. rewrite Hs. by apply handle_all_no_stop.
Qed.

Lemma loop_no_stop ticks : ∀ k,
  after_stop (while_loop ticks k).2 = None →
  stopRef (world (final (while_loop ticks k).1)) = stopRef (world k).
Proof.
  induction ticks as [|t ticks IH]; intros k; simpl.
  { destruct (negb (keepFetching k)); [done|].
    by destruct (stopRef (world k)) eqn:Es. }
  destruct (negb (keepFetching k)); [done|].
  destruct (stopRef (world k)) eqn:Es; [done|].
  pose proof (iteration_no_stop t k) as Hit.
  pose proof (iteration_cases t k) as Hshape.
  destruct (iteration t k) as [[k1 evs] c]. simpl in Hit, Hshape.
  destruct c as [| |message]; simpl; [|by rewrite <- Es; auto..].
  specialize (IH k1). destruct (while_loop ticks k1) as [o evs']. simpl in *.
  intros H.
  assert (Hsplit : after_stop evs = None ∧ after_stop evs' = None).
  { destruct Hshape as (_ & _ & [(_ & _ & -> & _) | (_ & tail & -> & Htail)]).
    - rewrite <- app_assoc in H. apply after_stop_none_clicks in H as [Hout H].
      simpl in H. split; [|done].
      by rewrite after_stop_clicks_out.
    - simpl in H. rewrite <- app_assoc in H.
      apply after_stop_none_clicks in H as [Hout H]. simpl in H.
      destruct Htail as [(-> & _) | (-> & _)].
      + simpl in *. split; [|done]. by rewrite after_stop_clicks_out.
      + rewrite <- app_assoc in H. apply after_stop_none_clicks in H as [Hout' H].
        simpl in H. split; [|done]. simpl.
        rewrite after_stop_clicks_out by done. simpl.
        by rewrite after_stop_clicks_out. }
  destruct Hsplit as [H1 H2]. rewrite IH by done. rewrite <- Es. by apply Hit.
Qed.

End StopFlag.

(** X12. An initial walk that ends with an empty collection,
    the stop button never pressed, ends with an error and leaves the store as
    it was: no empty cache is written. *)
Theorem empty_initial_walk_reports (pre : Prelude) (ticks : list Tick)
    (w w' : World) (evs : list Event) :
  executeFetch initial pre ticks w = (Some w', evs) →
  allStatuses (state w') = [] →
  StopButton ∉ early pre →
  after_stop evs = None →
  error (state w') ≠ None ∧ localStorage w' = localStorage w.
Proof.
  intros Hrun Hempty Hearly Hstop.
  apply executeFetch_ends in Hrun. cbv zeta in Hrun.
  destruct (entry_world initial pre w) as (Hall & Hcount & _ & _ & Hst & _ & Hs & _).
  specialize (Hs eq_refl). rewrite bool_decide_eq_false_2 in Hs by done.
  set (w1 := (find_account initial pre (begin_fetch initial w)).1) in *.
  destruct Hrun as [(m & _ & -> & _) | [(account & k & _ & E & ->) | (account & m & k & _ & E & ->)]].
  - simpl. done.
  - destruct (loop_frame ticks (enter_loop initial account w1))
      as ((_ & _ & _ & _ & _ & _ & _ & L8) & Ety & _ & _ & added & (G1 & G2 & _)).
    pose proof (loop_no_stop ticks (enter_loop initial account w1)) as Hns.
    rewrite E in L8, Ety, G1, G2, Hns. simpl in *.
    specialize (Hns Hstop).
    destruct (after_loop_keeps pre k) as (K1 & _).
    rewrite K1, G1, Hall in Hempty. simpl in Hempty. subst added.
    unfold after_loop. rewrite Ety, G2, Hns, Hs. simpl.
    split; [done|]. by rewrite L8.
  - destruct (loop_frame ticks (enter_loop initial account w1))
      as ((_ & _ & _ & _ & _ & _ & _ & L8) & _).
    rewrite E in L8. simpl in *. split; [done|]. by rewrite L8.
Qed.

Lemma empty_initial_walk_reports_witness :
  let w := Sample.world_of all [Sample.p1] ∅ in
  let w' := default w (executeFetch initial Sample.found [Sample.quiet [] 120] w).1 in
  error (state w') ≠ None ∧ localStorage w' = localStorage w.
Proof.
  refine (empty_initial_walk_reports Sample.found [Sample.quiet [] 120]
            (Sample.world_of all [Sample.p1] ∅) _
            (executeFetch initial Sample.found [Sample.quiet [] 120]
               (Sample.world_of all [Sample.p1] ∅)).2 _ _ _ _).
  - reflexivity.
  - reflexivity.
  - apply not_elem_of_nil.
  - reflexivity.
Defined.



(** X14. An initial walk that ends without error, the quota allowing, has
    cached its collection under the account of the walk; at the next page
    load, when the key of that cache comes first, [autoLoadCachedData] puts
    back the collection, with the account of its first post and the viewed
    set stored for that account. *)
Theorem cache_roundtrip (pre : Prelude) (ticks : list Tick) (w w' : World)
    (evs : list Event) (acc : Account) :
  executeFetch initial pre ticks w = (Some w', evs) →
  resolve pre = inr acc →
  quota_ok pre = true →
  error (state w') = None →
  cached_data (localStorage w') !! acct_id acc = Some (allStatuses (state w')) ∧
  ∀ (w2 : World) (keys : list string) (first : Status) (rest : list Status)
    (a : Account),
    localStorage w2 = localStorage w' →
    allStatuses (state w') = first :: rest →
    account first = Some a →
    let w3 := autoLoadCachedData (acct_id acc :: keys) w2 in
    allStatuses (state w3) = allStatuses (state w') ∧
    currentAccount (state w3) = Some a ∧
    viewedIds (state w3) = viewedIds (state (loadHistory (acct_id a) w2)).
Proof.
  intros Hrun Hres Hquota Herr.
  apply executeFetch_ends in Hrun. cbv zeta in Hrun.
  destruct (entry_world initial pre w) as (_ & _ & _ & _ & _ & _ & _ & Hacc).
  set (w1 := (find_account initial pre (begin_fetch initial w)).1) in *.
  assert (Hcache : cached_data (localStorage w') !! acct_id acc
                   = Some (allStatuses (state w'))).
  { destruct Hrun as [(m & _ & -> & _) | [(account & k & Hr & E & ->) | (account & m & k & _ & E & ->)]];
      [done| |done].
    destruct (Hacc account Hr) as (acc' & _ & -> & Hres').
    rewrite (Hres' eq_refl) in Hres. injection Hres as ->.
    destruct (loop_frame ticks (enter_loop initial (acct_id acc) w1))
      as (_ & Ety & Eacc & _).
    rewrite E in Ety, Eacc. simpl in Ety, Eacc.
    simpl in Herr. revert Herr.
    unfold after_loop, cache_statuses. rewrite Ety, Eacc, Hquota. simpl.
    destruct (_ && _); simpl; [done|]. intros _. by rewrite lookup_insert_eq. }
  split; [exact Hcache|].
  intros w2 keys first rest a Hst Hall Ha.
  unfold autoLoadCachedData. rewrite Hst, Hcache, Hall, Ha. simpl.
  by split_and!.
Qed.

Lemma cache_roundtrip_witness :
  let posts := [Sample.p1; Sample.p2; Sample.p3] in
  let w := Sample.world_of all [] ∅ in
  let ticks := [Sample.quiet posts 120; Sample.quiet posts 80] in
  let w' := default w (executeFetch initial Sample.found ticks w).1 in
  cached_data (localStorage w') !! "109" = Some (allStatuses (state w')).
Proof.
  refine (proj1 (cache_roundtrip Sample.found
                   [Sample.quiet [Sample.p1; Sample.p2; Sample.p3] 120;
                    Sample.quiet [Sample.p1; Sample.p2; Sample.p3] 80]
                   (Sample.world_of all [] ∅) _
                   (executeFetch initial Sample.found
                      [Sample.quiet [Sample.p1; Sample.p2; Sample.p3] 120;
                       Sample.quiet [Sample.p1; Sample.p2; Sample.p3] 80]
                      (Sample.world_of all [] ∅)).2
                   Sample.alice _ _ _ _)).
  - vm_compute. reflexivity.
  - reflexivity.
  - reflexivity.
  - vm_compute. reflexivity.
Defined.


(** ** The cursor of a walk *)

Section Chain.

Implicit Types (k : Walk) (t : Tick) (ticks : list Tick) (evs : list Event).

Lemma chained_clicks acts prev evs :
  chained prev ((Clicked <$> acts) ++ evs) = chained prev evs.
Proof. by induction acts. Qed.

Lemma cursor_after_clicks acts prev evs :
  cursor_after prev ((Clicked <$> acts) ++ evs) = cursor_after prev evs.
Proof. by induction acts. Qed.

Lemma chained_app evs : ∀ evs' prev,
  chained prev (evs ++ evs')
  = chained prev evs && chained (cursor_after prev evs) evs'.
Proof.
  induction evs as [|e evs IH]; intros evs' prev; [done|].
  destruct e as [r|l [m|[|b batch]]|ms|a]; simpl; rewrite ?IH; try done.
  by rewrite andb_assoc.
Qed.

Lemma iteration_chained t k :
  type k ≠ newer →
  let k' := (iteration t k).1.1 in
  let evs := (iteration t k).1.2 in
  chained (nextMaxId k) evs = true ∧
  (∀ r, r ∈ requests evs → same_query k r) ∧
  type k' = type k ∧ accountId k' = accountId k ∧ sinceId k' = sinceId k ∧
  fetchConfig (state (world k')) = fetchConfig (state (world k)) ∧
  (keepFetching k' = true → (iteration t k).2 = Continue →
   nextMaxId k' = cursor_after (nextMaxId k) evs).
Proof.
  intros Hty. unfold iteration.
  destruct (pausedRef (world k)) eqn:Ep; simpl.
  { destruct (handle_all_same (on_pause t) (world k)) as (_ & Ecfg & _).
    rewrite chained_clicks, cursor_after_clicks, requests_app, requests_clicks.
    split_and!; try done. intros r Hr. by apply not_elem_of_nil in Hr. }
  destruct (handle_all_same (on_fetch t) (world k)) as (_ & Ecfg & _).
  assert (Hq : ∀ tail r,
            r ∈ statusesUrl k
                :: requests ((Clicked <$> on_fetch t)
                             ++ Responded (latency t) (reply t (statusesUrl k)) :: tail) →
            requests tail = [] → same_query k r).
  { intros tail r Hr Htail. rewrite requests_app, requests_clicks in Hr.
    simpl in Hr. rewrite Htail in Hr. apply list_elem_of_singleton in Hr as ->.
    by unfold same_query. }
  destruct (reply t (statusesUrl k)) as [message|[|b0 batch']] eqn:Er; simpl.
  - rewrite chained_clicks, bool_decide_eq_true_2 by done.
    split_and!; try done. intros r Hr. by apply (Hq []).
  - rewrite chained_clicks, bool_decide_eq_true_2 by done.
    split_and!; try done. intros r Hr. by apply (Hq []).
  - set (batch := b0 :: batch') in *.
    pose proof (process_page_cases t batch (click (on_fetch t) k)) as Hp.
    assert (Hids : accountId (process_page t batch (click (on_fetch t) k)).1 = accountId k ∧
                   sinceId (process_page t batch (click (on_fetch t) k)).1 = sinceId k).
    { unfold process_page.
      destruct (truncate_by_date _ _) as [fb keep].
      set (k1 := with_keepFetching keep (click (on_fetch t) k)).
      assert (E : accountId (stop_at_count (merge fb k1)) = accountId k ∧
                  sinceId (stop_at_count (merge fb k1)) = sinceId k).
      { unfold stop_at_count.
        destruct (mode _), (type (merge fb k1));
          try case_bool_decide; destruct fb; done. }
      set (k2 := stop_at_count (merge fb k1)) in *.
      destruct (keepFetching k2); [destruct (is_newer (type k2))|]; done. }
    destruct (process_page t batch (click (on_fetch t) k)) as [k' evs'].
    simpl in Hp, Hids. destruct Hp as (Ety & Ecfg' & Hp). simpl.
    rewrite <- app_assoc, chained_clicks, cursor_after_clicks.
    rewrite bool_decide_eq_true_2 by done. simpl.
    destruct Hids as [Ea Es].
    destruct Hp as [(Hk & -> & _) | (Hk & Hn & Hc & -> & w1 & Hw & Hs)].
    + split_and!; try done; try congruence.
      intros r Hr. by apply (Hq []).
    + rewrite chained_clicks, cursor_after_clicks. split_and!; try done; try congruence.
      intros r Hr. apply (Hq ((Clicked <$> on_delay t) ++ [Slept 400%N]) r Hr).
      by rewrite requests_app, requests_clicks.
Qed.

Lemma loop_chained ticks : ∀ k,
  type k ≠ newer →
  chained (nextMaxId k) (while_loop ticks k).2 = true ∧
  ∀ r, r ∈ requests (while_loop ticks k).2 → same_query k r.
Proof.
  induction ticks as [|t ticks IH]; intros k Hty; simpl.
  { destruct (negb (keepFetching k)), (stopRef (world k)); simpl;
      (split; [done|intros r Hr; by apply not_elem_of_nil in Hr]). }
  destruct (negb (keepFetching k)); simpl;
    [split; [done|intros r Hr; by apply not_elem_of_nil in Hr]|].
  destruct (stopRef (world k)); simpl;
    [split; [done|intros r Hr; by apply not_elem_of_nil in Hr]|].
  pose proof (iteration_chained t k Hty) as Hit.
  destruct (iteration t k) as [[k1 evs] c]. simpl in Hit.
  destruct Hit as (Hch & Hq & Ety & Ea & Es & Ecfg & Hnext).
  destruct c as [| |message]; simpl; [|done..].
  destruct (IH k1) as (Hch1 & Hq1); [by rewrite Ety|].
  destruct (keepFetching k1) eqn:Ek1.
  - specialize (Hnext eq_refl eq_refl).
    destruct (while_loop ticks k1) as [o evs']. simpl in *.
    rewrite chained_app, Hch, <- Hnext.
    split; [done|]. intros r Hr.
    rewrite requests_app in Hr. apply elem_of_app in Hr as [Hr|Hr]; [by apply Hq|].
    destruct (Hq1 r Hr) as (Q1 & Q2 & Q3 & Q4 & Q5).
    unfold same_query. by rewrite <- Ea, <- Es, <- Ecfg.
  - rewrite while_loop_done by done. simpl. rewrite app_nil_r. done.
Qed.

End Chain.

Lemma executeFetch_trace (ty : FetchType) (pre : Prelude) (ticks : list Tick)
    (w : World) :
  (executeFetch ty pre ticks w).2
  = match (find_account ty pre (begin_fetch ty w)).2 with
    | inl _ => []
    | inr account =>
        (while_loop ticks
           (enter_loop ty account (find_account ty pre (begin_fetch ty w)).1)).2
    end.
Proof.
  unfold executeFetch. cbv zeta.
  destruct (find_account ty pre (begin_fetch ty w)) as [w1 [m|account]]; simpl; [done|].
  by destruct (while_loop ticks (enter_loop ty account w1)) as [[k|m k|k] evs].
Qed.

Lemma entry_config (ty : FetchType) (pre : Prelude) (w : World) :
  fetchConfig (state (find_account ty pre (begin_fetch ty w)).1)
  = fetchConfig (state w).
Proof.
  unfold find_account. destruct ty.
  - destruct (handle_all_same (early pre) (begin_fetch initial w)) as (_ & E & _).
    by destruct (resolve pre).
  - destruct (currentAccount _); [destruct (domain_ok pre)|]; done.
  - destruct (currentAccount _); [destruct (domain_ok pre)|]; done.
Qed.

Lemma requests_at_requests evs : ∀ prev, (requests_at prev evs).*2 = requests evs.
Proof.
  induction evs as [|e evs IH]; intros prev; [done|].
  destruct e as [r|l [m|[|b0 batch']]| |]; simpl; by rewrite ?IH.
Qed.

Lemma requests_at_chained evs : ∀ prev c r,
  chained prev evs = true →
  (c, r) ∈ requests_at prev evs →
  req_max_id r = cursor c ∧ r ∈ requests evs.
Proof.
  induction evs as [|e evs IH]; intros prev c r; simpl.
  { intros _ H. by apply not_elem_of_nil in H. }
  destruct e as [r'|l [m|[|b0 batch']]| |]; simpl; try by apply IH.
  intros [Hr Hch]%andb_true_iff Hin.
  apply bool_decide_eq_true in Hr.
  apply elem_of_cons in Hin as [[= -> ->]|Hin].
  - split; [done|by left].
  - destruct (IH _ _ _ Hch Hin). split; [done|by right].
Qed.

(** The cursor is pasted as it is: an id that holds [&since_id=9] gives
    the text of a request with both cursors. *)
Lemma cursor_pasted_as_is (domain account : string) :
  request_url domain
    {| req_account := account; req_limit := 40;
       req_exclude_replies := false; req_exclude_reblogs := false;
       req_max_id := Some "1&since_id=9"; req_since_id := None |}
  = request_url domain
      {| req_account := account; req_limit := 40;
         req_exclude_replies := false; req_exclude_reblogs := false;
         req_max_id := Some "1"; req_since_id := Some "9" |}.
Proof. reflexivity. Qed.

(** X16. The text of each request of an initial or older walk:
    the template with the id of the account of the walk and [limit=40], the
    exclusions of the fetch configuration, and, when the cursor is truthy,
    [&max_id=] followed by the cursor as it is, without encoding; nothing
    else is appended. The cursor is the id of the last post of the last
    non-empty page received before the request; for the first request, none
    in an initial walk, the id of the last post of the collection in an older
    walk. *)
Theorem requests_follow_cursor (ty : FetchType) (pre : Prelude)
    (ticks : list Tick) (w : World) (domain : string) :
  ty ≠ newer →
  let evs := (executeFetch ty pre ticks w).2 in
  let cfg := fetchConfig (state w) in
  let prev := if is_initial ty then None
              else id <$> last (allStatuses (state w)) in
  (requests_at prev evs).*2 = requests evs ∧
  ∀ (c : option string) (r : Request),
    (c, r) ∈ requests_at prev evs →
    ∃ a,
      (if is_initial ty then resolve pre = inr a
       else currentAccount (state w) = Some a) ∧
      request_url domain r
      = "https://" +:+ domain +:+ "/api/v1/accounts/" +:+ acct_id a
          +:+ "/statuses?limit=40"
          +:+ (if excludeReplies cfg then "&exclude_replies=true" else "")
          +:+ (if excludeReblogs cfg then "&exclude_reblogs=true" else "")
          +:+ (if truthy c then "&max_id=" +:+ default "" c else "").
Proof.
  intros Hty. cbv zeta. split; [apply requests_at_requests|].
  rewrite executeFetch_trace.
  destruct (entry_world ty pre w) as (Hall & _ & _ & _ & _ & Hview & _ & Hacc).
  pose proof (entry_config ty pre w) as Hcfg.
  destruct (find_account ty pre (begin_fetch ty w)) as [w1 [m|account]] eqn:Ef;
    simpl in *.
  { intros c r Hr. by destruct ty; apply not_elem_of_nil in Hr. }
  destruct (Hacc account eq_refl) as (a & Ha & -> & Hres).
  destruct (loop_chained ticks (enter_loop ty (acct_id a) w1)) as (Hch & Hq); [done|].
  intros c r Hin.
  assert (Hch' : chained (if is_initial ty then None
                          else id <$> last (allStatuses (state w)))
                   (while_loop ticks (enter_loop ty (acct_id a) w1)).2 = true).
  { destruct ty; [done| |done]. simpl in *. by rewrite Hall in Hch. }
  destruct (requests_at_chained _ _ _ _ Hch' Hin) as [Hmax Hr].
  destruct (Hq r Hr) as (Q1 & Q2 & Q3 & Q4 & Q5). simpl in *.
  rewrite Hcfg in Q3, Q4.
  exists a. split.
  { destruct ty; simpl; [by apply Hres| |done].
    destruct Hview as (_ & <- & _); done. }
  unfold request_url. rewrite Q1, Q2, Q3, Q4, Hmax.
  assert (Q5' : req_since_id r = None) by (by destruct ty).
  rewrite Q5'. unfold cursor.
  assert (Hlimit : pretty 40%nat = "40") by (vm_compute; reflexivity).
  rewrite Hlimit, append_empty.
  destruct c as [c|]; simpl; [|done]. by destruct (String.eqb c "").
Qed.

Lemma requests_follow_cursor_witness :
  let posts := [Sample.p1; Sample.p2; Sample.p3] in
  let w := Sample.world_of all [Sample.post "9" 9000] ∅ in
  let ticks := [Sample.quiet posts 120; Sample.quiet posts 80] in
  ∃ a, currentAccount (state w) = Some a ∧
       request_url "example.social" (statusesUrl (enter_loop older "109" w))
       = "https://example.social/api/v1/accounts/" +:+ acct_id a
           +:+ "/statuses?limit=40&exclude_replies=true&exclude_reblogs=true&max_id=9".
Proof.
  refine (proj2 (requests_follow_cursor older More.uncached
                   [Sample.quiet [Sample.p1; Sample.p2; Sample.p3] 120;
                    Sample.quiet [Sample.p1; Sample.p2; Sample.p3] 80]
                   (Sample.world_of all [Sample.post "9" 9000] ∅)
                   "example.social" _)
            (Some "9")
            (statusesUrl (enter_loop older "109"
                            (Sample.world_of all [Sample.post "9" 9000] ∅))) _).
  - discriminate.
  - vm_compute. apply list_elem_of_here.
Defined.

(** ** The walker of the Misskey client *)

Section Notes.

Variable env : NotesEnv.
Variable opts : NotesOptions.
Variable userId : string.

Implicit Types (evs : list NotesEvent) (fuel now total : nat).

Lemma notes_requests_app evs evs' :
  notes_requests (evs ++ evs') = notes_requests evs ++ notes_requests evs'.
Proof.
  induction evs as [|e evs IH]; [done|]. destruct e; simpl; by rewrite ?IH.
Qed.

Lemma notes_pages_app evs evs' :
  notes_pages (evs ++ evs') = notes_pages evs ++ notes_pages evs'.
Proof.
  induction evs as [|e evs IH]; [done|].
  destruct e as [r|[m|notes]|n|]; simpl; by rewrite ?IH.
Qed.

(** The pause poll only sleeps. *)
Lemma pause_poll_sleeps fuel : ∀ now,
  notes_requests (pause_poll env fuel now).2 = [] ∧
  notes_pages (pause_poll env fuel now).2 = [].
Proof.
  induction fuel as [|fuel IH]; intros now; simpl.
  { by destruct (shouldPause env now). }
  destruct (shouldPause env now); [|done].
  destruct (shouldStop env (S now)); [done|].
  specialize (IH (S now)). by destruct (pause_poll env fuel (S now)).
Qed.

Lemma pause_poll_awake fuel now :
  shouldPause env now = false → pause_poll env fuel now = (Some now, []).
Proof. intros H. destruct fuel; simpl; by rewrite H. Qed.

Lemma notes_cursor_next untilId notes pages i :
  notes_cursor untilId (notes :: pages) (S i)
  = notes_cursor (note_id <$> last notes) pages i.
Proof. by destruct i. Qed.

(** What a call of the loop has done when it is left, or when the fuel
    runs out. *)
Lemma notes_loop_spec fuel : ∀ now untilId allNotes total,
  let res := (notes_loop env opts userId fuel now untilId allNotes total).1 in
  let evs := (notes_loop env opts userId fuel now untilId allNotes total).2 in
  (∀ all, res = Returned all → all = allNotes ++ concat (notes_pages evs)) ∧
  (∀ i r, notes_requests evs !! i = Some r →
          r = notes_request opts userId (notes_cursor untilId (notes_pages evs) i)) ∧
  (∀ i notes, notes_pages evs !! i = Some notes →
              (length notes < limit opts)%nat ∨ notes = [] →
              res = Returned (allNotes ++ concat (notes_pages evs)) ∧
              length (notes_requests evs) = S i ∧
              length (notes_pages evs) = S i) ∧
  (length (notes_pages evs) ≤ length (notes_requests evs) ≤ fuel)%nat.
Proof.
  induction fuel as [|fuel IH]; intros now untilId allNotes total.
  - cbv zeta. simpl.
    destruct (shouldStop env now); simpl.
    { split_and!; try done. by intros all [= <-]; rewrite app_nil_r. }
    destruct (shouldPause env now); simpl; [by split_and!|].
    destruct (shouldStop env now); simpl; [|by split_and!].
    split_and!; try done. by intros all [= <-]; rewrite app_nil_r.
  - cbv zeta. cbn [notes_loop].
    destruct (shouldStop env now).
    { simpl. split_and!; try done; try lia.
      by intros all [= <-]; rewrite app_nil_r. }
    pose proof (pause_poll_sleeps (S fuel) now) as [Hreq Hpages].
    destruct (pause_poll env (S fuel) now) as [[now'|] polls]; simpl in Hreq, Hpages.
    2:{ simpl. rewrite Hreq, Hpages. split_and!; try done. simpl. lia. }
    destruct (shouldStop env now'); simpl.
    { rewrite Hreq, Hpages. split_and!; try done; try (simpl; lia).
      by intros all [= <-]; rewrite app_nil_r. }
    set (request := notes_request opts userId untilId).
    destruct (notes_reply env now' request) as [message|[|n0 notes']] eqn:Er; simpl.
    + rewrite notes_requests_app, notes_pages_app, Hreq, Hpages. simpl.
      split_and!; try done; try lia. by intros [|i] r [= <-].
    + rewrite notes_requests_app, notes_pages_app, Hreq, Hpages. simpl.
      split_and!; try lia.
      * intros all [= <-]. by rewrite app_nil_r.
      * by intros [|i] r [= <-].
      * intros [|i] notes [= <-] _. by rewrite app_nil_r.
    + set (notes := n0 :: notes') in *.
      destruct (_ <? limit opts)%nat eqn:El.
      * simpl. rewrite !notes_requests_app, !notes_pages_app, Hreq, Hpages. simpl.
        split_and!; try lia.
        -- intros all [= <-]. by rewrite app_nil_r.
        -- by intros [|i] r [= <-].
        -- intros [|i] ps [= <-] _. by rewrite app_nil_r.
      * apply Nat.ltb_ge in El.
        specialize (IH (S (S now')) (note_id <$> last notes) (allNotes ++ notes)
                      (total + S (length notes'))%nat).
        destruct (notes_loop env opts userId fuel (S (S now'))
                    (note_id <$> last notes) (allNotes ++ notes)
                    (total + S (length notes'))%nat) as [res evs'].
        cbv zeta in IH. simpl in IH. destruct IH as (Hall & Hchain & Hshort & Hlen).
        simpl. rewrite !notes_requests_app, !notes_pages_app, Hreq, Hpages. simpl.
        split_and!; try lia.
        -- intros all E. rewrite (Hall all E). by rewrite <- app_assoc.
        -- intros [|i] r Hr; [by injection Hr as <-|].
           rewrite notes_cursor_next. by apply Hchain.
        -- intros [|i] ps Hps Hsh.
           { injection Hps as <-. destruct Hsh as [Hsh|Hsh]; [simpl in *; lia|done]. }
           destruct (Hshort i ps Hps Hsh) as (-> & -> & ->).
           by rewrite <- app_assoc.
Qed.

(** Never paused, the loop runs out of fuel only on full pages. *)
Lemma notes_loop_pending fuel : ∀ now untilId allNotes total,
  (∀ n, shouldPause env n = false) →
  let res := (notes_loop env opts userId fuel now untilId allNotes total).1 in
  let evs := (notes_loop env opts userId fuel now untilId allNotes total).2 in
  res = Pending →
  length (notes_requests evs) = fuel ∧
  length (notes_pages evs) = fuel ∧
  Forall (λ notes, limit opts ≤ length notes)%nat (notes_pages evs).
Proof.
  induction fuel as [|fuel IH]; intros now untilId allNotes total Hawake.
  - cbv zeta. simpl. rewrite Hawake.
    by destruct (shouldStop env now).
  - cbv zeta. cbn [notes_loop].
    destruct (shouldStop env now) eqn:Es; [done|].
    rewrite pause_poll_awake, Es by done.
    destruct (notes_reply env now _) as [message|[|n0 notes']]; simpl; [done..|].
    set (notes := n0 :: notes') in *.
    destruct (_ <? limit opts)%nat eqn:El; [done|].
    apply Nat.ltb_ge in El.
    specialize (IH (S (S now)) (note_id <$> last notes) (allNotes ++ notes)
                  (total + S (length notes'))%nat Hawake).
    destruct (notes_loop env opts userId fuel (S (S now))
                (note_id <$> last notes) (allNotes ++ notes)
                (total + S (length notes'))%nat) as [res evs'].
    simpl in *. intros ->. destruct (IH eq_refl) as (-> & -> & Hfull).
    split_and!; try done. by constructor.
Qed.

End Notes.

(** X17. When [getAllNotes] returns, it returns the pages it received,
    in order, and each of its requests carries the id of the last note of the
    page before as [untilId], the first request none. *)
Theorem getAllNotes_collects (env : NotesEnv) (opts : NotesOptions)
    (userId : string) (fuel : nat) (all : list Note) :
  (getAllNotes env opts userId fuel).1 = Returned all →
  let evs := (getAllNotes env opts userId fuel).2 in
  all = concat (notes_pages evs) ∧
  ∀ i r, notes_requests evs !! i = Some r →
         r = notes_request opts userId (notes_cursor None (notes_pages evs) i).
Proof.
  intros Hres. cbv zeta. unfold getAllNotes in *.
  destruct (notes_loop_spec env opts userId fuel 0 None [] 0) as (Hall & Hchain & _).
  split; [by apply Hall|]. exact Hchain.
Qed.

Lemma getAllNotes_collects_witness :
  let notes := [More.note "5"; More.note "4"; More.note "3"] in
  notes = concat (notes_pages
                    (getAllNotes (More.notes_server notes) More.two_by_two "u1" 5).2).
Proof.
  refine (proj1 (getAllNotes_collects
                   (More.notes_server [More.note "5"; More.note "4"; More.note "3"])
                   More.two_by_two "u1" 5
                   [More.note "5"; More.note "4"; More.note "3"] _)).
  reflexivity.
Defined.

(** X18. In [getAllNotes] a page shorter than the limit, or empty,
    is the last: the call returns all the pages received and has made no
    request after it. *)
Theorem short_page_ends_notes (env : NotesEnv) (opts : NotesOptions)
    (userId : string) (fuel i : nat) (notes : list Note) :
  let evs := (getAllNotes env opts userId fuel).2 in
  notes_pages evs !! i = Some notes →
  (length notes < limit opts)%nat ∨ notes = [] →
  (getAllNotes env opts userId fuel).1 = Returned (concat (notes_pages evs)) ∧
  length (notes_requests evs) = S i ∧
  length (notes_pages evs) = S i.
Proof.
  cbv zeta. unfold getAllNotes. intros Hpage Hshort.
  destruct (notes_loop_spec env opts userId fuel 0 None [] 0) as (_ & _ & H & _).
  by apply (H i notes).
Qed.

Lemma short_page_ends_notes_witness :
  let notes := [More.note "5"; More.note "4"; More.note "3"] in
  let evs := (getAllNotes (More.notes_server notes) More.two_by_two "u1" 5).2 in
  (getAllNotes (More.notes_server notes) More.two_by_two "u1" 5).1
  = Returned (concat (notes_pages evs)) ∧
  length (notes_requests evs) = 2%nat ∧
  length (notes_pages evs) = 2%nat.
Proof.
  refine (short_page_ends_notes
            (More.notes_server [More.note "5"; More.note "4"; More.note "3"])
            More.two_by_two "u1" 5 1 [More.note "3"] _ _).
  - reflexivity.
  - left. simpl. lia.
Defined.

(** X19. Never paused, [getAllNotes] is still running after
    [fuel] requests only when every one of them was answered by a page of at
    least [limit] notes. *)
Theorem notes_pending_on_full_pages (env : NotesEnv) (opts : NotesOptions)
    (userId : string) (fuel : nat) :
  (∀ n, shouldPause env n = false) →
  (getAllNotes env opts userId fuel).1 = Pending →
  let evs := (getAllNotes env opts userId fuel).2 in
  length (notes_requests evs) = fuel ∧
  length (notes_pages evs) = fuel ∧
  Forall (λ notes, limit opts ≤ length notes)%nat (notes_pages evs).
Proof.
  intros Hawake Hres. cbv zeta. unfold getAllNotes in *.
  by apply notes_loop_pending.
Qed.

Lemma notes_pending_on_full_pages_witness :
  let evs := (getAllNotes More.endless More.two_by_two "u1" 3).2 in
  length (notes_requests evs) = 3%nat ∧
  length (notes_pages evs) = 3%nat ∧
  Forall (λ notes, 2 ≤ length notes)%nat (notes_pages evs).
Proof.
  refine (notes_pending_on_full_pages More.endless More.two_by_two "u1" 3 _ _).
  - intros n. reflexivity.
  - reflexivity.
Defined.

(** ** Profile links *)

Section Paths.

Implicit Types (s name rest : string) (sep : Ascii.ascii).

Lemma split_no_sep sep s : occurs sep s = false → split sep s = [s].
Proof.
  induction s as [|c s IH]; [done|]. simpl.
  destruct (Ascii.eqb c sep); [done|]. simpl. intros H. by rewrite IH.
Qed.

Lemma split_app sep s rest :
  occurs sep s = false →
  split sep (s +:+ String sep rest) = s :: split sep rest.
Proof.
  induction s as [|c s IH].
  { intros _. change ("" +:+ String sep rest) with (String sep rest).
    simpl. by rewrite Ascii.eqb_refl. }
  rewrite append_cons. simpl.
  destruct (Ascii.eqb c sep); [done|]. simpl. intros H. by rewrite IH.
Qed.

(** No part of a split holds the separator. *)
Lemma split_parts sep s : Forall (λ p, occurs sep p = false) (split sep s).
Proof.
  induction s as [|c s IH]; simpl; [by repeat constructor|].
  destruct (Ascii.eqb c sep) eqn:E; [by constructor|].
  destruct (split sep s) as [|p parts]; [by repeat constructor; simpl; rewrite E|].
  apply Forall_cons in IH as [Hp Hparts].
  constructor; [|done]. simpl. by rewrite E.
Qed.

Lemma pathParts_parts pathname :
  Forall (λ p, occurs "/" p = false ∧ p ≠ "") (pathParts pathname).
Proof.
  unfold pathParts. pose proof (split_parts "/" pathname) as H.
  induction H as [|p parts Hp Hparts IH]; simpl; [constructor|].
  destruct (String.eqb p "") eqn:E; simpl; [done|].
  constructor; [|done]. split; [done|]. by apply String.eqb_neq.
Qed.

(** The parts of a path that starts with [/name], then ends or goes on
    with a slash. *)
Lemma pathParts_first name rest :
  occurs "/" name = false → name ≠ "" →
  rest = "" ∨ (∃ r, rest = String "/" r) →
  ∃ parts, pathParts (String "/" (name +:+ rest)) = name :: parts.
Proof.
  intros Hname Hne Hrest. unfold pathParts.
  cbn [split]. rewrite Ascii.eqb_refl. cbn [List.filter String.eqb negb].
  apply String.eqb_neq in Hne.
  destruct Hrest as [->|[r ->]].
  - rewrite append_empty, split_no_sep by done. simpl. rewrite Hne. by eexists.
  - rewrite split_app by done. simpl. rewrite Hne. by eexists.
Qed.

End Paths.

Section Links.

Variable parse_URL : string → option (string * string).

Lemma username_of_path_no_slash pathname name :
  username_of_path pathname = Some name → occurs "/" name = false.
Proof.
  unfold username_of_path. pose proof (pathParts_parts pathname) as H.
  destruct (pathParts pathname) as [|p parts]; [done|].
  apply Forall_cons in H as [[Hp _] Hparts].
  destruct p as [|c p]; [done|].
  destruct (Ascii.eqb c "@") eqn:E.
  { intros [= <-]. simpl in Hp. by apply orb_false_elim in Hp as [_ ?]. }
  destruct (String.eqb (String c p) "users"); [|done].
  destruct parts as [|q parts]; [done|].
  apply Forall_cons in Hparts as [[Hq _] _]. by intros [= <-].
Qed.

(** X20. A link whose path is [/@name] or [/users/name], followed
    by nothing or by a slash and anything, with a non-empty [name] free of
    slashes, is parsed to the host and [name], by [parseMastodonUrl] and by
    [parseMisskeyUrl] alike. *)
Theorem profile_links_are_parsed (inputUrl domain name rest : string) :
  occurs "/" name = false →
  name ≠ "" →
  rest = "" ∨ (∃ r, rest = String "/" r) →
  parse_URL inputUrl = Some (domain, "/@" +:+ name +:+ rest) ∨
  parse_URL inputUrl = Some (domain, "/users/" +:+ name +:+ rest) →
  parseMastodonUrl parse_URL inputUrl = Some (domain, name) ∧
  parseMisskeyUrl parse_URL inputUrl = Some (domain, name).
Proof.
  intros Hname Hne Hrest Hurl.
  assert (H : parseMastodonUrl parse_URL inputUrl = Some (domain, name)); [|done].
  unfold parseMastodonUrl, username_of_path.
  destruct Hurl as [-> | ->].
  - change ("/@" +:+ name +:+ rest) with (String "/" (String "@" name +:+ rest)).
    by destruct (pathParts_first (String "@" name) rest) as [parts ->].
  - change ("/users/" +:+ name +:+ rest)
      with (String "/" ("users" +:+ String "/" (name +:+ rest))).
    unfold pathParts. cbn [split]. rewrite Ascii.eqb_refl.
    cbn [List.filter String.eqb negb].
    rewrite split_app by done.
    change (split "/" (name +:+ rest))
      with (List.tl (split "/" (String "/" (name +:+ rest)))).
    destruct (pathParts_first name rest) as [parts Hparts]; try done.
    unfold pathParts in Hparts. cbn [split] in Hparts.
    rewrite Ascii.eqb_refl in Hparts. cbn [List.filter String.eqb negb] in Hparts.
    cbn [split]. rewrite Ascii.eqb_refl. cbn [List.tl List.filter].
    change (negb (String.eqb "users" "")) with true. cbv iota.
    by rewrite Hparts.
Qed.

(** X21. The user name that [parseMastodonUrl] returns holds no
    slash, and is the one read off the path of the link. *)
Theorem parsed_name_has_no_slash (inputUrl domain name : string) :
  parseMastodonUrl parse_URL inputUrl = Some (domain, name) →
  occurs "/" name = false ∧
  ∃ pathname, parse_URL inputUrl = Some (domain, pathname) ∧
              username_of_path pathname = Some name.
Proof.
  unfold parseMastodonUrl.
  destruct (parse_URL inputUrl) as [[d pathname]|]; [|done].
  destruct (username_of_path pathname) as [n|] eqn:E; [|done].
  intros [= <- <-]. split; [by eapply username_of_path_no_slash|]. by eexists.
Qed.

End Links.

Lemma profile_links_are_parsed_witness :
  parseMastodonUrl More.sample_URL "https://example.social/users/alice/statuses/3"
  = Some ("example.social", "alice") ∧
  parseMisskeyUrl More.sample_URL "https://example.social/users/alice/statuses/3"
  = Some ("example.social", "alice").
Proof.
  refine (profile_links_are_parsed More.sample_URL
            "https://example.social/users/alice/statuses/3"
            "example.social" "alice" "/statuses/3" _ _ _ _).
  - reflexivity.
  - discriminate.
  - right. by eexists.
  - right. reflexivity.
Defined.

Lemma parsed_name_has_no_slash_witness :
  occurs "/" "alice" = false ∧
  ∃ pathname,
    More.sample_URL "https://example.social/@alice" = Some ("example.social", pathname) ∧
    username_of_path pathname = Some "alice".
Proof.
  refine (parsed_name_has_no_slash More.sample_URL "https://example.social/@alice"
            "example.social" "alice" _).
  reflexivity.
Defined.

(** ** The image overlay *)

Section Overlay.

Implicit Types (g : Fullscreen) (l : list Media) (m : Media).

(** [findIndex] finds the first medium with the id, if there is one. *)
Lemma findIndex_found i l :
  (∃ m, m ∈ l ∧ media_id m = i) →
  0 ≤ findIndex i l < Z.of_nat (length l) ∧
  ∃ m, l !! Z.to_nat (findIndex i l) = Some m ∧ media_id m = i.
Proof.
  induction l as [|x l IH]; intros (m & Hin & Hid).
  { by apply not_elem_of_nil in Hin. }
  cbn [findIndex length].
  destruct (String.eqb (media_id x) i) eqn:E.
  { apply String.eqb_eq in E. split; [lia|]. by exists x. }
  apply String.eqb_neq in E.
  apply elem_of_cons in Hin as [->|Hin]; [done|].
  destruct IH as (Hr & m' & Hm' & Hid'); [by exists m|].
  destruct (findIndex i l <? 0) eqn:El; [apply Z.ltb_lt in El; lia|].
  split; [lia|]. exists m'. split; [|done].
  replace (Z.to_nat (findIndex i l + 1)) with (S (Z.to_nat (findIndex i l))) by lia.
  done.
Qed.

Lemma findIndex_self l m :
  NoDup (media_id <$> l) → m ∈ l →
  l !! Z.to_nat (findIndex (media_id m) l) = Some m.
Proof.
  induction l as [|x l IH]; intros Hnd Hin.
  { by apply not_elem_of_nil in Hin. }
  rewrite fmap_cons in Hnd. apply NoDup_cons in Hnd as [Hx Hnd].
  cbn [findIndex].
  destruct (String.eqb (media_id x) (media_id m)) eqn:E.
  - apply String.eqb_eq in E.
    apply elem_of_cons in Hin as [->|Hin]; [done|].
    destruct Hx. rewrite E. by apply list_elem_of_fmap_2.
  - apply String.eqb_neq in E.
    apply elem_of_cons in Hin as [->|Hin]; [done|].
    destruct (findIndex_found (media_id m) l) as (Hr & _); [by exists m|].
    destruct (findIndex (media_id m) l <? 0) eqn:El; [apply Z.ltb_lt in El; lia|].
    replace (Z.to_nat (findIndex (media_id m) l + 1))
      with (S (Z.to_nat (findIndex (media_id m) l))) by lia.
    by apply IH.
Qed.

Lemma keyboardHandler_in_range key g :
  in_range g → in_range (keyboardHandler key g).
Proof.
  unfold in_range, keyboardHandler.
  destruct (currentIndex g) as [i|] eqn:Ei; [|by rewrite Ei].
  destruct key; simpl; rewrite ?Ei; try done.
  - destruct (0 <? i) eqn:E; simpl; rewrite ?Ei; [|done].
    apply Z.ltb_lt in E. lia.
  - destruct (i <? _) eqn:E; simpl; rewrite ?Ei; [|done].
    apply Z.ltb_lt in E. lia.
Qed.

Lemma open_image_in_range displayMedia m g :
  m ∈ displayMedia → is_image m = true →
  in_range (open_image (Some (imageIndex displayMedia m)) (Some displayMedia) g).
Proof.
  intros Hin Him. unfold open_image, imageIndex. rewrite Him.
  assert (Hf : m ∈ List.filter is_image displayMedia) by (by apply List_filter_elem).
  destruct (findIndex_found (media_id m) (List.filter is_image displayMedia))
    as (Hr & _); [by exists m|].
  destruct (List.filter is_image displayMedia) as [|x l] eqn:El.
  { by apply not_elem_of_nil in Hf. }
  unfold in_range. cbn [currentIndex images]. by rewrite length_fmap.
Qed.

Lemma overlay_step_in_range e g :
  drawn e → in_range g → in_range (overlay_step e g).
Proof.
  destruct e as [key|displayMedia m| | |]; simpl.
  - intros _. apply keyboardHandler_in_range.
  - intros [Hin Him] _. by apply open_image_in_range.
  - intros _. unfold in_range, prev_image.
    destruct (currentIndex g) as [i|] eqn:Ei; [|by rewrite Ei].
    destruct (0 <? i) eqn:E; simpl; rewrite ?Ei; [|done].
    apply Z.ltb_lt in E. lia.
  - intros _. unfold in_range, next_image.
    destruct (currentIndex g) as [i|] eqn:Ei; simpl.
    + destruct (i <? _) eqn:E; simpl; rewrite ?Ei; [|done].
      apply Z.ltb_lt in E. lia.
    + intros Himg. rewrite Himg. simpl. by rewrite Ei.
  - done.
Qed.

Lemma overlay_run_in_range evs : ∀ g,
  Forall drawn evs → in_range g → in_range (overlay_run evs g).
Proof.
  induction evs as [|e evs IH]; intros g Hd Hg; [done|].
  apply Forall_cons in Hd as [He Hd].
  apply (IH (overlay_step e g)); [done|]. by apply overlay_step_in_range.
Qed.

Lemma in_range_displayed g :
  in_range g →
  currentIndex g = None ∨
  ∃ img, displayed_image g = Some (Some img) ∧ img ∈ images g.
Proof.
  unfold in_range, displayed_image.
  destruct (currentIndex g) as [i|]; [|by left]. intros Hi. right.
  destruct (i <? 0) eqn:E; [apply Z.ltb_lt in E; lia|].
  destruct (lookup_lt_is_Some_2 (images g) (Z.to_nat i)) as [img Himg]; [lia|].
  exists img. rewrite Himg. split; [done|]. by eapply list_elem_of_lookup_2.
Qed.

End Overlay.

(** X22. Whatever keys are pressed and whatever images and buttons
    are clicked, the overlay is closed with no image, or its index points at
    one of its images: the overlay never reads past its images. *)
Theorem overlay_shows_an_image (evs : list OverlayEvent) :
  Forall drawn evs →
  let g := overlay_run evs closed in
  (currentIndex g = None ∧ images g = []) ∨
  ∃ img, displayed_image g = Some (Some img) ∧ img ∈ images g.
Proof.
  intros Hd g.
  assert (Hg : in_range g) by (by apply overlay_run_in_range).
  destruct (in_range_displayed g Hg) as [Hn|H]; [|by right].
  left. split; [done|]. unfold in_range in Hg. by rewrite Hn in Hg.
Qed.

Lemma overlay_shows_an_image_witness :
  let media := [More.video "v"; More.picture "a"; More.picture "b"] in
  let g := overlay_run [ClickImage media (More.picture "b"); PressKey ArrowRight;
                        ClickPrev; PressKey OtherKey] closed in
  (currentIndex g = None ∧ images g = []) ∨
  ∃ img, displayed_image g = Some (Some img) ∧ img ∈ images g.
Proof.
  refine (overlay_shows_an_image
            [ClickImage [More.video "v"; More.picture "a"; More.picture "b"]
               (More.picture "b");
             PressKey ArrowRight; ClickPrev; PressKey OtherKey] _).
  repeat constructor.
Defined.

(** X23. With the images of the post on display carrying distinct
    ids, a click on one of them opens the overlay on that image. *)
Theorem clicked_image_is_shown (displayMedia : list Media) (m : Media)
    (g : Fullscreen) :
  m ∈ displayMedia →
  is_image m = true →
  NoDup (media_id <$> List.filter is_image displayMedia) →
  displayed_image (overlay_step (ClickImage displayMedia m) g)
  = Some (Some (to_image m)).
Proof.
  intros Hin Him Hnd. simpl. unfold open_image, imageIndex. rewrite Him.
  assert (Hf : m ∈ List.filter is_image displayMedia) by (by apply List_filter_elem).
  pose proof (findIndex_self _ m Hnd Hf) as Hself.
  destruct (findIndex_found (media_id m) (List.filter is_image displayMedia))
    as (Hr & _); [by exists m|].
  destruct (List.filter is_image displayMedia) as [|x l] eqn:El.
  { by apply not_elem_of_nil in Hf. }
  unfold displayed_image. cbn [currentIndex images].
  destruct (_ <? 0) eqn:E; [apply Z.ltb_lt in E; lia|].
  change (Some ((to_image <$> x :: l) !! Z.to_nat (findIndex (media_id m) (x :: l)))
          = Some (Some (to_image m))).
  by rewrite list_lookup_fmap, Hself.
Qed.

Lemma clicked_image_is_shown_witness :
  let media := [More.video "v"; More.picture "a"; More.picture "b"] in
  displayed_image (overlay_step (ClickImage media (More.picture "b")) closed)
  = Some (Some (to_image (More.picture "b"))).
Proof.
  refine (clicked_image_is_shown
            [More.video "v"; More.picture "a"; More.picture "b"]
            (More.picture "b") closed _ _ _).
  - apply list_elem_of_further, list_elem_of_further, list_elem_of_here.
  - reflexivity.
  - apply (bool_decide_unpack _). reflexivity.
Defined.

(** ** The first version *)

Section First.

Variable account : string.

Implicit Types (w : World) (ticks : list Tick) (evs : list Event).

(** What the loop of the first version has done when it is left. *)
Lemma first_loop_spec ticks : ∀ c collected w w' collected' err evs,
  first_loop ticks account c collected w = (Some (w', collected', err), evs) →
  collected' = collected ++ concat (pages evs) ∧
  chained c evs = true ∧
  (∀ r, r ∈ requests evs →
        req_account r = account ∧ req_limit r = 40%nat ∧
        req_exclude_replies r = true ∧ req_exclude_reblogs r = true ∧
        req_since_id r = None) ∧
  (err = None → last (responses evs) = Some (Ok [])) ∧
  (allStatuses (state w) = collected → allStatuses (state w') = collected') ∧
  (fetchCount (state w) = length collected →
   fetchCount (state w') = length collected') ∧
  viewedIds (state w') = viewedIds (state w) ∧
  currentAccount (state w') = currentAccount (state w) ∧
  error (state w') = error (state w) ∧
  localStorage w' = localStorage w.
Proof.
  induction ticks as [|t ticks IH]; intros c collected w w' collected' err evs; [done|].
  cbn [first_loop]. cbv zeta.
  destruct (reply t (first_statusesUrl account c)) as [message|[|b0 batch']] eqn:Er.
  - intros [= <- <- <- <-]. unfold pages. simpl. rewrite app_nil_r.
    rewrite bool_decide_eq_true_2 by done.
    split_and!; try done. by intros r ->%list_elem_of_singleton.
  - intros [= <- <- <- <-]. unfold pages. simpl. rewrite app_nil_r.
    rewrite bool_decide_eq_true_2 by done.
    split_and!; try done. by intros r ->%list_elem_of_singleton.
  - set (batch := b0 :: batch') in *.
    set (w1 := with_state _ w).
    destruct (first_loop ticks account (id <$> last batch) (collected ++ batch) w1)
      as [[[[w2 collected2] err2]|] evs'] eqn:E; [|done].
    intros [= <- <- <- <-].
    destruct (IH _ _ _ _ _ _ _ E) as (-> & Hch & Hq & Hlast & Hall & Hcount & Hv & Ha & He & Hs).
    unfold pages in *. simpl. rewrite bool_decide_eq_true_2 by done.
    split_and!; try done.
    + by rewrite <- app_assoc.
    + intros r [->|Hr]%elem_of_cons; [done|]. by apply Hq.
    + intros Herr. specialize (Hlast Herr).
      destruct (responses evs'); [done|]. exact Hlast.
    + intros _. by apply Hall.
    + intros _. by apply Hcount.
Qed.

End First.

(** X24. A walk of the first version that ends without error has
    looked up the account, received an empty page last, and collected the
    pages it received, at least one post; the text of each of its requests
    is the template with the id of the account, the two exclusions and
    [limit=40], followed, when the cursor is truthy, by [&max_id=] and the
    id of the last post received before, pasted as it is; it has loaded the
    history of the account and, when the quota allows, cached the
    collection. *)
Theorem first_version_walk (pre : FirstPrelude) (ticks : list Tick)
    (w w' : World) (evs : list Event) :
  handleFetch pre ticks w = (Some w', evs) →
  error (state w') = None →
  ∃ acc, url_ok pre = true ∧ looked_up pre = inr acc ∧
         currentAccount (state w') = Some acc ∧
         allStatuses (state w') = concat (pages evs) ∧
         allStatuses (state w') ≠ [] ∧
         fetchCount (state w') = length (allStatuses (state w')) ∧
         last (responses evs) = Some (Ok []) ∧
         (requests_at None evs).*2 = requests evs ∧
         (∀ (domain : string) (c : option string) (r : Request),
            (c, r) ∈ requests_at None evs →
            first_request_url domain r
            = "https://" +:+ domain +:+ "/api/v1/accounts/" +:+ acct_id acc
                +:+ "/statuses?exclude_replies=true&exclude_reblogs=true&limit=40"
                +:+ (if truthy c then "&max_id=" +:+ default "" c else "")) ∧
         loading (state w') = false ∧
         viewedIds (state w') = viewedIds (state (loadHistory (acct_id acc) w)) ∧
         (cache_fits pre = true →
          cached_data (localStorage w') !! acct_id acc
          = Some (allStatuses (state w'))).
Proof.
  unfold handleFetch. cbv zeta.
  destruct (url_ok pre); [|by intros [= <- <-]].
  destruct (looked_up pre) as [message|acc]; [by intros [= <- <-]|].
  set (w0 := loadHistory _ _).
  destruct (first_loop ticks (acct_id acc) None [] w0)
    as [[[[w1 collected] err]|] evs0] eqn:E; [|done].
  destruct (first_loop_spec _ _ _ _ _ _ _ _ _ E)
    as (Hcol & Hch & Hq & Hlast & Hall & Hcount & Hv & Ha & He & Hs).
  simpl in Hcol. specialize (Hall eq_refl). specialize (Hcount eq_refl).
  destruct collected as [|c0 collected], err as [message|];
    try (by intros [= <- <-]).
  specialize (Hlast eq_refl).
  intros [= <- <-] _. exists acc.
  assert (Hurl : ∀ (domain : string) (c : option string) (r : Request),
            (c, r) ∈ requests_at None evs0 →
            first_request_url domain r
            = "https://" +:+ domain +:+ "/api/v1/accounts/" +:+ acct_id acc
                +:+ "/statuses?exclude_replies=true&exclude_reblogs=true&limit=40"
                +:+ (if truthy c then "&max_id=" +:+ default "" c else "")).
  { intros domain c r Hin.
    destruct (requests_at_chained _ _ _ _ Hch Hin) as [Hmax Hr].
    destruct (Hq r Hr) as (Q1 & Q2 & _).
    unfold first_request_url. rewrite Q1, Q2, Hmax.
    assert (Hlimit : pretty 40%nat = "40") by (vm_compute; reflexivity).
    rewrite Hlimit. unfold cursor.
    destruct c as [c|]; simpl; [|done]. by destruct (String.eqb c ""). }
  pose proof (requests_at_requests evs0 None) as Hreqs.
  destruct (cache_fits pre); simpl; rewrite ?Hall, ?Hcount, ?Hv, ?Ha;
    split_and!; try done.
  intros _. by rewrite lookup_insert_eq.
Qed.

Lemma first_version_walk_witness :
  let posts := [Sample.p1; Sample.p2; Sample.p3] in
  let w := Sample.world_of all [] ∅ in
  let ticks := [Sample.quiet posts 120; Sample.quiet posts 80] in
  let w' := default w (handleFetch More.first_found ticks w).1 in
  let evs := (handleFetch More.first_found ticks w).2 in
  ∃ acc, url_ok More.first_found = true ∧ looked_up More.first_found = inr acc ∧
         currentAccount (state w') = Some acc ∧
         allStatuses (state w') = concat (pages evs) ∧
         allStatuses (state w') ≠ [] ∧
         fetchCount (state w') = length (allStatuses (state w')) ∧
         last (responses evs) = Some (Ok []) ∧
         (requests_at None evs).*2 = requests evs ∧
         (∀ (domain : string) (c : option string) (r : Request),
            (c, r) ∈ requests_at None evs →
            first_request_url domain r
            = "https://" +:+ domain +:+ "/api/v1/accounts/" +:+ acct_id acc
                +:+ "/statuses?exclude_replies=true&exclude_reblogs=true&limit=40"
                +:+ (if truthy c then "&max_id=" +:+ default "" c else "")) ∧
         loading (state w') = false ∧
         viewedIds (state w') = viewedIds (state (loadHistory (acct_id acc) w)) ∧
         (cache_fits More.first_found = true →
          cached_data (localStorage w') !! acct_id acc
          = Some (allStatuses (state w'))).
Proof.
  refine (first_version_walk More.first_found
            [Sample.quiet [Sample.p1; Sample.p2; Sample.p3] 120;
             Sample.quiet [Sample.p1; Sample.p2; Sample.p3] 80]
            (Sample.world_of all [] ∅) _ _ _ _).
  - vm_compute. reflexivity.
  - vm_compute. reflexivity.
Defined.

Section Versions.

Variable account : string.

Implicit Types (w : World) (k : Walk) (ticks : list Tick) (evs : list Event).

Lemma loops_agree ticks : ∀ c collected w k,
  Forall untouched ticks →
  type k = initial → accountId k = account → nextMaxId k = c → sinceId k = None →
  keepFetching k = true → stopRef (world k) = false → pausedRef (world k) = false →
  first_config (fetchConfig (state (world k))) →
  sessionCollectedCount k = length collected →
  allStatuses (state w) = collected →
  same_result w (world k) →
  requests (first_loop ticks account c collected w).2 = requests (while_loop ticks k).2 ∧
  responses (first_loop ticks account c collected w).2 = responses (while_loop ticks k).2 ∧
  match (first_loop ticks account c collected w).1, (while_loop ticks k).1 with
  | None, Running _ => True
  | Some (w', collected', None), Finished k' =>
      same_result w' (world k') ∧ stopRef (world k') = false ∧
      type k' = initial ∧ accountId k' = account ∧
      allStatuses (state w') = collected' ∧
      sessionCollectedCount k' = length collected'
  | Some (w', collected', Some message), Thrown message' k' =>
      same_result w' (world k') ∧ message = message'
  | _, _ => False
  end.
Proof.
  induction ticks as [|t ticks IH];
    intros c collected w k Hun Hty Hacc Hc Hsince Hkeep Hstop Hpause Hcfg Hcount Hall Hsame.
  { simpl. by rewrite Hkeep, Hstop. }
  apply Forall_cons in Hun as [[Hf Hd] Hun].
  cbn [first_loop while_loop]. rewrite Hkeep, Hstop. cbn [negb]. cbv zeta.
  unfold iteration. rewrite Hpause.
  assert (Hurl : statusesUrl k = first_statusesUrl account c).
  { destruct Hcfg as (_ & Hr & Hb).
    unfold statusesUrl, first_statusesUrl. by rewrite Hacc, Hr, Hb, Hc, Hsince. }
  rewrite Hurl, Hf.
  change (click [] k) with (with_world (world k) k).
  destruct (reply t (first_statusesUrl account c)) as [message|[|b0 batch']] eqn:Er.
  - simpl. by split_and!.
  - simpl. by split_and!.
  - set (batch := b0 :: batch') in *.
    unfold process_page.
    rewrite truncate_other by (left; simpl; destruct Hcfg as (-> & _); done).
    rewrite stop_at_count_other
      by (left; simpl; destruct Hcfg as (-> & _); done).
    simpl. rewrite Hty, Hd, Hkeep. simpl.
    set (w1 := with_state _ w).
    set (k1 := click [] _).
    destruct Hsame as (S1 & S2 & S3 & S4 & S5 & S6 & S7).
    specialize (IH (id <$> last batch) (collected ++ batch) w1 k1 Hun).
    destruct IH as (Hreq & Hres & IH); try done.
    { simpl. rewrite length_app. simpl. lia. }
    { unfold same_result. simpl. rewrite <- S1, Hall, Hcount, length_app. simpl.
      by split_and!. }
    destruct (first_loop ticks account (id <$> last batch) (collected ++ batch) w1)
      as [r1 evs1].
    destruct (while_loop ticks k1) as [o evs2]. simpl in *.
    rewrite ?requests_app, ?responses_app. simpl. rewrite Hreq, Hres.
    split_and!; try done.
Qed.

End Versions.

(** X25. When the configuration asks for everything with replies and
    boosts left out and no button is pressed, the walker makes the requests
    that the walk of the first version made, and ends, if at all, with the
    same collection, count, account, viewed set and store, and with an error
    exactly when the first version ends with one. *)
Theorem versions_agree (pre : Prelude) (ticks : list Tick) (w : World) :
  first_config (fetchConfig (state w)) →
  Forall untouched ticks →
  early pre = [] →
  let first := handleFetch {| url_ok := true; looked_up := resolve pre;
                              cache_fits := quota_ok pre |} ticks w in
  let current := executeFetch initial pre ticks w in
  requests first.2 = requests current.2 ∧
  responses first.2 = responses current.2 ∧
  match first.1, current.1 with
  | Some w1, Some w2 => same_result w1 w2
  | None, None => True
  | _, _ => False
  end.
Proof.
  intros Hcfg Hun Hearly. cbv zeta.
  unfold handleFetch, executeFetch, find_account. cbv zeta. rewrite Hearly.
  cbn [url_ok looked_up cache_fits handle_all foldl].
  destruct (resolve pre) as [message|acc] eqn:Eres.
  { simpl. by split_and!. }
  set (w1 := loadHistory (acct_id acc) _).
  set (w2 := loadHistory (acct_id acc) _).
  destruct (loops_agree (acct_id acc) ticks None [] w1
              (enter_loop initial (acct_id acc) w2) Hun)
    as (Hreq & Hres & Hend); try done.
  destruct (first_loop ticks (acct_id acc) None [] w1) as [r1 evs1].
  destruct (while_loop ticks (enter_loop initial (acct_id acc) w2)) as [o evs2].
  simpl in Hreq, Hres, Hend. cbn [fst snd].
  destruct r1 as [[[w1' collected'] [message|]]|], o as [k'|message' k'|k']; try done.
  - destruct Hend as [(S1 & S2 & S3 & S4 & S5 & S6 & S7) _].
    destruct collected'; simpl; by split_and!.
  - destruct Hend as ((S1 & S2 & S3 & S4 & S5 & S6 & S7) & Hstop & Hty & Hacc & Hall & Hcount).
    unfold after_loop, cache_statuses. rewrite Hty, Hstop, Hcount, Hacc.
    destruct collected' as [|c0 collected']; simpl.
    + by split_and!.
    + destruct (quota_ok pre); simpl; split_and!; try done.
      by rewrite S7, <- S1, Hall.
Qed.

Lemma versions_agree_witness :
  let posts := [Sample.p1; Sample.p2; Sample.p3] in
  let w := Sample.world_of all [] ∅ in
  let ticks := [Sample.quiet posts 120; Sample.quiet posts 80] in
  let first := handleFetch {| url_ok := true; looked_up := resolve Sample.found;
                              cache_fits := quota_ok Sample.found |} ticks w in
  let current := executeFetch initial Sample.found ticks w in
  requests first.2 = requests current.2 ∧
  responses first.2 = responses current.2 ∧
  match first.1, current.1 with
  | Some w1, Some w2 => same_result w1 w2
  | None, None => True
  | _, _ => False
  end.
Proof.
  refine (versions_agree Sample.found
            [Sample.quiet [Sample.p1; Sample.p2; Sample.p3] 120;
             Sample.quiet [Sample.p1; Sample.p2; Sample.p3] 80]
            (Sample.world_of all [] ∅) _ _ _).
  - by repeat split.
  - by repeat constructor.
  - reflexivity.
Defined.

(** X26. With a display filter that lets everything through, a
    pick is the pick of the first version. *)
Theorem sampler_versions_agree (u : nat) (confirmed : bool) (w : World) :
  showReplies (displayFilter (state w)) = true →
  showReblogs (displayFilter (state w)) = true →
  startDate (displayFilter (state w)) = None →
  endDate (displayFilter (state w)) = None →
  pickRandomStatus u confirmed w = first_pickRandomStatus u confirmed w.
Proof.
  intros H1 H2 H3 H4. unfold pickRandomStatus, first_pickRandomStatus.
  rewrite display_pool_no_filter by done.
  destruct (currentAccount (state w)); [|done].
  by destruct (allStatuses (state w)).
Qed.

Lemma sampler_versions_agree_witness :
  let w := Sample.world_of all [Sample.p1; Sample.p2] {[ "3" ]} in
  pickRandomStatus 4 false w = first_pickRandomStatus 4 false w.
Proof.
  refine (sampler_versions_agree 4 false
            (Sample.world_of all [Sample.p1; Sample.p2] {[ "3" ]}) _ _ _ _);
    reflexivity.
Defined.

(** X27. In the date-limited mode only the last post of a
    page is compared with the limit: when it is not before the limit, or
    one of the two dates is not a date, the page is merged whole, the cursor
    moves to that post and the walk goes on after the delay. *)
Theorem page_within_date_limit_goes_on (t : Tick) (k : Walk)
    (batch : list Status) (lastItem : Status) :
  type k ≠ newer →
  mode (fetchConfig (state (world k))) = limit_date →
  keepFetching k = true →
  pausedRef (world k) = false →
  reply t (statusesUrl k) = Ok batch →
  last batch = Some lastItem →
  time_lt (created_at lastItem) (limitDate (fetchConfig (state (world k)))) = false →
  ∃ k', iteration t k
        = (k', Requested (statusesUrl k) :: (Clicked <$> on_fetch t)
                 ++ Responded (latency t) (Ok batch)
                 :: (Clicked <$> on_delay t) ++ [Slept 400%N], Continue) ∧
        keepFetching k' = true ∧
        nextMaxId k' = Some (id lastItem) ∧
        allStatuses (state (world k')) = allStatuses (state (world k)) ++ batch.
Proof.
  intros Hty Hmode Hkeep Hpause Hreply Hlast Hlt.
  assert (Hn : is_newer (type k) = false) by (by destruct (type k)).
  destruct (handle_all_same (on_fetch t) (world k)) as (Eall & Ecfg & _).
  set (k1 := click (on_fetch t) k).
  set (k2 := merge batch (with_keepFetching (keepFetching k1) k1)).
  destruct (merge_spec batch (with_keepFetching (keepFetching k1) k1))
    as (Ety2 & Ekeep2 & _ & Ecfg2 & _ & Eall2).
  fold k2 in Ety2, Ekeep2, Ecfg2, Eall2.
  change (type (with_keepFetching (keepFetching k1) k1)) with (type k) in *.
  change (keepFetching (with_keepFetching (keepFetching k1) k1))
    with (keepFetching k) in *.
  change (world (with_keepFetching (keepFetching k1) k1))
    with (handle_all (on_fetch t) (world k)) in *.
  rewrite Hn, Eall in Eall2. rewrite Ecfg in Ecfg2.
  destruct (handle_all_same (on_delay t) (world k2)) as (Eall3 & Ecfg3 & _).
  exists (click (on_delay t) (with_nextMaxId (id <$> last batch) k2)).
  split; [|repeat split; simpl; try congruence; by rewrite Hlast].
  unfold iteration. rewrite Hpause, Hreply.
  destruct batch as [|b0 batch']; [done|].
  fold k1. unfold process_page.
  assert (Htr : truncate_by_date k1 (b0 :: batch') = (b0 :: batch', keepFetching k1)).
  { unfold truncate_by_date.
    change (fetchConfig (state (world k1)))
      with (fetchConfig (state (handle_all (on_fetch t) (world k)))).
    rewrite Ecfg, Hmode. change (type k1) with (type k). rewrite Hn, Hlast.
    by rewrite Hlt. }
  rewrite Htr. fold k2.
  rewrite stop_at_count_other by (left; by rewrite Ecfg2, Hmode).
  rewrite Ekeep2, Hkeep, Ety2, Hn. simpl. by rewrite <- app_assoc.
Qed.

Lemma page_within_date_limit_goes_on_witness :
  let batch := [Sample.p1; Sample.post "0" 500; Sample.p2] in
  let k := enter_loop initial "109" (Sample.world_of limit_date [] ∅) in
  let t := Sample.quiet batch 120 in
  ∃ k', iteration t k
        = (k', Requested (statusesUrl k) :: (Clicked <$> on_fetch t)
                 ++ Responded (latency t) (Ok batch)
                 :: (Clicked <$> on_delay t) ++ [Slept 400%N], Continue) ∧
        keepFetching k' = true ∧
        nextMaxId k' = Some "2" ∧
        allStatuses (state (world k')) = [] ++ batch.
Proof.
  refine (page_within_date_limit_goes_on
            (Sample.quiet [Sample.p1; Sample.post "0" 500; Sample.p2] 120)
            (enter_loop initial "109" (Sample.world_of limit_date [] ∅))
            [Sample.p1; Sample.post "0" 500; Sample.p2] Sample.p2 _ _ _ _ _ _ _);
    [discriminate | reflexivity..].
Defined.

Lemma strip_slashes_spec (path : string) :
  ∃ rest, path = strip_slashes path +:+ rest ∧
          (rest = "" ∨ ∃ r, rest = String "/" r).
Proof.
  induction path as [|c path (rest & IH & Hrest)]; [exists ""; by split; [|left]|].
  cbn [strip_slashes].
  destruct (strip_slashes path) as [|c0 t] eqn:E.
  - change ("" +:+ rest) with rest in IH. subst rest.
    destruct (Ascii.eqb c "/") eqn:Ec.
    + apply Ascii.eqb_eq in Ec as ->. exists (String "/" path).
      split; [done|]. right. by eexists.
    + exists path. by split.
  - exists rest. split; [|done]. rewrite append_cons. by f_equal.
Qed.

Section Probe.

Variable parse_URL : string → option (string * string).

(** X28. Every link that the probe script's [parseProfileUrl]
    accepts is parsed by [parseMastodonUrl] to the same host and user
    name. *)
Theorem probe_links_are_app_links (raw domain name : string) :
  parseProfileUrl parse_URL raw = Some (domain, name) →
  parseMastodonUrl parse_URL raw = Some (domain, name).
Proof.
  unfold parseProfileUrl, parseMastodonUrl.
  destruct (parse_URL raw) as [[d pathname]|]; [|done].
  destruct (strip_slashes_spec pathname) as (rest & Hpath & Hrest).
  destruct (strip_slashes pathname) as [|c [|c' n]]; try done.
  unfold match_profile.
  destruct (Ascii.eqb c "/") eqn:Ec; [|done].
  destruct (Ascii.eqb c' "@") eqn:Ec'; [|done].
  destruct (occurs "/" n) eqn:Eo; [done|].
  destruct (String.eqb n "") eqn:En; [done|]. simpl.
  intros [= <- <-].
  apply Ascii.eqb_eq in Ec as ->. apply Ascii.eqb_eq in Ec' as ->.
  rewrite Hpath. rewrite !append_cons.
  unfold username_of_path.
  change (String "@" (n +:+ rest)) with (String "@" n +:+ rest).
  by destruct (pathParts_first (String "@" n) rest) as [parts ->].
Qed.

End Probe.

Lemma probe_links_are_app_links_witness :
  parseMastodonUrl More.sample_URL "https://example.social/@alice"
  = Some ("example.social", "alice").
Proof.
  refine (probe_links_are_app_links More.sample_URL "https://example.social/@alice"
            "example.social" "alice" _).
  reflexivity.
Defined.

(** ** The emoji map *)

Section Emojis.

Implicit Types (map : gmap string string) (e : Emoji) (k : string).

Lemma js_set_lookup key value map k :
  js_set key value map !! k
  = if bool_decide (k = key ∧ key ≠ "__proto__") then Some value else map !! k.
Proof.
  unfold js_set. destruct (String.eqb key "__proto__") eqn:E.
  - apply String.eqb_eq in E. rewrite bool_decide_eq_false_2; [done|]. by intros [_ ?].
  - apply String.eqb_neq in E. case_bool_decide as H.
    + destruct H as [-> _]. by rewrite lookup_insert_eq.
    + rewrite lookup_insert_ne; [done|]. intros <-. by apply H.
Qed.

Lemma aliases_lookup url aliases : ∀ map k,
  foldl (λ map alias, if String.eqb alias "" then map else js_set alias url map)
    map aliases !! k
  = if bool_decide (k ∈ aliases ∧ k ≠ "" ∧ k ≠ "__proto__") then Some url
    else map !! k.
Proof.
  induction aliases as [|a aliases IH]; intros map k; cbn [foldl].
  { rewrite bool_decide_eq_false_2; [done|]. intros [H _]. by apply not_elem_of_nil in H. }
  rewrite IH.
  destruct (String.eqb a "") eqn:Ea;
    [apply String.eqb_eq in Ea|apply String.eqb_neq in Ea];
    rewrite ?js_set_lookup; repeat case_bool_decide; try done;
    rewrite ?elem_of_cons in *; naive_solver.
Qed.

(** One entry: the keys it writes take its url, the others keep their
    value. *)
Lemma mergeEmoji_lookup map e k :
  mergeEmoji map (Some e) !! k
  = if bool_decide (k ∈ emoji_keys e) then emoji_url e else map !! k.
Proof.
  assert (Hnone : ∀ v : option string,
            (if bool_decide (k ∈ @nil string) then v else map !! k) = map !! k).
  { intros v. by rewrite bool_decide_eq_false_2 by apply not_elem_of_nil. }
  unfold emoji_keys, mergeEmoji, truthy.
  destruct (emoji_name e) as [name|]; [|by rewrite Hnone].
  destruct (emoji_url e) as [url|];
    [|cbn [negb orb]; by rewrite orb_true_r, Hnone].
  destruct (String.eqb name "") eqn:En; [by rewrite Hnone|].
  destruct (String.eqb url "") eqn:Eu; [by rewrite Hnone|].
  cbn [negb orb].
  change (default "" (Some name)) with name.
  change (default "" (Some url)) with url.
  apply String.eqb_neq in En.
  set (short := default "" (head (split "@" name))).
  set (map1 := js_set name url map).
  set (map2 := if occurs "@" name
               then if String.eqb short "" then map1 else js_set short url map1
               else map1).
  assert (H2 : map2 !! k
               = if bool_decide ((k = name ∧ name ≠ "__proto__") ∨
                                 (occurs "@" name = true ∧ k = short ∧ short ≠ ""
                                  ∧ short ≠ "__proto__"))
                 then Some url else map !! k).
  { unfold map2, map1.
    destruct (occurs "@" name);
      [destruct (String.eqb short "") eqn:Es;
         [apply String.eqb_eq in Es|apply String.eqb_neq in Es]|];
      rewrite ?js_set_lookup; repeat case_bool_decide; try done; naive_solver. }
  assert (Hkeys : ∀ aliases,
            k ∈ List.filter (λ k, negb (String.eqb k "") && negb (String.eqb k "__proto__"))
                  (name :: (if occurs "@" name then [short] else []) ++ aliases)
            ↔ ((k = name ∧ name ≠ "__proto__") ∨
               (occurs "@" name = true ∧ k = short ∧ short ≠ "" ∧ short ≠ "__proto__")) ∨
              (k ∈ aliases ∧ k ≠ "" ∧ k ≠ "__proto__")).
  { intros aliases. rewrite List_filter_elem, andb_true_iff, !negb_true_iff.
    rewrite !String.eqb_neq, elem_of_cons, elem_of_app.
    destruct (occurs "@" name).
    - rewrite list_elem_of_singleton. naive_solver.
    - rewrite elem_of_nil. naive_solver. }
  destruct (emoji_aliases e) as [aliases|].
  - change (default [] (Some aliases)) with aliases.
    rewrite aliases_lookup, H2. specialize (Hkeys aliases).
    repeat case_bool_decide; try done; naive_solver.
  - change (default [] None) with (@nil string).
    rewrite H2. specialize (Hkeys []). rewrite app_nil_r in *.
    rewrite elem_of_nil in Hkeys.
    repeat case_bool_decide; try done; naive_solver.
Qed.

Lemma mergeEmojis_untouched arr : ∀ map k,
  (∀ e, Some e ∈ arr → k ∉ emoji_keys e) →
  mergeEmojis arr map !! k = map !! k.
Proof.
  induction arr as [|[e|] arr IH]; intros map k Hno; [done|..].
  - change (mergeEmojis (Some e :: arr) map) with (mergeEmojis arr (mergeEmoji map (Some e))).
    rewrite IH by (intros e' He'; apply Hno; by right).
    rewrite mergeEmoji_lookup, bool_decide_eq_false_2; [done|]. apply Hno. by left.
  - change (mergeEmojis (None :: arr) map) with (mergeEmojis arr map).
    apply IH. intros e' He'. apply Hno. by right.
Qed.

Lemma mergeEmojis_app arr1 arr2 map :
  mergeEmojis (arr1 ++ arr2) map = mergeEmojis arr2 (mergeEmojis arr1 map).
Proof. apply foldl_app. Qed.

End Emojis.

(** X29. In the emoji map, a key written by an entry of the list (its
    name, the part of its name before the first [@], an alias that is not
    empty; never [__proto__], and nothing when the name or the url is
    missing) maps to the url of the last entry that writes it. *)
Theorem emoji_last_write_wins (arr1 arr2 : list (option Emoji)) (e : Emoji)
    (map : gmap string string) (k : string) :
  k ∈ emoji_keys e →
  (∀ e', Some e' ∈ arr2 → k ∉ emoji_keys e') →
  mergeEmojis (arr1 ++ Some e :: arr2) map !! k = emoji_url e.
Proof.
  intros Hk Hlater. rewrite mergeEmojis_app.
  change (mergeEmojis (Some e :: arr2) ?m) with (mergeEmojis arr2 (mergeEmoji m (Some e))).
  rewrite mergeEmojis_untouched by done.
  by rewrite mergeEmoji_lookup, bool_decide_eq_true_2.
Qed.

Lemma emoji_last_write_wins_witness :
  mergeEmojis ([None] ++ Some More.blob :: [Some More.cat]) ∅ !! "blob"
  = Some "https://example.social/blob.png".
Proof.
  refine (emoji_last_write_wins [None] [Some More.cat] More.blob ∅ "blob" _ _).
  - apply list_elem_of_further, list_elem_of_here.
  - intros e' H. apply list_elem_of_singleton in H. injection H as ->.
    apply (bool_decide_unpack _). reflexivity.
Defined.

(** X30. When [getInstanceEmojis] returns a map, it has used the
    answer to the POST request, making no other request, when that request
    succeeded, and the answer to the GET request otherwise; every key of the
    map is a key written by an entry of that answer and maps to the url of
    that entry. *)
Theorem emoji_map_holds_written_keys (post get : EmojiReply)
    (map : gmap string string) (requests : list EmojiMethod) :
  getInstanceEmojis post get = (inr map, requests) →
  ∃ json, (post = EmojiOk json ∧ requests = [POST] ∨
           (∃ message, post = EmojiFailed message) ∧ get = EmojiOk json ∧
           requests = [POST; GET]) ∧
          ∀ k url, map !! k = Some url →
                   ∃ e, Some e ∈ toArray json ∧ k ∈ emoji_keys e ∧
                        emoji_url e = Some url.
Proof.
  assert (Hmap : ∀ arr m k url,
            mergeEmojis arr m !! k = Some url →
            m !! k = Some url ∨
            ∃ e, Some e ∈ arr ∧ k ∈ emoji_keys e ∧ emoji_url e = Some url).
  { induction arr as [|[e|] arr IH]; intros m k url H; [by left|..].
    - change (mergeEmojis (Some e :: arr) m) with (mergeEmojis arr (mergeEmoji m (Some e))) in H.
      apply IH in H as [H|(e' & ? & ? & ?)].
      + rewrite mergeEmoji_lookup in H. case_bool_decide as Hk; [|by left].
        right. exists e. split_and!; try done. by left.
      + right. exists e'. split_and!; try done. by right.
    - change (mergeEmojis (None :: arr) m) with (mergeEmojis arr m) in H.
      apply IH in H as [H|(e' & ? & ? & ?)]; [by left|].
      right. exists e'. split_and!; try done. by right. }
  unfold getInstanceEmojis.
  destruct post as [message|json].
  - destruct get as [message'|json]; [done|]. intros [= <- <-].
    exists json. split; [right; split_and!; try done; by eexists|].
    intros k url H. by apply Hmap in H as [H|H].
  - intros [= <- <-]. exists json. split; [by left|].
    intros k url H. by apply Hmap in H as [H|H].
Qed.

Lemma emoji_map_holds_written_keys_witness :
  let map := mergeEmojis [Some More.blob; None] ∅ in
  ∃ json, (EmojiFailed "blocked" = EmojiOk json ∧ [POST; GET] = [POST] ∨
           (∃ message, EmojiFailed "blocked" = EmojiFailed message) ∧
           EmojiOk (EmojiObject (Some [Some More.blob; None])) = EmojiOk json ∧
           [POST; GET] = [POST; GET]) ∧
          ∀ k url, map !! k = Some url →
                   ∃ e, Some e ∈ toArray json ∧ k ∈ emoji_keys e ∧
                        emoji_url e = Some url.
Proof.
  refine (emoji_map_holds_written_keys (EmojiFailed "blocked")
            (EmojiOk (EmojiObject (Some [Some More.blob; None])))
            (mergeEmojis [Some More.blob; None] ∅) [POST; GET] _).
  reflexivity.
Defined.
